(** * The ratings-driven recommender of the Spotify Wrapped backend

    A shallow embedding of [load_recommender_models] and
    [submit_ratings_and_recommend] from [backend/spotify_api_dynamic.py],
    followed by the properties of the profile builder, of the distance
    index and of the recommendation endpoint.

    Numbers.  Star ratings are integers ([Z]).  Feature coordinates are
    floating-point numbers in the program; every finite float is a
    rational, so a coordinate is a canonical rational ([Qc]) and the
    arithmetic on coordinates is exact.  A distance is the real square
    root of a rational, so distances and similarity scores live in [R].

    Where a property depends on rounding, the arithmetic of the program
    is modelled as it is: [f64] rounds a rational to the nearest binary64
    number, ties to even, with the exponent range taken as unbounded (no
    overflow, no subnormal numbers), and [np_average_f64] and
    [profile_builder_f64] round after every operation.

    A second part embeds [start_rating_session], the batch of ratings
    that [frontend/pages/recommendations_page.py] sends for a session,
    [genre_distribution_endpoint] and [popularity_distribution].  The
    percentages of the two distributions are rounded floats; the answers
    take the rounding function as a parameter. *)

From Stdlib Require Import ZArith QArith Qcanon Qreals Reals Lqa Lra Lia.
From Stdlib Require Import Bool Ascii String List Permutation Sorted.
From Stdlib Require Import Qround Qpower.
Import ListNotations.

Local Open Scope Z_scope.

(** ** Numbers and vectors *)

Definition vec : Type := list Qc.

Definition Qc_of_Z (z : Z) : Qc := Q2Qc (inject_Z z).

Definition R_of_Qc (q : Qc) : R := Q2R (this q).

Definition Qcle_bool (x y : Qc) : bool := Qle_bool (this x) (this y).

(** Coordinate-wise combination of two rows (numpy broadcasting between
    rows of one two-dimensional array, whose rows all have one length). *)
Fixpoint zip_with (f : Qc -> Qc -> Qc) (u v : vec) : vec :=
  match u, v with
  | x :: u', y :: v' => f x y :: zip_with f u' v'
  | _, _ => []
  end.

Definition vadd : vec -> vec -> vec := zip_with Qcplus.

Definition vscale (v : vec) (w : Qc) : vec := map (fun x => Qcmult x w) v.

Definition zsum (ws : list Z) : Z := fold_left Z.add ws 0.

(** ** Python values that may be absent *)

(** A key of a JSON object: not there, there with [null], or there with a
    value. *)
Inductive field (A : Type) : Type :=
| Absent
| Null
| Val (a : A).
Arguments Absent {A}.
Arguments Null {A}.
Arguments Val {A} a.

Inductive exn : Type :=
| KeyError
| IndexError
| ZeroDivisionError
| ValueError
| InvalidDimension
| StopIteration.

(** ** Catalog, artifacts and globals *)

(** One row of [recommender_df]; a column the frame does not have is
    [None] and [song.get] falls back on its default. *)
Record Song : Type := mkSong {
  song_track_name : option string;
  song_artists : option string;
  song_year : option Z;
  song_popularity : option Z;
  song_track_genre : option string
}.

(** [recommender_df]: the index labels (the catalog identities, unique
    within the frame) and the rows, position by position. *)
Record DataFrame : Type := mkDataFrame {
  df_labels : list Z;
  df_rows : list Song
}.

Inductive Scaler : Type :=
| StandardScaler (mean_ scale_ : vec).

(** Modelled from the spec: the Distance Index, i.e. the object pickled in
    [ml/recommender_knn.pkl] by [backend/train_recommender.py], which is
    not part of the sources.  It keeps the vectors it was built over and
    their coordinate count. *)
Record Knn : Type := mkKnn {
  n_features_in : nat;
  fit_X : list vec
}.

(** The dictionary pickled in [ml/recommender_data.pkl]; a key it lacks is
    [None]. *)
Record DataDict : Type := mkDataDict {
  dd_df : option DataFrame;
  dd_scaled_features : option (list vec);
  dd_feature_cols : option (list string)
}.

(** What [open] followed by [pickle.load] finds under [ml/]; a file that
    is missing or does not unpickle is [None]. *)
Record Artifacts : Type := mkArtifacts {
  knn_pkl : option Knn;
  scaler_pkl : option Scaler;
  data_pkl : option DataDict
}.

(** The module-level variables of the recommendation endpoints. *)
Record Globals : Type := mkGlobals {
  knn_model : option Knn;
  scaler : option Scaler;
  recommender_data : option DataDict;
  recommender_df : option DataFrame;
  scaled_features : option (list vec);
  feature_cols : option (list string)
}.

Definition initial_globals : Globals :=
  mkGlobals None None None None None None.

(** ** Requests and responses *)

Record RatingObj : Type := mkRating {
  r_df_index : field Z;
  r_rating : field Z
}.

Record Request : Type := mkRequest {
  req_ratings : option (list RatingObj);
  req_top_k : option Z
}.

Record Recommendation : Type := mkRecommendation {
  track_name : string;
  artists : string;
  year : Z;
  popularity : Z;
  track_genre : string;
  similarity_score : R
}.

Inductive Response : Type :=
| Ok200 (recommendations : list Recommendation) (count : nat) (based_on : nat)
| Error (status : Z) (message : string).

(** ** Control flow inside the [try] block

    A step yields a value, leaves the handler through [return], or raises. *)
Inductive outcome (A : Type) : Type :=
| Value (a : A)
| Return (r : Response)
| Raise (e : exn).
Arguments Value {A} a.
Arguments Return {A} r.
Arguments Raise {A} e.

Definition bind {A B : Type} (m : outcome A) (k : A -> outcome B) : outcome B :=
  match m with
  | Value a => k a
  | Return r => Return r
  | Raise e => Raise e
  end.

Notation "x <- m ;; k" := (bind m (fun x => k))
  (at level 61, m at next level, right associativity).
Notation "' p <- m ;; k" := (bind m (fun x => match x with p => k end))
  (at level 61, p pattern, m at next level, right associativity).

(** ** [load_recommender_models] *)

Definition set_knn_model (g : Globals) (k : Knn) : Globals :=
  mkGlobals (Some k) (scaler g) (recommender_data g) (recommender_df g)
            (scaled_features g) (feature_cols g).

Definition set_scaler (g : Globals) (s : Scaler) : Globals :=
  mkGlobals (knn_model g) (Some s) (recommender_data g) (recommender_df g)
            (scaled_features g) (feature_cols g).

Definition set_recommender_data (g : Globals) (d : DataDict) : Globals :=
  mkGlobals (knn_model g) (scaler g) (Some d) (recommender_df g)
            (scaled_features g) (feature_cols g).

Definition set_recommender_df (g : Globals) (df : DataFrame) : Globals :=
  mkGlobals (knn_model g) (scaler g) (recommender_data g) (Some df)
            (scaled_features g) (feature_cols g).

Definition set_scaled_features (g : Globals) (sf : list vec) : Globals :=
  mkGlobals (knn_model g) (scaler g) (recommender_data g) (recommender_df g)
            (Some sf) (feature_cols g).

Definition set_feature_cols (g : Globals) (fc : list string) : Globals :=
  mkGlobals (knn_model g) (scaler g) (recommender_data g) (recommender_df g)
            (scaled_features g) (Some fc).

(** The globals are assigned one after the other inside the [try]; an
    exception leaves the earlier assignments in place and the function
    answers [False].  Lower-casing the column names of the frame renames
    columns only; the rows of [DataFrame] are already read through the
    lower-case names. *)
Definition load_recommender_models (fs : Artifacts) (g : Globals)
  : Globals * bool :=
  match knn_pkl fs with
  | None => (g, false)
  | Some k =>
    let g1 := set_knn_model g k in
    match scaler_pkl fs with
    | None => (g1, false)
    | Some s =>
      let g2 := set_scaler g1 s in
      match data_pkl fs with
      | None => (g2, false)
      | Some d =>
        let g3 := set_recommender_data g2 d in
        match dd_df d with
        | None => (g3, false)
        | Some df =>
          let g4 := set_recommender_df g3 df in
          match dd_scaled_features d with
          | None => (g4, false)
          | Some sf =>
            let g5 := set_scaled_features g4 sf in
            match dd_feature_cols d with
            | None => (g5, false)
            | Some fc => (set_feature_cols g5 fc, true)
            end
          end
        end
      end
    end
  end.

(** The guard of the endpoint:
    [all([knn_model, scaler, recommender_df is not None,
          scaled_features is not None])]. *)
Definition truthy {A : Type} (o : option A) : bool :=
  match o with Some _ => true | None => false end.

Definition initialized (g : Globals) : bool :=
  forallb (fun b : bool => b)
    [truthy (knn_model g); truthy (scaler g);
     truthy (recommender_df g); truthy (scaled_features g)].

(** ** The profile builder (lines 416 to 436 of the endpoint) *)

(** [r.get(key)]: [None] both for a missing key and for [null]. *)
Definition get {A : Type} (f : field A) : option A :=
  match f with
  | Val a => Some a
  | Absent | Null => None
  end.

(** [r[key]]: a missing key raises, [null] is the value [None]. *)
Definition getitem {A : Type} (f : field A) : outcome (option A) :=
  match f with
  | Absent => Raise KeyError
  | Null => Value None
  | Val a => Value (Some a)
  end.

(** [label in recommender_df.index] *)
Definition label_in (df : DataFrame) (label : Z) : bool :=
  existsb (Z.eqb label) (df_labels df).

(** [recommender_df.index.get_loc(label)]: the position of the label.  The
    labels of the frame are unique (a catalog identity names one item), so
    the position is an integer. *)
Fixpoint position (labels : list Z) (label : Z) : option nat :=
  match labels with
  | [] => None
  | l :: ls => if l =? label then Some O else option_map S (position ls label)
  end.

Definition get_loc (df : DataFrame) (label : Z) : outcome nat :=
  match position (df_labels df) label with
  | Some loc => Value loc
  | None => Raise KeyError
  end.

(** [xs[i]] on a Python sequence or on the rows of an array. *)
Definition subscript {A : Type} (xs : list A) (i : nat) : outcome A :=
  match nth_error xs i with
  | Some x => Value x
  | None => Raise IndexError
  end.

(** The loop over [ratings] that fills [rated_features] and [weights]. *)
Fixpoint collect_rated (df : DataFrame) (sf : list vec) (ratings : list RatingObj)
  (rated_features : list vec) (weights : list Z) : outcome (list vec * list Z) :=
  match ratings with
  | [] => Value (rated_features, weights)
  | r :: rest =>
    match get (r_df_index r), get (r_rating r) with
    | Some df_index, Some rating =>
      if label_in df df_index then
        loc <- get_loc df df_index ;;
        row <- subscript sf loc ;;
        collect_rated df sf rest (rated_features ++ [row]) (weights ++ [rating - 3])
      else collect_rated df sf rest rated_features weights
    | _, _ => collect_rated df sf rest rated_features weights
    end
  end.

(** Sum of the rows of a two-dimensional array along axis 0. *)
Definition vsum (rows : list vec) : vec :=
  match rows with
  | [] => []
  | r :: rs => fold_left vadd rs r
  end.

(** [np.multiply(a, wgt)] with the weights broadcast along the rows. *)
Definition weigh_rows (a : list vec) (weights : list Z) : list vec :=
  map (fun rw : vec * Z => vscale (fst rw) (Qc_of_Z (snd rw))) (combine a weights).

(** [np.average(a, axis=0, weights=weights)]: the weights must match the
    rows in number, their sum [scl] must not be zero, and the result is
    [np.multiply(a, wgt).sum(axis=0) / scl].  The arithmetic is exact
    here; [np_average_f64] below rounds every operation as the program
    does. *)
Definition np_average (a : list vec) (weights : list Z) : outcome vec :=
  if negb (length weights =? length a)%nat then Raise ValueError
  else
    let scl := zsum weights in
    if scl =? 0 then Raise ZeroDivisionError
    else Value (map (fun x => Qcdiv x (Qc_of_Z scl)) (vsum (weigh_rows a weights))).

Definition is_nil {A : Type} (l : list A) : bool :=
  match l with [] => true | _ :: _ => false end.

Definition profile_builder (df : DataFrame) (sf : list vec) (ratings : list RatingObj)
  : outcome vec :=
  if is_nil ratings then Return (Error 400 "No ratings provided")
  else
    ' (rated_features, weights) <- collect_rated df sf ratings [] [] ;;
    if is_nil rated_features
    then Return (Error 400 "Could not find any of the rated songs in the dataset")
    else np_average rated_features weights.

(** ** The distance index *)

Definition sqdist (q x : vec) : Qc :=
  fold_right Qcplus 0%Qc (zip_with (fun a b => Qcmult (Qcminus a b) (Qcminus a b)) q x).

(** Euclidean distance between two vectors of one length. *)
Definition euclidean (q x : vec) : R := sqrt (R_of_Qc (sqdist q x)).

(** Stable insertion by squared distance: an entry goes in front of the
    first entry that is not closer, so the earlier of two equally distant
    catalog positions stays first. *)
Fixpoint insert_by (p : nat * Qc) (l : list (nat * Qc)) : list (nat * Qc) :=
  match l with
  | [] => [p]
  | h :: t => if Qcle_bool (snd p) (snd h) then p :: h :: t else h :: insert_by p t
  end.

Definition rank (l : list (nat * Qc)) : list (nat * Qc) :=
  fold_right insert_by [] l.

(** Modelled from the spec: the [k] nearest catalog entries of the Distance
    Index, as pairs of a catalog position and its squared distance.  The
    catalog is ranked by ascending distance, the earlier position first
    among equals, and a [k] above the catalog size is clamped. *)
Definition nearest (knn : Knn) (X : vec) (n_neighbors : Z) : list (nat * Qc) :=
  let catalog := fit_X knn in
  let ranked := rank (combine (seq 0 (length catalog)) (map (sqdist X) catalog)) in
  firstn (Z.to_nat n_neighbors) ranked.

(** Modelled from the spec: [query(Q, k)] of the Distance Index, reached in
    the endpoint as [knn_model.kneighbors(user_profile, n_neighbors=k)].
    [k] must be at least 1 and a query of the wrong length is refused;
    the answer is the array of distances and the array of positions. *)
Definition kneighbors (knn : Knn) (X : vec) (n_neighbors : Z) : outcome (list R * list nat) :=
  if n_neighbors <? 1 then Raise ValueError
  else if negb (length X =? n_features_in knn)%nat then Raise InvalidDimension
  else
    Value (map (fun p : nat * Qc => sqrt (R_of_Qc (snd p))) (nearest knn X n_neighbors),
           map fst (nearest knn X n_neighbors)).

(** ** Filtering and formatting (lines 442 to 462) *)

(** [{r['df_index'] for r in ratings}] *)
Fixpoint rated_set (ratings : list RatingObj) : outcome (list (option Z)) :=
  match ratings with
  | [] => Value []
  | r :: rest =>
    v <- getitem (r_df_index r) ;;
    s <- rated_set rest ;;
    Value (v :: s)
  end.

Definition same_label (a b : option Z) : bool :=
  match a, b with
  | Some x, Some y => x =? y
  | None, None => true
  | _, _ => false
  end.

(** [label in rated_df_indices] *)
Definition is_rated (rated_df_indices : list (option Z)) (label : Z) : bool :=
  existsb (same_label (Some label)) rated_df_indices.

Definition get_default {A : Type} (o : option A) (d : A) : A :=
  match o with Some a => a | None => d end.

Definition format_recommendation (song : Song) (dist : R) : Recommendation :=
  mkRecommendation
    (get_default (song_track_name song) "Unknown"%string)
    (get_default (song_artists song) "Unknown"%string)
    (get_default (song_year song) 0)
    (get_default (song_popularity song) 0)
    (get_default (song_track_genre song) "N/A"%string)
    (1 - dist)%R.

(** The loop over [indices.flatten()], with [dist_iter] advanced once for
    every position it looks at. *)
Fixpoint recommend_loop (df : DataFrame) (rated_df_indices : list (option Z))
  (top_k : Z) (indices : list nat) (dist_iter : list R)
  (recommendations : list Recommendation) : outcome (list Recommendation) :=
  match indices with
  | [] => Value recommendations
  | i :: indices' =>
    if Z.of_nat (length recommendations) >=? top_k then Value recommendations
    else
      match dist_iter with
      | [] => Raise StopIteration
      | dist :: dist_iter' =>
        rec_df_index <- subscript (df_labels df) i ;;
        if negb (is_rated rated_df_indices rec_df_index) then
          song <- subscript (df_rows df) i ;;
          recommend_loop df rated_df_indices top_k indices' dist_iter'
            (recommendations ++ [format_recommendation song dist])
        else
          recommend_loop df rated_df_indices top_k indices' dist_iter' recommendations
      end
  end.

(** ** [submit_ratings_and_recommend] *)

(** [data.get('ratings', [])] and [data.get('top_k', 10)] *)
Definition ratings_of (req : Request) : list RatingObj :=
  get_default (req_ratings req) [].

Definition top_k_of (req : Request) : Z :=
  get_default (req_top_k req) 10.

Definition recommend_body (knn : Knn) (df : DataFrame) (sf : list vec) (req : Request)
  : outcome Response :=
  let ratings := ratings_of req in
  let top_k := top_k_of req in
  user_profile <- profile_builder df sf ratings ;;
  ' (distances, indices) <- kneighbors knn user_profile (top_k * 2) ;;
  rated_df_indices <- rated_set ratings ;;
  recommendations <- recommend_loop df rated_df_indices top_k indices distances [] ;;
  Value (Ok200 recommendations (length recommendations) (length ratings)).

(** [except Exception]: whatever was raised becomes the one 500 answer. *)
Definition handle (m : outcome Response) : Response :=
  match m with
  | Value r => r
  | Return r => r
  | Raise _ => Error 500 "Failed to generate recommendations"
  end.

Definition submit_ratings_and_recommend (g : Globals) (req : Request) : Response :=
  if negb (initialized g) then Error 503 "Recommender system not initialized"
  else
    match knn_model g, recommender_df g, scaled_features g with
    | Some knn, Some df, Some sf => handle (recommend_body knn df sf req)
    | _, _, _ => Error 503 "Recommender system not initialized"
    end.

(** ** The vocabulary of the specification *)

(** Feature Store contract [vectorOf(identity)]; [None] is [NotFound]. *)
Definition vectorOf (df : DataFrame) (sf : list vec) (identity : Z) : option vec :=
  match position (df_labels df) identity with
  | Some loc => nth_error sf loc
  | None => None
  end.

(** The ratings that survive the drop of unknown identities, each as the
    feature vector of its item with the weight [score - 3]. *)
Definition surviving (df : DataFrame) (sf : list vec) (ratings : list RatingObj)
  : list (vec * Z) :=
  flat_map (fun r =>
    match r_df_index r, r_rating r with
    | Val identity, Val score =>
      match vectorOf df sf identity with
      | Some v => [(v, score - 3)]
      | None => []
      end
    | _, _ => []
    end) ratings.

Definition total_weight (items : list (vec * Z)) : Z :=
  fold_right Z.add 0 (map snd items).

(** Coordinate [j] of the sum of the weighted vectors. *)
Definition weighted_sum_at (j : nat) (items : list (vec * Z)) : Qc :=
  fold_right (fun (p : vec * Z) acc =>
                Qcplus (Qcmult (Qc_of_Z (snd p)) (nth j (fst p) 0%Qc)) acc)
             0%Qc items.

(** The weighted arithmetic mean of [d]-coordinate vectors, as the
    specification words it: the weighted sum divided by the sum of the
    weights, which has no value when the weights add up to zero. *)
Definition weighted_mean (d : nat) (items : list (vec * Z)) : option vec :=
  let W := total_weight items in
  if W =? 0 then None
  else Some (map (fun j => Qcdiv (weighted_sum_at j items) (Qc_of_Z W)) (seq 0 d)).

(** The invariant of the Feature Store: unique labels and one feature
    vector of [d] coordinates per label. *)
Record feature_store (d : nat) (df : DataFrame) (sf : list vec) : Prop := mkFeatureStore {
  labels_unique : NoDup (df_labels df);
  features_aligned : length sf = length (df_labels df);
  features_width : Forall (fun v : vec => length v = d) sf
}.

(** The loaded artifacts belong together: a feature store of the
    coordinate count of the index, one row of the frame per label, and an
    index built over these very vectors. *)
Record coherent (knn : Knn) (df : DataFrame) (sf : list vec) : Prop := mkCoherent {
  store_ok : feature_store (n_features_in knn) df sf;
  rows_aligned : length (df_rows df) = length (df_labels df);
  index_over_features : fit_X knn = sf
}.

(** The service in its [Ready] state, holding these artifacts. *)
Definition ready (g : Globals) (knn : Knn) (df : DataFrame) (sf : list vec) : Prop :=
  knn_model g = Some knn /\ scaler g <> None /\
  recommender_df g = Some df /\ scaled_features g = Some sf.

(** The error classes of the specification, read off the response. *)
Definition service_unavailable (resp : Response) : Prop :=
  resp = Error 503 "Recommender system not initialized".

Definition generic_internal_failure (resp : Response) : Prop :=
  resp = Error 500 "Failed to generate recommendations".

Definition request_level_rejection (resp : Response) : Prop :=
  exists message, resp = Error 400 message.

(** [EmptyInput] as an outcome of the profile builder. *)
Definition empty_input (m : outcome vec) : Prop :=
  exists message, m = Return (Error 400 message).

(** A rating object with both keys set whose label is in the frame. *)
Definition valid_known (df : DataFrame) (r : RatingObj) : Prop :=
  exists label score,
    r_df_index r = Val label /\ r_rating r = Val score /\ label_in df label = true.

Definition has_df_index (r : RatingObj) : bool :=
  match r_df_index r with Absent => false | _ => true end.

Definition known_identity (df : DataFrame) (r : RatingObj) : bool :=
  match r_df_index r with Val label => label_in df label | _ => false end.

(** What one turn of the rating loop does with one rating object. *)
Definition rate_entry (df : DataFrame) (sf : list vec) (r : RatingObj)
  : outcome (option (vec * Z)) :=
  match get (r_df_index r), get (r_rating r) with
  | Some df_index, Some rating =>
    if label_in df df_index then
      loc <- get_loc df df_index ;;
      row <- subscript sf loc ;;
      Value (Some (row, rating - 3))
    else Value None
  | _, _ => Value None
  end.

Definition entry_raises (df : DataFrame) (sf : list vec) (r : RatingObj) : bool :=
  match rate_entry df sf r with Raise _ => true | _ => false end.

Definition entry_pairs (df : DataFrame) (sf : list vec) (r : RatingObj) : list (vec * Z) :=
  match rate_entry df sf r with Value (Some p) => [p] | _ => [] end.

(** The candidates of the index that the filter lets through, and the
    records made of them. *)
Definition unrated_candidates (df : DataFrame) (rated_df_indices : list (option Z))
  (indices : list nat) (distances : list R) : list (nat * R) :=
  filter (fun c : nat * R =>
            negb (is_rated rated_df_indices (nth (fst c) (df_labels df) 0)))
         (combine indices distances).

Definition empty_song : Song := mkSong None None None None None.

Definition record_of (df : DataFrame) (c : nat * R) : Recommendation :=
  format_recommendation (nth (fst c) (df_rows df) empty_song) (snd c).

Definition non_increasing (xs : list R) : Prop :=
  StronglySorted (fun a b : R => (b <= a)%R) xs.

Definition non_decreasing (xs : list R) : Prop :=
  StronglySorted (fun a b : R => (a <= b)%R) xs.

(** A rating object that the rating loop keeps. *)
Definition kept (df : DataFrame) (r : RatingObj) : bool :=
  match get (r_df_index r), get (r_rating r) with
  | Some label, Some _ => label_in df label
  | _, _ => false
  end.

Definition closer (a b : nat * Qc) : Prop := Qcle (snd a) (snd b).

Definition closer_or_earlier (a b : nat * Qc) : Prop :=
  Qclt (snd a) (snd b) \/ (snd a = snd b /\ (fst a < fst b)%nat).

(** The order of an answer of the index, on pairs of a catalog position
    and its distance: by distance, and by catalog position among equally
    distant entries. *)
Definition ranked_before (a b : nat * R) : Prop :=
  (snd a < snd b)%R \/ (snd a = snd b /\ (fst a < fst b)%nat).

(** The artifacts hold everything the guard of the endpoint asks for. *)
Definition loaded_for_queries (fs : Artifacts) : bool :=
  match knn_pkl fs, scaler_pkl fs, data_pkl fs with
  | Some _, Some _, Some d => truthy (dd_df d) && truthy (dd_scaled_features d)
  | _, _, _ => false
  end.

(** ** A small catalog

    Five items with two coordinates, the scenario of the specification. *)

Definition point (x y : Z) : vec := [Qc_of_Z x; Qc_of_Z y].

Definition demo_features : list vec :=
  [point 0 0; point 1 0; point 0 1; point 5 5; point 5 6].

Definition demo_song (name : string) : Song :=
  mkSong (Some name) (Some "artist"%string) (Some 2020) (Some 50) None.

Definition demo_frame : DataFrame :=
  mkDataFrame [100; 101; 102; 103; 104]
    [demo_song "a"; demo_song "b"; demo_song "c"; demo_song "d"; demo_song "e"].

Definition demo_knn : Knn := mkKnn 2 demo_features.

Definition demo_scaler : Scaler := StandardScaler (point 0 0) (point 1 1).

Definition demo_data : DataDict :=
  mkDataDict (Some demo_frame) (Some demo_features) (Some ["x"; "y"]%string).

Definition demo_artifacts : Artifacts :=
  mkArtifacts (Some demo_knn) (Some demo_scaler) (Some demo_data).

(** The same artifacts with the [feature_cols] entry missing from the
    data dictionary. *)
Definition artifacts_without_cols : Artifacts :=
  mkArtifacts (Some demo_knn) (Some demo_scaler)
    (Some (mkDataDict (Some demo_frame) (Some demo_features) None)).

Definition demo_globals : Globals :=
  fst (load_recommender_models demo_artifacts initial_globals).

Definition rate (label score : Z) : RatingObj := mkRating (Val label) (Val score).

Definition demo_request (ratings : list RatingObj) (top_k : Z) : Request :=
  mkRequest (Some ratings) (Some top_k).

(** * The profile builder in binary64 *)

(** ** Binary64 arithmetic *)

(** The integer nearest to a rational, the even one of two that are
    equally near. *)
Definition round_half_even (x : Q) : Z :=
  let f := Qfloor x in
  match Qcompare (x - inject_Z f) (1 # 2) with
  | Lt => f
  | Gt => f + 1
  | Eq => if Z.even f then f else f + 1
  end.

(** For [x > 0], the exponent [e] of the binary64 grid around [x]:
    [2 ^ 52 <= x / 2 ^ e < 2 ^ 53]. *)
Definition grid_exponent (x : Q) : Z :=
  let e := Z.log2 (Qnum x) - Z.log2 (Zpos (Qden x)) in
  if Qle_bool (2 ^ e) x then e - 52 else e - 53.

(** A positive rational brought onto its grid. *)
Definition round_positive (x : Q) : Q :=
  let e := grid_exponent x in
  inject_Z (round_half_even (x / 2 ^ e)) * 2 ^ e.

(** Rounding to the nearest number with a significand of 53 bits, ties
    to even. *)
Definition round53 (x : Q) : Q :=
  match Qnum x with
  | Z0 => 0
  | Zpos _ => round_positive x
  | Zneg _ => - round_positive (- x)
  end.

(** [f64 x]: the binary64 number nearest to [x], the one with the even
    significand of two that are equally near.  The exponent range is
    taken as unbounded: no overflow and no subnormal numbers.  The floats
    of the program are the rationals that [f64] leaves as they are. *)
Definition f64 (x : Qc) : Qc := Q2Qc (round53 (this x)).

(** One operation of the program: the exact result, rounded. *)
Definition f64_add (x y : Qc) : Qc := f64 (x + y).
Definition f64_mul (x y : Qc) : Qc := f64 (x * y).
Definition f64_div (x y : Qc) : Qc := f64 (x / y).

(** An integer weight cast to [float64]. *)
Definition f64_of_int (z : Z) : Qc := f64 (Qc_of_Z z).

Definition vadd_f64 : vec -> vec -> vec := zip_with f64_add.

(** [rows.sum(axis=0)] in binary64.  numpy reduces a two-dimensional
    array in C order along its first axis by adding the rows one after
    the other to the first. *)
Definition vsum_f64 (rows : list vec) : vec :=
  match rows with
  | [] => []
  | r :: rs => fold_left vadd_f64 rs r
  end.

(** [wgt.sum(axis=0, dtype=float64)], the terms added in their order. *)
Definition sum_f64 (xs : list Qc) : Qc :=
  match xs with
  | [] => 0%Qc
  | x :: rest => fold_left f64_add rest x
  end.

(** [np.multiply(a, wgt, dtype=float64)] *)
Definition weigh_rows_f64 (a : list vec) (weights : list Z) : list vec :=
  map (fun rw : vec * Z => map (fun x => f64_mul x (f64_of_int (snd rw))) (fst rw))
      (combine a weights).

(** [np.average(a, axis=0, weights=weights)] as numpy computes it for a
    [float64] array [a] and a list of integers [weights]:
    [scl = wgt.sum(axis=0, dtype=float64)], [ZeroDivisionError] where
    [scl == 0.0], and
    [np.multiply(a, wgt, dtype=float64).sum(axis=0) / scl]. *)
Definition np_average_f64 (a : list vec) (weights : list Z) : outcome vec :=
  if negb (length weights =? length a)%nat then Raise ValueError
  else
    let scl := sum_f64 (map f64_of_int weights) in
    if Qc_eq_bool scl 0%Qc then Raise ZeroDivisionError
    else Value (map (fun x => f64_div x scl) (vsum_f64 (weigh_rows_f64 a weights))).

(** Lines 416 to 436 of the endpoint with the average in binary64; the
    loop over the ratings is the one of [profile_builder]. *)
Definition profile_builder_f64 (df : DataFrame) (sf : list vec) (ratings : list RatingObj)
  : outcome vec :=
  if is_nil ratings then Return (Error 400 "No ratings provided")
  else
    ' (rated_features, weights) <- collect_rated df sf ratings [] [] ;;
    if is_nil rated_features
    then Return (Error 400 "Could not find any of the rated songs in the dataset")
    else np_average_f64 rated_features weights.

(** The unit roundoff of binary64. *)
Definition u64 : R := (/ 2 ^ 53)%R.

(** The relative error that [k] roundings can add up to. *)
Definition gamma (k : nat) : R := ((1 + u64) ^ k - 1)%R.

(** Coordinate [j] of the sum of the absolute values of the weighted
    vectors. *)
Definition abs_weighted_sum_at (j : nat) (items : list (vec * Z)) : R :=
  fold_right (fun (p : vec * Z) acc =>
                (Rabs (IZR (snd p) * R_of_Qc (nth j (fst p) 0%Qc)) + acc)%R)
             0%R items.

(** The bound on the rounding error of coordinate [j] of the average of
    [n] weighted vectors: one rounding for each product, [n - 1] for the
    sum and one for the quotient. *)
Definition tolerance (j : nat) (items : list (vec * Z)) : R :=
  (gamma (length items + 1) * abs_weighted_sum_at j items
   / Rabs (IZR (total_weight items)))%R.

(** Two outcomes of the builder that fail in the same way or are
    profiles of one length whose coordinates differ by at most [tol]. *)
Definition close_outcomes (tol : nat -> R) (m m' : outcome vec) : Prop :=
  match m, m' with
  | Value p, Value p' =>
    length p = length p'
    /\ forall j, (j < length p)%nat ->
         (Rabs (R_of_Qc (nth j p 0%Qc) - R_of_Qc (nth j p' 0%Qc)) <= tol j)%R
  | Return r, Return r' => r = r'
  | Raise e, Raise e' => e = e'
  | _, _ => False
  end.

(** A rating object whose score, if it has one, is a star rating. *)
Definition stars (r : RatingObj) : Prop :=
  match r_rating r with
  | Val score => 1 <= score <= 5
  | Absent | Null => True
  end.

(** Weights that binary64 adds without rounding: each between -2 and 2,
    and fewer than [2 ^ 52] of them. *)
Definition small_weights (items : list (vec * Z)) : Prop :=
  Forall (fun p : vec * Z => Z.abs (snd p) <= 2) items
  /\ 2 * Z.of_nat (length items) < 2 ^ 53.

(** The binary64 number [m * 2 ^ e]. *)
Definition dbl (m e : Z) : Qc := Q2Qc (inject_Z m * 2 ^ e).

(** A catalog of three items whose first coordinates are the binary64
    numbers nearest to 0.1, 0.2 and 0.3. *)
Definition tenths_features : list vec :=
  [[dbl 3602879701896397 (-55); Qc_of_Z 1];
   [dbl 3602879701896397 (-54); Qc_of_Z 2];
   [dbl 5404319552844595 (-54); Qc_of_Z 3]].

Definition tenths_frame : DataFrame :=
  mkDataFrame [300; 301; 302] [demo_song "a"; demo_song "b"; demo_song "c"].

(** Sums of real numbers and of their absolute values. *)
Definition rsum (es : list R) : R := fold_right Rplus 0%R es.

Definition rsum_abs (es : list R) : R := fold_right (fun e acc => (Rabs e + acc)%R) 0%R es.

(** Coordinate [j] of the exact weighted sum, as a real number. *)
Definition exact_sum_at (j : nat) (items : list (vec * Z)) : R :=
  rsum (map (fun p : vec * Z => (IZR (snd p) * R_of_Qc (nth j (fst p) 0%Qc))%R) items).

(** A rational that is a binary64 number. *)
Definition representable (x : Qc) : Prop := f64 x = x.

(** * Further parts of the service *)

(** ** Ratings seen from the midpoint *)

(** The rating object with its centered weight multiplied by [c]: the
    score [s] becomes [3 + c * (s - 3)]. *)
Definition rescale_rating (c : Z) (r : RatingObj) : RatingObj :=
  mkRating (r_df_index r)
    (match r_rating r with
     | Val s => Val (3 + c * (s - 3))
     | Absent => Absent
     | Null => Null
     end).

(** A rating object whose ['df_index'] is a label of the frame or is
    missing altogether; the others carry [null] or an unknown label. *)
Definition recognisable (df : DataFrame) (r : RatingObj) : bool :=
  match r_df_index r with
  | Val label => label_in df label
  | Absent => true
  | Null => false
  end.

Definition with_ratings (req : Request) (ratings : list RatingObj) : Request :=
  mkRequest (Some ratings) (req_top_k req).

(** ** [start_rating_session] *)

(** One song of a rating session, with the seven keys of the answer. *)
Record SessionSong : Type := mkSessionSong {
  ss_df_index : Z;
  ss_Track_Name : string;
  ss_Artist_Names : string;
  ss_track_name : string;
  ss_artists : string;
  ss_popularity : Z;
  ss_duration_ms : Z
}.

(** The answers of the session endpoint: the songs with status 200, an
    error with its status and message, or status 500 with the text of
    the exception that was caught. *)
Inductive SessionResponse : Type :=
| SessionOk (songs : list SessionSong)
| SessionError (status : Z) (message : string)
| SessionFailed (e : exn).

(** The body of the loop over [sample_df.iterrows()] for the row at one
    position; a position outside the frame raises.  [DataFrame] carries
    the columns that the recommendation endpoint reads; the
    [duration_ms] column, read only here, comes as a list of its own,
    [None] standing for a cell that is not a number. *)
Definition session_song (df : DataFrame) (duration_ms : list (option Z)) (i : nat)
  : exn + SessionSong :=
  match nth_error (df_labels df) i, nth_error (df_rows df) i with
  | Some idx, Some row =>
    inr (mkSessionSong idx
           (get_default (song_track_name row) "Unknown"%string)
           (get_default (song_artists row) "Unknown"%string)
           (get_default (song_track_name row) "Unknown"%string)
           (get_default (song_artists row) "Unknown"%string)
           (get_default (song_popularity row) 0)
           (get_default (nth i duration_ms None) 0))
  | _, _ => inl IndexError
  end.

Fixpoint session_songs (df : DataFrame) (duration_ms : list (option Z))
  (positions : list nat) (songs : list SessionSong) : exn + list SessionSong :=
  match positions with
  | [] => inr songs
  | i :: rest =>
    match session_song df duration_ms i with
    | inr song => session_songs df duration_ms rest (songs ++ [song])
    | inl e => inl e
    end
  end.

(** [recommender_df.sample(n=sample_size)]: [draw] is the random order
    in which pandas shuffles the positions of the frame, and the sample
    is made of its first [n] positions. *)
Definition sample (n : nat) (draw : list nat) : list nat := firstn n draw.

Definition start_rating_session (g : Globals) (duration_ms : list (option Z))
  (draw : list nat) : SessionResponse :=
  match recommender_df g with
  | None => SessionError 503 "Recommender data not loaded"
  | Some df =>
    let sample_size := Nat.min 10 (length (df_labels df)) in
    match session_songs df duration_ms (sample sample_size draw) [] with
    | inr songs => SessionOk songs
    | inl e => SessionFailed e
    end
  end.

(** A shuffle of the positions of the frame. *)
Definition shuffle_of (df : DataFrame) (draw : list nat) : Prop :=
  Permutation draw (seq 0 (length (df_labels df))).

(** The ratings that the rating page sends for the songs of a session
    (lines 166 to 169 and 200 to 203 of [recommendations_page.py]): one
    object per song, in the order of the songs, with the ['df_index'] of
    the song and the score chosen for it. *)
Definition session_ratings (songs : list SessionSong) (scores : list Z) : list RatingObj :=
  map (fun ss : SessionSong * Z => mkRating (Val (ss_df_index (fst ss))) (Val (snd ss)))
      (combine songs scores).

(** ** The listening history and [genre_distribution_endpoint] *)

(** Text is a [string] whose characters are the code points below 256.
    [str.isspace] on these code points: tab to carriage return, the four
    separators 28 to 31, the space, NEL and the no-break space. *)
Definition isspace (c : ascii) : bool :=
  let n := nat_of_ascii c in
  ((9 <=? n) && (n <=? 13) || (28 <=? n) && (n <=? 32) || (n =? 133) || (n =? 160))%nat.

Fixpoint lstrip (s : string) : string :=
  match s with
  | EmptyString => EmptyString
  | String c s' => if isspace c then lstrip s' else s
  end.

Fixpoint all_space (s : string) : bool :=
  match s with
  | EmptyString => true
  | String c s' => isspace c && all_space s'
  end.

Fixpoint rstrip (s : string) : string :=
  match s with
  | EmptyString => EmptyString
  | String c s' => if all_space s then EmptyString else String c (rstrip s')
  end.

(** [s.strip()] *)
Definition strip (s : string) : string := rstrip (lstrip s).

(** [s.split(sep)] for a separator of one character: one piece more
    than there are separators. *)
Fixpoint split_on (sep : ascii) (s : string) : list string :=
  match s with
  | EmptyString => [EmptyString]
  | String c s' =>
    if Ascii.eqb c sep then EmptyString :: split_on sep s'
    else match split_on sep s' with
         | piece :: rest => String c piece :: rest
         | [] => [String c EmptyString]
         end
  end.

(** The truth value of a string: it is not empty. *)
Definition nonempty (s : string) : bool :=
  match s with EmptyString => false | String _ _ => true end.

(** The part of the uploaded frame [df] that the two endpoints below
    read: the ['Genres'] column, a cell being [None] for NaN and
    otherwise the text that [str] gives for it, and the ['Popularity']
    column, a cell being [None] for NaN and otherwise a number.  A column
    that the frame does not have is [None]. *)
Record History : Type := mkHistory {
  h_genres : option (list (option string));
  h_popularity : option (list (option Qc))
}.

(** The genres of one cell:
    [[g.strip() for g in str(genres_str).split(',') if g.strip()]] under
    the test [pd.notna(genres_str) and str(genres_str).strip() and
    str(genres_str) != '']. *)
Definition cell_genres (cell : option string) : list string :=
  match cell with
  | None => []
  | Some s =>
    if nonempty (strip s) && nonempty s
    then map strip (filter (fun g => nonempty (strip g)) (split_on ","%char s))
    else []
  end.

Definition all_genres_of (column : list (option string)) : list string :=
  flat_map cell_genres column.

(** [Counter]: the counts of the items, keyed in the order in which the
    items are first seen. *)
Fixpoint count_up (key : string) (counts : list (string * nat)) : list (string * nat) :=
  match counts with
  | [] => [(key, 1%nat)]
  | kn :: rest =>
    if String.eqb (fst kn) key then (fst kn, S (snd kn)) :: rest
    else kn :: count_up key rest
  end.

Definition Counter (items : list string) : list (string * nat) :=
  fold_left (fun counts item => count_up item counts) items [].

(** [sorted(items, key=lambda x: x[1], reverse=True)]: by descending
    count, items of one count staying in their order. *)
Fixpoint insert_desc (p : string * nat) (l : list (string * nat)) : list (string * nat) :=
  match l with
  | [] => [p]
  | h :: t => if (snd h <=? snd p)%nat then p :: h :: t else h :: insert_desc p t
  end.

Definition sorted_desc (l : list (string * nat)) : list (string * nat) :=
  fold_right insert_desc [] l.

(** One value of the ['genre_distribution'] and ['distribution']
    dictionaries.  The percentage is a float; [F] stands for the floats
    and the answers take as a parameter the function
    [percentage c n = round(c / n * 100, 2)]. *)
Record Share (F : Type) : Type := mkShare {
  share_count : nat;
  share_percentage : F
}.
Arguments mkShare {F} share_count share_percentage.
Arguments share_count {F} s.
Arguments share_percentage {F} s.

(** The answers of the endpoint: the dictionaries ['genres'] and
    ['genre_distribution'] as the endpoint builds them, each as the list
    of its items in the order of the dictionary, with status 200, or an
    error with its status and message. *)
Inductive GenreResponse (F : Type) : Type :=
| GenreOk (genres : list (string * nat)) (genre_distribution : list (string * Share F))
| GenreError (status : Z) (message : string).
Arguments GenreOk {F} genres genre_distribution.
Arguments GenreError {F} status message.

Definition genre_distribution_endpoint {F : Type} (percentage : nat -> nat -> F)
  (df : option History) : GenreResponse F :=
  match df with
  | None => GenreError 400 "No data"
  | Some h =>
    match h_genres h with
    | None => GenreOk [] []
    | Some column =>
      let all_genres := all_genres_of column in
      if is_nil all_genres then GenreOk [] []
      else
        let genre_counts := Counter all_genres in
        let sorted_genres := firstn 15 (sorted_desc genre_counts) in
        GenreOk sorted_genres
          (map (fun gc : string * nat =>
                  (fst gc, mkShare (snd gc) (percentage (snd gc) (length all_genres))))
               sorted_genres)
    end
  end.

Definition descending (l : list (string * nat)) : Prop :=
  StronglySorted (fun a b : string * nat => (snd b <= snd a)%nat) l.

(** The count that a dictionary of counts holds for a key, 0 without
    the key. *)
Fixpoint count_of (key : string) (counts : list (string * nat)) : nat :=
  match counts with
  | [] => O
  | kn :: rest => if String.eqb (fst kn) key then snd kn else count_of key rest
  end.

Definition has_char (c : ascii) (s : string) : Prop := In c (list_ascii_of_string s).

(** ** [popularity_distribution] *)

Inductive PopularityClass : Type := Low | Medium | High.

Definition Qclt_bool (x y : Qc) : bool := negb (Qcle_bool y x).

(** [classify]; a comparison with NaN is false, so NaN is ['High']. *)
Definition classify (pop : option Qc) : PopularityClass :=
  match pop with
  | None => High
  | Some p =>
    if Qclt_bool p (Qc_of_Z 40) then Low
    else if Qclt_bool p (Qc_of_Z 70) then Medium
    else High
  end.

Definition class_eqb (a b : PopularityClass) : bool :=
  match a, b with
  | Low, Low | Medium, Medium | High, High => true
  | _, _ => false
  end.

Definition class_count (k : PopularityClass) (classes : list PopularityClass) : nat :=
  length (filter (class_eqb k) classes).

(** The answers of the endpoint: the dictionary ['distribution'], read
    as a map from the class to its value, an error with its status and
    message, or status 500 with the text of the exception. *)
Inductive PopularityResponse (F : Type) : Type :=
| PopularityOk (distribution : PopularityClass -> option (Share F))
| PopularityError (status : Z) (message : string)
| PopularityFailed (e : exn).
Arguments PopularityOk {F} distribution.
Arguments PopularityError {F} status message.
Arguments PopularityFailed {F} e.

(** [value_counts] lists the classes that occur, each with the number of
    its rows.  The ['Popularity_Class'] column that the endpoint adds to
    the frame is read by nothing else and is left out. *)
Definition popularity_distribution {F : Type} (percentage : nat -> nat -> F)
  (df : option History) : PopularityResponse F :=
  match df with
  | None => PopularityError 400 "No data"
  | Some h =>
    match h_popularity h with
    | None => PopularityFailed KeyError
    | Some column =>
      let classes := map classify column in
      PopularityOk (fun k =>
        let v := class_count k classes in
        if (v =? 0)%nat then None
        else Some (mkShare v (percentage v (length column))))
    end
  end.

(** The count that a distribution lists for a class, 0 for a class that
    it does not list. *)
Definition listed_count {F : Type} (dist : PopularityClass -> option (Share F))
  (k : PopularityClass) : nat :=
  match dist k with Some s => share_count s | None => O end.

(** The tracks of a popularity column as the thresholds of the endpoint
    divide them: a number that is at least [lo] and below [hi], a missing
    bound being no bound.  NaN is in no range. *)
Definition in_range (lo hi : option Z) (pop : option Qc) : bool :=
  match pop with
  | None => false
  | Some p =>
    match lo with Some l => Qcle_bool (Qc_of_Z l) p | None => true end
    && match hi with Some h => negb (Qcle_bool (Qc_of_Z h) p) | None => true end
  end.

Definition is_nan (pop : option Qc) : bool :=
  match pop with None => true | Some _ => false end.

Definition tracks_where (f : option Qc -> bool) (column : list (option Qc)) : nat :=
  length (filter f column).

(** A history of four tracks. *)
Definition demo_genres : list (option string) :=
  [Some "rock, indie rock"%string; None; Some " pop ,rock,, "%string; Some "   "%string].

Definition demo_history : History :=
  mkHistory (Some demo_genres)
    (Some [Some (Qc_of_Z 39); Some (Qc_of_Z 40); None; Some (Qc_of_Z 70)]).

(** A catalog of 22 items on a line, item [200 + i] at [(i, 0)], large
    enough for a session of ten songs and twenty neighbours. *)
Definition library_features : list vec :=
  map (fun i => point (Z.of_nat i) 0) (seq 0 22).

Definition library_frame : DataFrame :=
  mkDataFrame (map (fun i => 200 + Z.of_nat i) (seq 0 22))
    (map (fun i => mkSong (Some "track"%string) (Some "artist"%string)
                     (Some (2000 + Z.of_nat i)) (Some 50) None) (seq 0 22)).

Definition library_knn : Knn := mkKnn 2 library_features.

Definition library_globals : Globals :=
  fst (load_recommender_models
         (mkArtifacts (Some library_knn) (Some demo_scaler)
            (Some (mkDataDict (Some library_frame) (Some library_features)
                     (Some ["x"; "y"]%string))))
         initial_globals).

(** The request that the rating page sends for the songs of a session
    and the scores chosen for them (lines 200 to 206 of
    [recommendations_page.py]): the ratings of the session and a [top_k]
    of 10. *)
Definition page_request (songs : list SessionSong) (scores : list Z) : Request :=
  mkRequest (Some (session_ratings songs scores)) (Some 10).

(** * Lemmas *)

(** Evaluation of the endpoint on concrete artifacts: everything is
    computed except the real-number operations on distances. *)
Ltac run_endpoint := cbv -[sqrt R_of_Qc Rminus IZR]; reflexivity.

(** ** Lists *)

Section ListFacts.

Context {A B C : Type}.

Lemma existsb_perm (f : A -> bool) (l l' : list A) :
  Permutation l l' -> existsb f l = existsb f l'.
Proof.
  induction 1; simpl; try congruence.
  - destruct (f x), (f y); reflexivity.
Qed.

Lemma flat_map_perm (f : A -> list B) (l l' : list A) :
  Permutation l l' -> Permutation (flat_map f l) (flat_map f l').
Proof.
  induction 1; simpl.
  - constructor.
  - apply Permutation_app_head. assumption.
  - rewrite !app_assoc. apply Permutation_app_tail, Permutation_app_comm.
  - eapply Permutation_trans; eassumption.
Qed.

Lemma is_nil_perm (l l' : list A) :
  Permutation l l' -> is_nil l = is_nil l'.
Proof.
  intro H. destruct l, l'; trivial.
  - apply Permutation_nil in H. discriminate.
  - apply Permutation_sym, Permutation_nil in H. discriminate.
Qed.

Lemma is_nil_map (f : A -> B) (l : list A) : is_nil (map f l) = is_nil l.
Proof. destruct l; reflexivity. Qed.

Lemma firstn_In (n : nat) (l : list A) (x : A) :
  In x (firstn n l) -> In x l.
Proof.
  revert l. induction n as [|n IH]; intros [|a l]; simpl; try tauto.
  intros [H|H]; [left; exact H | right; apply IH, H].
Qed.

Lemma StronglySorted_firstn (R : A -> A -> Prop) (n : nat) (l : list A) :
  StronglySorted R l -> StronglySorted R (firstn n l).
Proof.
  intro H. revert n. induction H as [|a l Hs IH Ha]; intros [|n]; simpl; try constructor.
  - apply IH.
  - rewrite Forall_forall in *. intros x Hx. apply Ha. eapply firstn_In; eauto.
Qed.

Lemma StronglySorted_map (R : A -> A -> Prop) (S : B -> B -> Prop)
  (f : A -> B) (l : list A) :
  (forall a b, R a b -> S (f a) (f b)) ->
  StronglySorted R l -> StronglySorted S (map f l).
Proof.
  intros Hf. induction 1 as [|a l Hs IH Ha]; simpl; constructor; [exact IH|].
  apply Forall_map. revert Ha. apply Forall_impl. intros b. apply Hf.
Qed.

Lemma StronglySorted_split (R : A -> A -> Prop) (n : nat) (l : list A) :
  StronglySorted R l ->
  forall a b, In a (firstn n l) -> In b (skipn n l) -> R a b.
Proof.
  intro H. revert n. induction H as [|x l Hs IH Hx]; intros [|n] a b; simpl; try tauto.
  intros [<-|Ha] Hb.
  - rewrite Forall_forall in Hx. apply Hx.
    rewrite <- (firstn_skipn n l). apply in_or_app. right. exact Hb.
  - eapply IH; eauto.
Qed.

Lemma map_fst_combine (l : list A) (l' : list B) :
  length l = length l' -> map fst (combine l l') = l.
Proof.
  revert l'. induction l as [|a l IH]; intros [|b l']; simpl; try discriminate; trivial.
  intros [= H]. f_equal. apply IH, H.
Qed.

Lemma in_combine_seq (f : A -> B) (l : list A) (a i : nat) (y : B) :
  In (i, y) (combine (seq a (length l)) (map f l)) ->
  exists x, nth_error l (i - a) = Some x /\ y = f x /\ (a <= i < a + length l)%nat.
Proof.
  revert a. induction l as [|x l IH]; intros a; simpl; [tauto|].
  intros [[= <- <-]|H].
  - exists x. rewrite Nat.sub_diag. repeat split; trivial; lia.
  - destruct (IH _ H) as (x' & Hn & Hy & Hb). exists x'.
    replace (i - a)%nat with (S (i - S a)) by lia. repeat split; trivial; lia.
Qed.

Lemma combine_seq_in (f : A -> B) (l : list A) (a j : nat) (x : A) :
  nth_error l j = Some x ->
  In ((a + j)%nat, f x) (combine (seq a (length l)) (map f l)).
Proof.
  revert a j. induction l as [|y l IH]; intros a [|j]; simpl; try discriminate.
  - intros [= ->]. left. rewrite Nat.add_0_r. reflexivity.
  - intro H. right. replace (a + S j)%nat with (S a + j)%nat by lia. apply IH, H.
Qed.

Lemma Forall2_of_map (P : B -> C -> Prop) (f : A -> B) (h : A -> C)
  (l : list A) :
  Forall (fun a => P (f a) (h a)) l -> Forall2 P (map f l) (map h l).
Proof. induction 1; simpl; constructor; assumption. Qed.

Lemma subscript_nth (xs : list A) (i : nat) (d : A) :
  (i < length xs)%nat -> subscript xs i = Value (nth i xs d).
Proof.
  intro H. unfold subscript. rewrite (nth_error_nth' xs d H). reflexivity.
Qed.

Lemma combine_seq_ascending (ys : list B) (a n : nat) :
  StronglySorted (fun p q : nat * B => (fst p < fst q)%nat) (combine (seq a n) ys).
Proof.
  revert a ys. induction n as [|n IH]; intros a [|y ys]; simpl; try constructor.
  - apply IH.
  - apply Forall_forall. intros [i z] Hin. apply in_combine_l in Hin.
    apply in_seq in Hin. simpl. lia.
Qed.

Lemma combine_map_pairs (f : A -> B) (h : A -> C) (l : list A) :
  combine (map f l) (map h l) = map (fun a => (f a, h a)) l.
Proof. induction l; simpl; congruence. Qed.

End ListFacts.

(** ** Vectors *)

Lemma vadd_comm (u v : vec) : vadd u v = vadd v u.
Proof.
  revert v. induction u as [|x u IH]; intros [|y v]; simpl; trivial.
  unfold vadd in *. simpl. f_equal; [ring | apply IH].
Qed.

Lemma vadd_assoc (u v w : vec) : vadd (vadd u v) w = vadd u (vadd v w).
Proof.
  revert v w. induction u as [|x u IH]; intros [|y v] [|z w]; simpl; trivial.
  unfold vadd in *; simpl. f_equal; [ring | apply IH].
Qed.

Lemma fold_vadd_out (l : list vec) (x y : vec) :
  vadd x (fold_left vadd l y) = fold_left vadd l (vadd x y).
Proof.
  revert y. induction l as [|z l IH]; intro y; simpl; trivial.
  rewrite IH, vadd_assoc. reflexivity.
Qed.

Lemma vsum_cons (x y : vec) (l : list vec) :
  vsum (x :: y :: l) = vadd x (vsum (y :: l)).
Proof. simpl. symmetry. apply fold_vadd_out. Qed.

Lemma vsum_perm (l l' : list vec) : Permutation l l' -> vsum l = vsum l'.
Proof.
  induction 1 as [|x l l' HP IH|x y l|l l' l'' _ IH1 _ IH2].
  - reflexivity.
  - destruct l as [|a l].
    + apply Permutation_nil in HP. subst. reflexivity.
    + destruct l' as [|a' l'].
      * apply Permutation_sym, Permutation_nil in HP. discriminate.
      * rewrite !vsum_cons. f_equal. exact IH.
  - simpl. f_equal. apply vadd_comm.
  - congruence.
Qed.

Lemma vadd_length (d : nat) (u v : vec) :
  length u = d -> length v = d -> length (vadd u v) = d.
Proof.
  revert u v. induction d as [|d IH]; intros [|x u] [|y v]; simpl; try discriminate; trivial.
  intros Hu Hv. unfold vadd in *. simpl. f_equal. apply IH; lia.
Qed.

Lemma vadd_nth (j : nat) (u v : vec) :
  length u = length v ->
  nth j (vadd u v) 0%Qc = Qcplus (nth j u 0%Qc) (nth j v 0%Qc).
Proof.
  revert j v. induction u as [|x u IH]; intros j [|y v]; simpl; try discriminate.
  - intros _. destruct j; ring.
  - intros H. destruct j; [reflexivity|]. apply IH. lia.
Qed.

Lemma vscale_length (v : vec) (w : Qc) : length (vscale v w) = length v.
Proof. apply length_map. Qed.

Lemma vscale_nth (j : nat) (v : vec) (w : Qc) :
  nth j (vscale v w) 0%Qc = Qcmult w (nth j v 0%Qc).
Proof.
  revert j. induction v as [|x v IH]; intros [|j]; simpl; try ring.
  apply IH.
Qed.

Lemma vsum_length (d : nat) (rows : list vec) :
  rows <> [] -> Forall (fun v : vec => length v = d) rows -> length (vsum rows) = d.
Proof.
  induction rows as [|x rows IH]; [congruence|].
  intros _ HF. pose proof (Forall_inv HF) as Hx. pose proof (Forall_inv_tail HF) as Hrows.
  simpl in Hx.
  destruct rows as [|y rows]; [exact Hx|].
  rewrite vsum_cons. apply vadd_length; [exact Hx|]. apply IH; [discriminate | exact Hrows].
Qed.

Lemma vsum_nth (d j : nat) (rows : list vec) :
  rows <> [] -> Forall (fun v : vec => length v = d) rows ->
  nth j (vsum rows) 0%Qc = fold_right (fun r acc => Qcplus (nth j r 0%Qc) acc) 0%Qc rows.
Proof.
  induction rows as [|x rows IH]; [congruence|].
  intros _ HF. pose proof (Forall_inv HF) as Hx. pose proof (Forall_inv_tail HF) as Hrows.
  simpl in Hx.
  destruct rows as [|y rows].
  - simpl. ring.
  - rewrite vsum_cons, vadd_nth.
    + rewrite IH by (trivial; discriminate). reflexivity.
    + rewrite Hx. symmetry. apply vsum_length; [discriminate | exact Hrows].
Qed.

Lemma list_as_seq (l : vec) (d : nat) :
  length l = d -> l = map (fun j => nth j l 0%Qc) (seq 0 d).
Proof.
  revert d. induction l as [|x l IH]; intros [|d] H; simpl in *; try discriminate; trivial.
  f_equal. rewrite <- seq_shift, map_map. apply IH. lia.
Qed.

Lemma zsum_from (ws : list Z) (a : Z) :
  fold_left Z.add ws a = a + fold_right Z.add 0 ws.
Proof.
  revert a. induction ws as [|w ws IH]; intro a; simpl; [lia|].
  rewrite IH. lia.
Qed.

Lemma zsum_total (items : list (vec * Z)) : zsum (map snd items) = total_weight items.
Proof. unfold zsum, total_weight. rewrite zsum_from. lia. Qed.

Lemma total_weight_perm (l l' : list (vec * Z)) :
  Permutation l l' -> total_weight l = total_weight l'.
Proof.
  unfold total_weight. induction 1; simpl; lia.
Qed.

Lemma weigh_rows_pairs (items : list (vec * Z)) :
  weigh_rows (map fst items) (map snd items)
  = map (fun p : vec * Z => vscale (fst p) (Qc_of_Z (snd p))) items.
Proof.
  unfold weigh_rows. induction items as [|p items IH]; simpl; [reflexivity|].
  f_equal. exact IH.
Qed.

Lemma weighted_rows_nth (j : nat) (items : list (vec * Z)) :
  fold_right (fun r acc => Qcplus (nth j r 0%Qc) acc) 0%Qc
    (map (fun p : vec * Z => vscale (fst p) (Qc_of_Z (snd p))) items)
  = weighted_sum_at j items.
Proof.
  unfold weighted_sum_at. induction items as [|p items IH]; simpl; [reflexivity|].
  rewrite IH, vscale_nth. reflexivity.
Qed.

(** [np.average] of the kept rows is the weighted mean of the
    specification, and raises exactly where that mean has no value. *)
Lemma np_average_weighted_mean (d : nat) (items : list (vec * Z)) :
  items <> [] ->
  Forall (fun p : vec * Z => length (fst p) = d) items ->
  np_average (map fst items) (map snd items)
  = match weighted_mean d items with
    | Some m => Value m
    | None => Raise ZeroDivisionError
    end.
Proof.
  intros Hne Hw. unfold np_average, weighted_mean.
  rewrite !length_map, Nat.eqb_refl, zsum_total. simpl negb. cbv iota.
  destruct (total_weight items =? 0); [reflexivity|].
  rewrite weigh_rows_pairs.
  set (rows := map _ items).
  assert (Hrows : rows <> []) by (subst rows; destruct items; [congruence | discriminate]).
  assert (HF : Forall (fun v : vec => length v = d) rows).
  { subst rows. apply Forall_map. revert Hw. apply Forall_impl.
    intros p Hp. rewrite vscale_length. exact Hp. }
  rewrite (list_as_seq (vsum rows) d) by (apply vsum_length; assumption).
  rewrite map_map. apply f_equal. apply map_ext. intro j.
  rewrite (vsum_nth d) by assumption.
  subst rows. rewrite weighted_rows_nth. reflexivity.
Qed.

Lemma np_average_perm (items items' : list (vec * Z)) :
  Permutation items items' ->
  np_average (map fst items) (map snd items)
  = np_average (map fst items') (map snd items').
Proof.
  intro HP. unfold np_average.
  rewrite !length_map, !Nat.eqb_refl, !zsum_total, !weigh_rows_pairs.
  rewrite (total_weight_perm _ _ HP).
  rewrite (vsum_perm _ _ (Permutation_map _ HP)). reflexivity.
Qed.

Lemma np_average_no_return (a : list vec) (ws : list Z) (resp : Response) :
  np_average a ws <> Return resp.
Proof.
  unfold np_average. destruct (negb _); [discriminate|].
  destruct (_ =? _); discriminate.
Qed.

Lemma weighted_mean_length (d : nat) (items : list (vec * Z)) (m : vec) :
  weighted_mean d items = Some m -> length m = d.
Proof.
  unfold weighted_mean. destruct (_ =? _); [discriminate|].
  intros [= <-]. rewrite length_map, length_seq. reflexivity.
Qed.

(** ** The rating loop *)

Lemma position_bound (labels : list Z) (label : Z) (loc : nat) :
  position labels label = Some loc ->
  nth_error labels loc = Some label.
Proof.
  revert loc. induction labels as [|l ls IH]; intros loc; simpl; [discriminate|].
  destruct (Z.eqb_spec l label) as [->|Hne].
  - intros [= <-]. reflexivity.
  - destruct (position ls label) as [n|]; simpl; [|discriminate].
    intros [= <-]. simpl. apply IH. reflexivity.
Qed.

Section RatingLoop.

Variables (df : DataFrame) (sf : list vec).

Lemma label_in_position (label : Z) :
  label_in df label = true ->
  exists loc, position (df_labels df) label = Some loc.
Proof.
  unfold label_in. induction (df_labels df) as [|l ls IH]; simpl; [discriminate|].
  rewrite Z.eqb_sym. destruct (l =? label); [eauto|].
  simpl. intro H. destruct (IH H) as [loc ->]. simpl. eauto.
Qed.

Lemma position_label_in (label : Z) (loc : nat) :
  position (df_labels df) label = Some loc -> label_in df label = true.
Proof.
  intro H. apply position_bound in H. unfold label_in.
  apply existsb_exists. exists label. split; [eapply nth_error_In; eauto | apply Z.eqb_refl].
Qed.

Lemma rate_entry_raise (r : RatingObj) (e : exn) :
  rate_entry df sf r = Raise e -> e = IndexError.
Proof.
  unfold rate_entry.
  destruct (get (r_df_index r)) as [l|]; [|discriminate].
  destruct (get (r_rating r)) as [s|]; [|discriminate].
  destruct (label_in df l) eqn:Hin; [|discriminate].
  destruct (label_in_position _ Hin) as [loc Hloc].
  unfold get_loc, subscript. rewrite Hloc. simpl.
  destruct (nth_error sf loc); simpl; [discriminate|]. intros [= <-]. reflexivity.
Qed.

Lemma rate_entry_no_return (r : RatingObj) (resp : Response) :
  rate_entry df sf r <> Return resp.
Proof.
  unfold rate_entry.
  destruct (get (r_df_index r)) as [l|]; [|discriminate].
  destruct (get (r_rating r)) as [s|]; [|discriminate].
  destruct (label_in df l) eqn:Hin; [|discriminate].
  unfold get_loc, subscript.
  destruct (position (df_labels df) l); simpl; [|discriminate].
  destruct (nth_error sf n); simpl; discriminate.
Qed.

Lemma rate_entry_not_kept (r : RatingObj) :
  kept df r = false -> rate_entry df sf r = Value None.
Proof.
  unfold kept, rate_entry.
  destruct (get (r_df_index r)); [|reflexivity].
  destruct (get (r_rating r)); [|reflexivity].
  intros ->. reflexivity.
Qed.

Lemma rate_entry_kept (r : RatingObj) :
  kept df r = true ->
  rate_entry df sf r = Raise IndexError \/ exists p, rate_entry df sf r = Value (Some p).
Proof.
  intro Hk. destruct (rate_entry df sf r) as [[p|]| |e] eqn:He.
  - right. eauto.
  - exfalso. revert He Hk. unfold kept, rate_entry.
    destruct (get (r_df_index r)) as [l|]; [|discriminate].
    destruct (get (r_rating r)); [|discriminate].
    intros He Hk. rewrite Hk in He. revert He. unfold get_loc, subscript.
    destruct (position (df_labels df) l); cbn [bind]; [|discriminate].
    destruct (nth_error sf n); discriminate.
  - exfalso. eapply rate_entry_no_return; eauto.
  - left. apply rate_entry_raise in He. congruence.
Qed.

Lemma valid_known_kept (r : RatingObj) :
  valid_known df r <-> kept df r = true.
Proof.
  unfold valid_known, kept. split.
  - intros (l & s & -> & -> & H). exact H.
  - destruct (r_df_index r) as [| |l]; try discriminate.
    destruct (r_rating r) as [| |s]; try discriminate.
    simpl. intro H. exists l, s. auto.
Qed.

Lemma collect_rated_step (r : RatingObj)
  (rest : list RatingObj) (fs : list vec) (ws : list Z) :
  collect_rated df sf (r :: rest) fs ws
  = (e <- rate_entry df sf r ;;
     match e with
     | Some p => collect_rated df sf rest (fs ++ [fst p]) (ws ++ [snd p])
     | None => collect_rated df sf rest fs ws
     end).
Proof.
  simpl. unfold rate_entry.
  destruct (get (r_df_index r)) as [l|]; [|reflexivity].
  destruct (get (r_rating r)) as [s|]; [|reflexivity].
  destruct (label_in df l); [|reflexivity].
  destruct (get_loc df l) as [loc| |]; simpl; trivial.
  destruct (subscript sf loc); reflexivity.
Qed.

(** The loop raises when some kept rating has no feature row, and
    otherwise appends the kept rows and weights in the order of the
    batch. *)
Lemma collect_rated_spec (ratings : list RatingObj)
  (fs : list vec) (ws : list Z) :
  collect_rated df sf ratings fs ws
  = if existsb (entry_raises df sf) ratings then Raise IndexError
    else Value (fs ++ map fst (flat_map (entry_pairs df sf) ratings),
                ws ++ map snd (flat_map (entry_pairs df sf) ratings)).
Proof.
  revert fs ws. induction ratings as [|r rest IH]; intros fs ws.
  - simpl. rewrite !app_nil_r. reflexivity.
  - rewrite collect_rated_step. cbn [existsb flat_map].
    unfold entry_raises at 1, entry_pairs at 1 3.
    destruct (rate_entry df sf r) as [[p|]| |e] eqn:He; cbn [bind orb app].
    + rewrite IH. destruct (existsb _ rest); [reflexivity|].
      cbn [map]. rewrite <- !app_assoc. reflexivity.
    + apply IH.
    + exfalso. eapply rate_entry_no_return; eauto.
    + apply rate_entry_raise in He. subst. reflexivity.
Qed.

Lemma collect_rated_filter (f : RatingObj -> bool)
  (ratings : list RatingObj) (fs : list vec) (ws : list Z) :
  (forall r, f r = false -> rate_entry df sf r = Value None) ->
  collect_rated df sf (filter f ratings) fs ws = collect_rated df sf ratings fs ws.
Proof.
  intro Hf. revert fs ws. induction ratings as [|r rest IH]; intros fs ws; [reflexivity|].
  cbn [filter]. destruct (f r) eqn:Hr.
  - rewrite !collect_rated_step. destruct (rate_entry df sf r) as [[p|]| |]; cbn [bind]; trivial.
  - rewrite (collect_rated_step r), (Hf _ Hr). cbn [bind]. apply IH.
Qed.

Lemma kept_filter_nil (ratings : list RatingObj) :
  filter (kept df) ratings = [] <->
  existsb (entry_raises df sf) ratings = false /\ flat_map (entry_pairs df sf) ratings = [].
Proof.
  induction ratings as [|r rest IH]; [simpl; tauto|].
  cbn [filter existsb flat_map]. unfold entry_raises at 1, entry_pairs at 1.
  destruct (kept df r) eqn:Hk.
  - split; [discriminate|]. intros [H1 H2].
    destruct (rate_entry_kept r Hk) as [He|[p He]]; rewrite He in *; discriminate.
  - rewrite (rate_entry_not_kept _ Hk). simpl. exact IH.
Qed.

(** The profile builder in closed form. *)
Lemma profile_builder_spec (ratings : list RatingObj) :
  profile_builder df sf ratings
  = if is_nil ratings then Return (Error 400 "No ratings provided")
    else if existsb (entry_raises df sf) ratings then Raise IndexError
    else
      let items := flat_map (entry_pairs df sf) ratings in
      if is_nil items
      then Return (Error 400 "Could not find any of the rated songs in the dataset")
      else np_average (map fst items) (map snd items).
Proof.
  unfold profile_builder. destruct (is_nil ratings); [reflexivity|].
  rewrite collect_rated_spec. destruct (existsb _ ratings); [reflexivity|].
  cbn [bind app]. rewrite is_nil_map. reflexivity.
Qed.

Lemma profile_builder_return (ratings : list RatingObj)
  (resp : Response) :
  profile_builder df sf ratings = Return resp ->
  exists message, resp = Error 400 message.
Proof.
  rewrite profile_builder_spec.
  destruct (is_nil ratings); [intros [= <-]; eauto|].
  destruct (existsb _ _); [discriminate|].
  cbv zeta. destruct (is_nil _); [intros [= <-]; eauto|].
  intro H. exfalso. eapply np_average_no_return; eauto.
Qed.

Lemma builder_outcome_of_valid (ratings : list RatingObj) :
  (exists r, In r ratings /\ valid_known df r) ->
  forall resp, profile_builder df sf ratings <> Return resp.
Proof.
  intros (r & Hin & Hv) resp. rewrite profile_builder_spec.
  destruct ratings as [|r0 rest]; [destruct Hin|]. cbn [is_nil].
  destruct (existsb _ _) eqn:Hex; [discriminate|]. cbv zeta.
  destruct (flat_map _ _) as [|p items] eqn:Hfm.
  - assert (Hnil : filter (kept df) (r0 :: rest) = []) by (apply kept_filter_nil; auto).
    apply valid_known_kept in Hv.
    assert (Hr : In r (filter (kept df) (r0 :: rest))) by (apply filter_In; auto).
    rewrite Hnil in Hr. destruct Hr.
  - cbn [is_nil]. apply np_average_no_return.
Qed.

(** With one feature row per label the loop never raises and keeps
    exactly the surviving ratings. *)
Lemma entry_pairs_surviving (ratings : list RatingObj) :
  length sf = length (df_labels df) ->
  existsb (entry_raises df sf) ratings = false
  /\ flat_map (entry_pairs df sf) ratings = surviving df sf ratings.
Proof.
  intro Hlen. unfold surviving.
  induction ratings as [|r rest [IH1 IH2]]; [split; reflexivity|].
  cbn [existsb flat_map]. rewrite IH1, IH2.
  unfold entry_raises, entry_pairs, rate_entry, vectorOf, get.
  destruct (r_df_index r) as [| |l]; [split; reflexivity ..|].
  destruct (r_rating r) as [| |s]; [split; reflexivity ..|].
  destruct (label_in df l) eqn:Hin.
  - destruct (label_in_position _ Hin) as [loc Hloc].
    unfold get_loc, subscript. rewrite Hloc. cbn [bind].
    pose proof (position_bound _ _ _ Hloc) as Hnth.
    assert (Hlt : (loc < length sf)%nat).
    { rewrite Hlen. apply nth_error_Some. congruence. }
    apply nth_error_Some in Hlt.
    destruct (nth_error sf loc); [|congruence]. split; reflexivity.
  - destruct (position (df_labels df) l) eqn:Hpos.
    + apply position_label_in in Hpos. congruence.
    + split; reflexivity.
Qed.

Lemma surviving_width (d : nat) (ratings : list RatingObj) :
  Forall (fun v : vec => length v = d) sf ->
  Forall (fun p : vec * Z => length (fst p) = d) (surviving df sf ratings).
Proof.
  intro Hw. unfold surviving. apply Forall_flat_map, Forall_forall. intros r _.
  destruct (r_df_index r) as [| |l]; try constructor.
  destruct (r_rating r) as [| |s]; try constructor.
  unfold vectorOf. destruct (position (df_labels df) l) as [loc|]; [|constructor].
  destruct (nth_error sf loc) as [v|] eqn:Hv; constructor; [|constructor].
  simpl. rewrite Forall_forall in Hw. apply Hw. eapply nth_error_In; eauto.
Qed.

Lemma surviving_of_kept (ratings : list RatingObj) :
  length sf = length (df_labels df) ->
  (exists r, In r ratings /\ valid_known df r) ->
  surviving df sf ratings <> [].
Proof.
  intros Hlen (r & Hin & Hv) Hnil.
  destruct (entry_pairs_surviving ratings Hlen) as [H1 H2].
  rewrite Hnil in H2.
  assert (Hk : filter (kept df) ratings = []) by (apply kept_filter_nil; auto).
  apply valid_known_kept in Hv.
  assert (Hr : In r (filter (kept df) ratings)) by (apply filter_In; auto).
  rewrite Hk in Hr. destruct Hr.
Qed.

Lemma total_weight_midpoint (ratings : list RatingObj) :
  Forall (fun r => r_rating r = Val 3) ratings ->
  total_weight (surviving df sf ratings) = 0.
Proof.
  unfold total_weight, surviving. induction 1 as [|r rest Hr _ IH]; [reflexivity|].
  cbn [flat_map]. rewrite map_app, fold_right_app, IH, Hr.
  destruct (r_df_index r) as [| |l]; trivial.
  destruct (vectorOf df sf l); reflexivity.
Qed.

End RatingLoop.

(** ** Ranking by squared distance *)

Lemma Qcle_bool_true (x y : Qc) : Qcle_bool x y = true -> Qcle x y.
Proof. unfold Qcle_bool, Qcle. apply Qle_bool_iff. Qed.

Lemma Qcle_bool_false (x y : Qc) : Qcle_bool x y = false -> Qcle y x.
Proof.
  unfold Qcle_bool, Qcle. intro H.
  destruct (Qlt_le_dec (this y) (this x)) as [Hlt|Hle].
  - apply Qlt_le_weak. exact Hlt.
  - apply Qle_bool_iff in Hle. congruence.
Qed.

Lemma insert_by_perm (p : nat * Qc) (l : list (nat * Qc)) :
  Permutation (insert_by p l) (p :: l).
Proof.
  induction l as [|h t IH]; simpl; [reflexivity|].
  destruct (Qcle_bool (snd p) (snd h)); [reflexivity|].
  rewrite IH. apply perm_swap.
Qed.

Lemma rank_perm (l : list (nat * Qc)) : Permutation (rank l) l.
Proof.
  induction l as [|p l IH]; simpl; [reflexivity|].
  rewrite insert_by_perm. constructor. exact IH.
Qed.

Lemma rank_length (l : list (nat * Qc)) : length (rank l) = length l.
Proof. apply Permutation_length, rank_perm. Qed.

Lemma insert_by_sorted (p : nat * Qc) (l : list (nat * Qc)) :
  StronglySorted closer l -> StronglySorted closer (insert_by p l).
Proof.
  induction 1 as [|h t Hs IH Hh]; simpl.
  - repeat constructor.
  - destruct (Qcle_bool (snd p) (snd h)) eqn:Hc.
    + apply Qcle_bool_true in Hc. constructor; [constructor; assumption|].
      constructor; [exact Hc|].
      revert Hh. apply Forall_impl. intros a Ha. unfold closer in *.
      eapply Qcle_trans; eassumption.
    + apply Qcle_bool_false in Hc. constructor; [exact IH|].
      eapply Permutation_Forall; [symmetry; apply insert_by_perm|].
      constructor; assumption.
Qed.

Lemma rank_sorted (l : list (nat * Qc)) : StronglySorted closer (rank l).
Proof.
  induction l as [|p l IH]; simpl; [constructor | apply insert_by_sorted, IH].
Qed.

Lemma sqrt_of_closer (a b : nat * Qc) :
  closer a b -> (sqrt (R_of_Qc (snd a)) <= sqrt (R_of_Qc (snd b)))%R.
Proof.
  unfold closer, Qcle, R_of_Qc. intro H. apply sqrt_le_1_alt, Qle_Rle, H.
Qed.

Lemma kneighbors_value (knn : Knn) (X : vec) (k : Z) :
  1 <= k -> length X = n_features_in knn ->
  kneighbors knn X k
  = Value (map (fun p : nat * Qc => sqrt (R_of_Qc (snd p))) (nearest knn X k),
           map fst (nearest knn X k)).
Proof.
  intros Hk HX. unfold kneighbors.
  destruct (Z.ltb_spec k 1); [lia|].
  rewrite HX, Nat.eqb_refl. reflexivity.
Qed.

Lemma kneighbors_inv (knn : Knn) (X : vec) (k : Z) (dists : list R) (idxs : list nat) :
  kneighbors knn X k = Value (dists, idxs) ->
  dists = map (fun p : nat * Qc => sqrt (R_of_Qc (snd p))) (nearest knn X k)
  /\ idxs = map fst (nearest knn X k).
Proof.
  unfold kneighbors. destruct (k <? 1); [discriminate|].
  destruct (negb _); [discriminate|]. intros [= <- <-]. split; reflexivity.
Qed.

Lemma kneighbors_no_return (knn : Knn) (X : vec) (k : Z) (resp : Response) :
  kneighbors knn X k <> Return resp.
Proof.
  unfold kneighbors. destruct (k <? 1); [discriminate|].
  destruct (negb _); discriminate.
Qed.

Lemma nearest_length (knn : Knn) (X : vec) (k : Z) :
  length (nearest knn X k) = Nat.min (Z.to_nat k) (length (fit_X knn)).
Proof.
  unfold nearest.
  rewrite length_firstn, rank_length, length_combine, length_seq, length_map.
  lia.
Qed.

Lemma nearest_sorted (knn : Knn) (X : vec) (k : Z) :
  StronglySorted closer (nearest knn X k).
Proof. apply StronglySorted_firstn, rank_sorted. Qed.

Lemma nearest_in (knn : Knn) (X : vec) (k : Z) (p : nat * Qc) :
  In p (nearest knn X k) ->
  exists x, nth_error (fit_X knn) (fst p) = Some x /\ snd p = sqdist X x
            /\ (fst p < length (fit_X knn))%nat.
Proof.
  intro H. apply firstn_In in H.
  apply (Permutation_in _ (rank_perm _)) in H.
  destruct p as [i y]. apply in_combine_seq in H as (x & Hn & Hy & Hb).
  rewrite Nat.sub_0_r in Hn. exists x. simpl. repeat split; trivial; lia.
Qed.

Lemma nearest_distances_sorted (knn : Knn) (X : vec) (k : Z) :
  non_decreasing (map (fun p : nat * Qc => sqrt (R_of_Qc (snd p))) (nearest knn X k)).
Proof.
  apply (StronglySorted_map closer); [|apply nearest_sorted].
  intros a b. apply sqrt_of_closer.
Qed.

Lemma nearest_nodup (knn : Knn) (X : vec) (k : Z) :
  NoDup (map fst (nearest knn X k)).
Proof.
  unfold nearest.
  set (l := rank _).
  assert (Hl : NoDup (map fst l)).
  { subst l. eapply Permutation_NoDup.
    - apply Permutation_map, Permutation_sym, rank_perm.
    - rewrite map_fst_combine by (rewrite length_seq, length_map; reflexivity).
      apply seq_NoDup. }
  revert Hl. generalize (Z.to_nat k). clear. induction l as [|a l IH]; intros [|n] H; simpl; try constructor.
  - inversion H as [|? ? Hn Hd]; subst. intro Hin. apply Hn.
    apply in_map_iff in Hin as (p & Hp & Hin). apply in_map_iff. exists p. split; trivial.
    eapply firstn_In; eauto.
  - inversion H; subst. apply IH. assumption.
Qed.

(** An entry that the index leaves out is at least as far from the query
    as every entry it returns. *)
Lemma nearest_closest (knn : Knn) (X : vec) (k : Z) (j : nat) (x : vec) :
  nth_error (fit_X knn) j = Some x ->
  ~ In j (map fst (nearest knn X k)) ->
  Forall (fun d => (d <= euclidean X x)%R)
         (map (fun p : nat * Qc => sqrt (R_of_Qc (snd p))) (nearest knn X k)).
Proof.
  intros Hj Hout. apply Forall_map, Forall_forall. intros q Hq.
  unfold nearest in *. cbv zeta in *.
  set (ranked := rank _) in *.
  assert (Hin : In (j, sqdist X x) ranked).
  { subst ranked. apply (Permutation_in _ (Permutation_sym (rank_perm _))).
    apply (combine_seq_in (sqdist X) (fit_X knn) 0 j x Hj). }
  rewrite <- (firstn_skipn (Z.to_nat k) ranked) in Hin.
  apply in_app_or in Hin as [Hin|Hin].
  - exfalso. apply Hout. apply in_map_iff. exists (j, sqdist X x). split; trivial.
  - apply (sqrt_of_closer q (j, sqdist X x)).
    apply (StronglySorted_split closer (Z.to_nat k) ranked); trivial.
    subst ranked. apply rank_sorted.
Qed.

Lemma Qcle_lt_or_eq (x y : Qc) : Qcle x y -> Qclt x y \/ x = y.
Proof.
  intro H. destruct (Qc_eq_dec x y) as [->|Hne]; [right; reflexivity|].
  left. apply Qcle_lt_or_eq in H. destruct H; [assumption | contradiction].
Qed.

Lemma insert_by_stable (p : nat * Qc) (l : list (nat * Qc)) :
  Forall (fun q => (fst p < fst q)%nat) l ->
  StronglySorted closer_or_earlier l ->
  StronglySorted closer_or_earlier (insert_by p l).
Proof.
  intros Hp Hs. induction Hs as [|h t Hs IH Hh]; simpl.
  - repeat constructor.
  - pose proof (Forall_inv Hp) as Hph. pose proof (Forall_inv_tail Hp) as Hpt.
    destruct (Qcle_bool (snd p) (snd h)) eqn:Hc.
    + apply Qcle_bool_true in Hc. constructor; [constructor; assumption|].
      assert (Hfirst : closer_or_earlier p h).
      { destruct (Qcle_lt_or_eq _ _ Hc) as [Hlt|Heq]; [left; exact Hlt | right; auto]. }
      constructor; [exact Hfirst|].
      rewrite Forall_forall in *. intros q Hq.
      specialize (Hh q Hq). specialize (Hpt q Hq).
      destruct Hh as [Hlt|[Heq _]].
      * left. eapply Qcle_lt_trans; eauto.
      * destruct Hfirst as [H|[H _]].
        -- left. rewrite <- Heq. exact H.
        -- right. split; [congruence | exact Hpt].
    + assert (Hlt : Qclt (snd h) (snd p)).
      { apply Qcnot_le_lt. intro Hle. unfold Qcle_bool in Hc.
        apply Qle_bool_iff in Hle. congruence. }
      constructor; [apply IH, Hpt|].
      eapply Permutation_Forall; [symmetry; apply insert_by_perm|].
      constructor; [left; exact Hlt | exact Hh].
Qed.

Lemma rank_stable (l : list (nat * Qc)) :
  StronglySorted (fun a b => (fst a < fst b)%nat) l ->
  StronglySorted closer_or_earlier (rank l).
Proof.
  induction 1 as [|p l Hs IH Hp]; simpl; [constructor|].
  apply insert_by_stable; [|exact IH].
  eapply Permutation_Forall; [symmetry; apply rank_perm | exact Hp].
Qed.

Lemma nearest_stable (knn : Knn) (X : vec) (k : Z) :
  StronglySorted closer_or_earlier (nearest knn X k).
Proof.
  apply StronglySorted_firstn, rank_stable, combine_seq_ascending.
Qed.

Lemma square_nonneg (x : Qc) : Qcle 0 (x * x).
Proof.
  unfold Qcle. cbn [this Qcmult Q2Qc]. rewrite !Qred_correct.
  generalize (this x). intro q. Lqa.nra.
Qed.

Lemma sqdist_nonneg (q x : vec) : Qcle 0 (sqdist q x).
Proof.
  unfold sqdist. revert x. induction q as [|a q IH]; intros [|b x]; simpl;
    try apply Qcle_refl.
  replace 0%Qc with (0 + 0)%Qc by ring.
  apply Qcplus_le_compat; [apply square_nonneg | apply IH].
Qed.

Lemma sqrt_of_strictly_closer (x y : Qc) :
  Qcle 0 x -> Qclt x y -> (sqrt (R_of_Qc x) < sqrt (R_of_Qc y))%R.
Proof.
  unfold Qcle, Qclt, R_of_Qc. intros H0 Hlt.
  apply sqrt_lt_1_alt. split.
  - replace 0%R with (Q2R 0) by (unfold Q2R; simpl; apply Rmult_0_l). apply Qle_Rle, H0.
  - apply Qlt_Rlt, Hlt.
Qed.

Lemma nearest_ranked (knn : Knn) (X : vec) (k : Z) :
  StronglySorted ranked_before
    (combine (map fst (nearest knn X k))
             (map (fun p : nat * Qc => sqrt (R_of_Qc (snd p))) (nearest knn X k))).
Proof.
  rewrite combine_map_pairs.
  assert (Hnn : Forall (fun p => Qcle 0 (snd p)) (nearest knn X k)).
  { apply Forall_forall. intros p Hp. apply nearest_in in Hp as (x & _ & -> & _).
    apply sqdist_nonneg. }
  pose proof (nearest_stable knn X k) as Hs. revert Hnn.
  induction Hs as [|p l Hs IH Hp]; intro Hnn; simpl; constructor.
  - apply IH. apply (Forall_inv_tail Hnn).
  - apply Forall_map. pose proof (Forall_inv Hnn) as H0.
    revert Hp. apply Forall_impl. intros q [Hlt|[Heq Hidx]]; unfold ranked_before; simpl.
    + left. apply sqrt_of_strictly_closer; assumption.
    + right. rewrite Heq. auto.
Qed.

(** ** The set of rated labels *)

Lemma rated_set_spec (ratings : list RatingObj) :
  rated_set ratings
  = if forallb has_df_index ratings
    then Value (map (fun r => get (r_df_index r)) ratings)
    else Raise KeyError.
Proof.
  induction ratings as [|r rest IH]; [reflexivity|].
  cbn [rated_set forallb map]. unfold has_df_index at 1.
  destruct (r_df_index r); cbn [getitem bind andb get]; trivial;
    rewrite IH; destruct (forallb has_df_index rest); reflexivity.
Qed.

Lemma rated_set_no_return (ratings : list RatingObj) (resp : Response) :
  rated_set ratings <> Return resp.
Proof.
  rewrite rated_set_spec. destruct (forallb _ _); discriminate.
Qed.

Lemma rated_set_absent (ratings : list RatingObj) :
  (exists r, In r ratings /\ r_df_index r = Absent) ->
  rated_set ratings = Raise KeyError.
Proof.
  intros (r & Hin & Ha). rewrite rated_set_spec.
  destruct (forallb has_df_index ratings) eqn:Hf; [|reflexivity].
  rewrite forallb_forall in Hf. specialize (Hf r Hin).
  unfold has_df_index in Hf. rewrite Ha in Hf. discriminate.
Qed.

Lemma is_rated_false (ratings : list RatingObj) (rated : list (option Z)) (label : Z) :
  rated_set ratings = Value rated ->
  is_rated rated label = false ->
  forall r, In r ratings -> r_df_index r <> Val label.
Proof.
  rewrite rated_set_spec. destruct (forallb has_df_index ratings); [|discriminate].
  intros [= <-] Hr r Hin Hval.
  assert (Ht : is_rated (map (fun r => get (r_df_index r)) ratings) label = true).
  { unfold is_rated. apply existsb_exists. exists (Some label). split.
    - apply in_map_iff. exists r. rewrite Hval. split; trivial.
    - simpl. apply Z.eqb_refl. }
  congruence.
Qed.

(** ** The recommendation loop *)

Lemma non_increasing_snoc (xs : list R) (x : R) :
  non_increasing xs -> Forall (fun a => (x <= a)%R) xs -> non_increasing (xs ++ [x]).
Proof.
  unfold non_increasing. induction 1 as [|a l Hs IH Ha]; intro Hx; simpl.
  - repeat constructor.
  - pose proof (Forall_inv Hx) as Hxa. pose proof (Forall_inv_tail Hx) as Hxl.
    constructor; [apply IH, Hxl|].
    apply Forall_app. split; [exact Ha|]. constructor; [exact Hxa | constructor].
Qed.

Section RecommendLoop.

Variables (df : DataFrame) (rated : list (option Z)) (top_k : Z).

(** With candidate positions inside the frame and a distance for each
    of them, the loop returns the first [top_k] unrated candidates. *)
Lemma recommend_loop_spec
  (indices : list nat) (dists : list R) (acc : list Recommendation) :
  Forall (fun i => (i < length (df_labels df))%nat /\ (i < length (df_rows df))%nat) indices ->
  (length indices <= length dists)%nat ->
  recommend_loop df rated top_k indices dists acc
  = Value (acc ++ map (record_of df)
                   (firstn (Z.to_nat top_k - length acc)
                           (unrated_candidates df rated indices dists))).
Proof.
  revert dists acc. induction indices as [|i indices IH]; intros dists acc HF Hlen.
  - simpl. unfold unrated_candidates. simpl. rewrite firstn_nil, app_nil_r. reflexivity.
  - cbn [recommend_loop].
    destruct (Z.geb_spec (Z.of_nat (length acc)) top_k) as [Hge|Hlt].
    + replace (Z.to_nat top_k - length acc)%nat with O by lia.
      simpl. rewrite app_nil_r. reflexivity.
    + destruct dists as [|d dists]; [simpl in Hlen; lia|].
      pose proof (Forall_inv HF) as [Hi1 Hi2]. pose proof (Forall_inv_tail HF) as HF'.
      simpl in Hlen.
      rewrite (subscript_nth _ _ 0 Hi1). cbn [bind].
      unfold unrated_candidates. cbn [combine filter fst].
      destruct (is_rated rated (nth i (df_labels df) 0)); cbn [negb].
      * rewrite IH by (trivial; lia). reflexivity.
      * rewrite (subscript_nth _ _ empty_song Hi2). cbn [bind].
        rewrite IH by (trivial; lia). rewrite length_app. cbn [length].
        replace (Z.to_nat top_k - length acc)%nat
          with (S (Z.to_nat top_k - (length acc + 1)))%nat by lia.
        cbn [firstn map]. rewrite <- app_assoc. reflexivity.
Qed.

(** Whatever the shape of the artifacts, each returned record was made
    from a catalog position whose label is not rated and from a distance
    of the index. *)
Lemma recommend_loop_inv (P : Recommendation -> Prop) (indices : list nat) (dists : list R)
  (acc recs : list Recommendation) :
  (forall i label song d,
      nth_error (df_labels df) i = Some label ->
      nth_error (df_rows df) i = Some song ->
      is_rated rated label = false ->
      In i indices -> In d dists ->
      P (format_recommendation song d)) ->
  Forall P acc ->
  recommend_loop df rated top_k indices dists acc = Value recs ->
  Forall P recs.
Proof.
  revert dists acc. induction indices as [|i indices IH]; intros dists acc HP Hacc.
  - simpl. intros [= <-]. exact Hacc.
  - cbn [recommend_loop].
    destruct (Z.of_nat (length acc) >=? top_k); [intros [= <-]; exact Hacc|].
    destruct dists as [|d dists]; [discriminate|].
    unfold subscript.
    destruct (nth_error (df_labels df) i) as [label|] eqn:Hl; [|discriminate].
    cbn [bind]. destruct (is_rated rated label) eqn:Hr; cbn [negb].
    + apply IH; trivial. intros. eapply HP; eauto; right; assumption.
    + destruct (nth_error (df_rows df) i) as [song|] eqn:Hs; [|discriminate].
      cbn [bind]. apply IH.
      * intros. eapply HP; eauto; right; assumption.
      * apply Forall_app. split; [exact Hacc|]. constructor; [|constructor].
        eapply HP; eauto; left; reflexivity.
Qed.

Lemma recommend_loop_no_return
  (indices : list nat) (dists : list R) (acc : list Recommendation) (resp : Response) :
  recommend_loop df rated top_k indices dists acc <> Return resp.
Proof.
  revert dists acc. induction indices as [|i indices IH]; intros dists acc; [discriminate|].
  cbn [recommend_loop]. destruct (_ >=? _); [discriminate|].
  destruct dists as [|d dists]; [discriminate|].
  unfold subscript. destruct (nth_error (df_labels df) i); [|discriminate].
  cbn [bind]. destruct (negb _); [|apply IH].
  destruct (nth_error (df_rows df) i); [|discriminate]. apply IH.
Qed.

(** The loop keeps the order of the distances it is given. *)
Lemma recommend_loop_sorted
  (indices : list nat) (dists : list R) (acc recs : list Recommendation) :
  non_decreasing dists ->
  non_increasing (map similarity_score acc) ->
  (forall a d, In a acc -> In d dists -> (1 - d <= similarity_score a)%R) ->
  recommend_loop df rated top_k indices dists acc = Value recs ->
  non_increasing (map similarity_score recs).
Proof.
  revert dists acc. induction indices as [|i indices IH]; intros dists acc Hd Hacc Hb.
  - simpl. intros [= <-]. exact Hacc.
  - cbn [recommend_loop].
    destruct (Z.of_nat (length acc) >=? top_k); [intros [= <-]; exact Hacc|].
    destruct dists as [|d dists]; [discriminate|].
    apply StronglySorted_inv in Hd as [Hd Hle].
    unfold subscript. destruct (nth_error (df_labels df) i) as [label|]; [|discriminate].
    cbn [bind]. destruct (negb _).
    + destruct (nth_error (df_rows df) i) as [song|]; [|discriminate]. cbn [bind].
      apply IH; trivial.
      * rewrite map_app. apply non_increasing_snoc; [exact Hacc|].
        apply Forall_map, Forall_forall. intros a Ha. simpl.
        apply Hb; [exact Ha | left; reflexivity].
      * intros a d' Ha Hd'. apply in_app_or in Ha as [Ha|[<-|[]]].
        -- apply Hb; [exact Ha | right; exact Hd'].
        -- simpl. rewrite Forall_forall in Hle. specialize (Hle _ Hd'). lra.
    + apply IH; trivial. intros a d' Ha Hd'. apply Hb; [exact Ha | right; exact Hd'].
Qed.

End RecommendLoop.

(** ** Loading and the guard *)

Lemma load_initialized (fs : Artifacts) :
  initialized (fst (load_recommender_models fs initial_globals)) = loaded_for_queries fs.
Proof.
  unfold load_recommender_models, loaded_for_queries.
  destruct (knn_pkl fs); [|reflexivity].
  destruct (scaler_pkl fs); [|reflexivity].
  destruct (data_pkl fs) as [d|]; [|reflexivity].
  destruct (dd_df d); [|reflexivity].
  destruct (dd_scaled_features d); [|reflexivity].
  destruct (dd_feature_cols d); reflexivity.
Qed.

Lemma load_success (fs : Artifacts) :
  snd (load_recommender_models fs initial_globals) = true -> loaded_for_queries fs = true.
Proof.
  unfold load_recommender_models, loaded_for_queries.
  destruct (knn_pkl fs); [|discriminate].
  destruct (scaler_pkl fs); [|discriminate].
  destruct (data_pkl fs) as [d|]; [|discriminate].
  destruct (dd_df d); [|discriminate].
  destruct (dd_scaled_features d); [|discriminate].
  reflexivity.
Qed.

Lemma initialized_ready (g : Globals) :
  initialized g = true ->
  exists knn df sf, ready g knn df sf.
Proof.
  unfold initialized, ready. simpl.
  destruct (knn_model g) as [knn|]; [|discriminate].
  destruct (scaler g) as [s|]; [|discriminate].
  destruct (recommender_df g) as [df|]; [|discriminate].
  destruct (scaled_features g) as [sf|]; [|discriminate].
  intros _. exists knn, df, sf. repeat split; congruence.
Qed.

Lemma ready_initialized (g : Globals) (knn : Knn) (df : DataFrame) (sf : list vec) :
  ready g knn df sf -> initialized g = true.
Proof.
  unfold initialized, ready. intros (-> & Hs & -> & ->).
  destruct (scaler g); [reflexivity | congruence].
Qed.

Lemma submit_ready (g : Globals) (knn : Knn) (df : DataFrame) (sf : list vec) (req : Request) :
  ready g knn df sf ->
  submit_ratings_and_recommend g req = handle (recommend_body knn df sf req).
Proof.
  intro H. unfold submit_ratings_and_recommend.
  rewrite (ready_initialized _ _ _ _ H). destruct H as (-> & _ & -> & ->). reflexivity.
Qed.

Lemma submit_not_initialized (g : Globals) (req : Request) :
  initialized g = false ->
  submit_ratings_and_recommend g req = Error 503 "Recommender system not initialized".
Proof.
  intro H. unfold submit_ratings_and_recommend. rewrite H. reflexivity.
Qed.

(** ** The endpoint *)

(** A successful answer, taken apart into the steps that produced it. *)
Lemma submit_ok_inv (g : Globals) (req : Request) (recs : list Recommendation) (c b : nat) :
  submit_ratings_and_recommend g req = Ok200 recs c b ->
  exists knn df sf p dists idxs rated,
    ready g knn df sf
    /\ profile_builder df sf (ratings_of req) = Value p
    /\ kneighbors knn p (top_k_of req * 2) = Value (dists, idxs)
    /\ rated_set (ratings_of req) = Value rated
    /\ recommend_loop df rated (top_k_of req) idxs dists [] = Value recs
    /\ c = length recs /\ b = length (ratings_of req).
Proof.
  intro H.
  destruct (initialized g) eqn:Hi.
  2:{ rewrite submit_not_initialized in H by assumption. discriminate. }
  destruct (initialized_ready _ Hi) as (knn & df & sf & Hr).
  rewrite (submit_ready _ _ _ _ _ Hr) in H.
  exists knn, df, sf. unfold recommend_body in H.
  destruct (profile_builder df sf _) as [p|resp|e] eqn:Hp; cbn [bind handle] in H;
    [| apply profile_builder_return in Hp as [m ->]; discriminate | discriminate].
  destruct (kneighbors knn p _) as [[dists idxs]|resp|e] eqn:Hk; cbn [bind handle] in H;
    [| exfalso; eapply kneighbors_no_return; eauto | discriminate].
  destruct (rated_set _) as [rated|resp|e] eqn:Hs; cbn [bind handle] in H;
    [| exfalso; eapply rated_set_no_return; eauto | discriminate].
  destruct (recommend_loop df rated _ idxs dists []) as [recs'|resp|e] eqn:Hl;
    cbn [bind handle] in H;
    [| exfalso; eapply recommend_loop_no_return; eauto | discriminate].
  injection H as <- <- <-. exists p, dists, idxs, rated.
  split; [exact Hr|]. repeat split; trivial.
Qed.

(** What the handler can answer once the guard is passed. *)
Lemma handled_answer (knn : Knn) (df : DataFrame) (sf : list vec) (req : Request) :
  (exists recs c b, handle (recommend_body knn df sf req) = Ok200 recs c b)
  \/ request_level_rejection (handle (recommend_body knn df sf req))
  \/ generic_internal_failure (handle (recommend_body knn df sf req)).
Proof.
  unfold recommend_body, request_level_rejection, generic_internal_failure.
  destruct (profile_builder df sf (ratings_of req)) as [p|resp|e] eqn:Hp; cbn [bind handle].
  - destruct (kneighbors knn p _) as [[dists idxs]|resp|e] eqn:Hk; cbn [bind handle].
    + destruct (rated_set _) as [rated|resp|e] eqn:Hs; cbn [bind handle].
      * destruct (recommend_loop df rated _ idxs dists []) as [recs|resp|e] eqn:Hl;
          cbn [bind handle].
        -- left. eauto.
        -- exfalso. eapply recommend_loop_no_return; eauto.
        -- right. right. reflexivity.
      * exfalso. eapply rated_set_no_return; eauto.
      * right. right. reflexivity.
    + exfalso. eapply kneighbors_no_return; eauto.
    + right. right. reflexivity.
  - right. left. apply profile_builder_return in Hp. exact Hp.
  - right. right. reflexivity.
Qed.

Lemma profile_length (knn : Knn) (df : DataFrame) (sf : list vec)
  (ratings : list RatingObj) (p : vec) :
  coherent knn df sf ->
  profile_builder df sf ratings = Value p ->
  length p = n_features_in knn.
Proof.
  intros Hc Hp. rewrite profile_builder_spec in Hp.
  destruct (entry_pairs_surviving df sf ratings
              (features_aligned _ _ _ (store_ok _ _ _ Hc))) as [H1 H2].
  rewrite H1, H2 in Hp. destruct (is_nil ratings); [discriminate|]. cbv zeta in Hp.
  destruct (surviving df sf ratings) as [|it items] eqn:Hs; [discriminate|].
  cbn [is_nil] in Hp. rewrite <- Hs in Hp. unfold np_average in Hp.
  rewrite !length_map, Nat.eqb_refl in Hp. cbn [negb] in Hp.
  destruct (_ =? _); [discriminate|]. injection Hp as <-.
  rewrite length_map, weigh_rows_pairs. apply vsum_length.
  - rewrite Hs. discriminate.
  - apply Forall_map.
    generalize (surviving_width df sf _ ratings (features_width _ _ _ (store_ok _ _ _ Hc))).
    apply Forall_impl. intros q Hq. rewrite vscale_length. exact Hq.
Qed.

Lemma nearest_positions (knn : Knn) (df : DataFrame) (sf : list vec) (X : vec) (k : Z) :
  coherent knn df sf ->
  Forall (fun i => (i < length (df_labels df))%nat /\ (i < length (df_rows df))%nat)
         (map fst (nearest knn X k)).
Proof.
  intro Hc. apply Forall_map, Forall_forall. intros q Hq.
  apply nearest_in in Hq as (x & _ & _ & Hlt).
  rewrite (index_over_features _ _ _ Hc),
    (features_aligned _ _ _ (store_ok _ _ _ Hc)) in Hlt.
  rewrite (rows_aligned _ _ _ Hc). split; exact Hlt.
Qed.

(** The complete answer of the endpoint for a batch whose profile could
    be built and whose rating objects all carry ['df_index']. *)
Lemma submit_ok_spec (g : Globals) (knn : Knn) (df : DataFrame) (sf : list vec)
  (req : Request) (p : vec) :
  ready g knn df sf -> coherent knn df sf ->
  1 <= top_k_of req ->
  forallb has_df_index (ratings_of req) = true ->
  profile_builder df sf (ratings_of req) = Value p ->
  let near := nearest knn p (top_k_of req * 2) in
  let dists := map (fun q : nat * Qc => sqrt (R_of_Qc (snd q))) near in
  let idxs := map fst near in
  let rated := map (fun r => get (r_df_index r)) (ratings_of req) in
  let recs := map (record_of df)
                  (firstn (Z.to_nat (top_k_of req))
                          (unrated_candidates df rated idxs dists)) in
  kneighbors knn p (top_k_of req * 2) = Value (dists, idxs)
  /\ rated_set (ratings_of req) = Value rated
  /\ submit_ratings_and_recommend g req
     = Ok200 recs (length recs) (length (ratings_of req)).
Proof.
  intros Hr Hc Hk Hkeys Hp near dists idxs rated recs.
  assert (Hkn : kneighbors knn p (top_k_of req * 2) = Value (dists, idxs)).
  { apply kneighbors_value; [lia|]. eapply profile_length; eauto. }
  assert (Hrs : rated_set (ratings_of req) = Value rated).
  { rewrite rated_set_spec, Hkeys. reflexivity. }
  split; [exact Hkn|]. split; [exact Hrs|].
  rewrite (submit_ready _ _ _ _ _ Hr). unfold recommend_body.
  rewrite Hp. cbn [bind]. rewrite Hkn. cbn [bind]. rewrite Hrs. cbn [bind].
  rewrite recommend_loop_spec.
  - cbn [bind handle app length]. rewrite Nat.sub_0_r. reflexivity.
  - apply (nearest_positions knn df sf), Hc.
  - subst idxs dists. rewrite !length_map. lia.
Qed.

(** The loop pairs every position with the distance that stands at the
    same place of the answer of the index. *)
Lemma recommend_loop_paired (df : DataFrame) (rated : list (option Z)) (top_k : Z)
  (P : Recommendation -> Prop) (indices : list nat) (dists : list R)
  (acc recs : list Recommendation) :
  (forall i label song d,
      nth_error (df_labels df) i = Some label ->
      nth_error (df_rows df) i = Some song ->
      is_rated rated label = false ->
      In (i, d) (combine indices dists) ->
      P (format_recommendation song d)) ->
  Forall P acc ->
  recommend_loop df rated top_k indices dists acc = Value recs ->
  Forall P recs.
Proof.
  revert dists acc. induction indices as [|i indices IH]; intros dists acc HP Hacc.
  - simpl. intros [= <-]. exact Hacc.
  - cbn [recommend_loop].
    destruct (_ >=? _); [intros [= <-]; exact Hacc|].
    destruct dists as [|d dists]; [discriminate|].
    unfold subscript.
    destruct (nth_error (df_labels df) i) as [label|] eqn:Hl; [|discriminate].
    cbn [bind]. destruct (is_rated rated label) eqn:Hr; cbn [negb].
    + apply IH; [|exact Hacc]. intros i' l' s' d' H1 H2 H3 H4.
      apply (HP i' l' s' d'); trivial. right. exact H4.
    + destruct (nth_error (df_rows df) i) as [song|] eqn:Hs; [|discriminate].
      cbn [bind]. apply IH.
      * intros i' l' s' d' H1 H2 H3 H4. apply (HP i' l' s' d'); trivial. right. exact H4.
      * apply Forall_app. split; [exact Hacc|]. constructor; [|constructor].
        apply (HP i label song d); trivial. left. reflexivity.
Qed.

(** In a list without repetition the position of an element is the
    place where it stands. *)
Lemma position_of_nth (labels : list Z) (i : nat) (label : Z) :
  NoDup labels -> nth_error labels i = Some label -> position labels label = Some i.
Proof.
  revert i. induction labels as [|l ls IH]; intros i Hnd Hi; [destruct i; discriminate|].
  inversion Hnd as [|? ? Hn Hd]; subst. destruct i as [|i]; simpl in *.
  - injection Hi as ->. rewrite Z.eqb_refl. reflexivity.
  - destruct (Z.eqb_spec l label) as [->|Hne].
    + exfalso. apply Hn. eapply nth_error_In; eauto.
    + rewrite (IH i Hd Hi). reflexivity.
Qed.

(** ** The scenario of the specification

    Item 100 rated 5, nothing else rated: the profile is the vector of
    that item, and the two recommendations are the items at distance 1. *)

Lemma demo_store : feature_store 2 demo_frame demo_features.
Proof.
  constructor; try reflexivity.
  - repeat constructor; simpl; intuition discriminate.
  - repeat constructor.
Qed.

Lemma demo_coherent : coherent demo_knn demo_frame demo_features.
Proof. constructor; [exact demo_store | reflexivity | reflexivity]. Qed.

Lemma demo_ready : ready demo_globals demo_knn demo_frame demo_features.
Proof. repeat split. discriminate. Qed.

Example scenario_profile :
  profile_builder demo_frame demo_features [rate 100 5] = Value (point 0 0).
Proof.
  vm_compute. apply f_equal.
  apply f_equal2; [apply Qc_is_canon; reflexivity|].
  apply f_equal2; [apply Qc_is_canon; reflexivity | reflexivity].
Qed.

Example scenario_weights :
  map snd (surviving demo_frame demo_features [rate 100 5; rate 101 1; rate 102 3; rate 7 4])
  = [2; -2; 0].
Proof. reflexivity. Qed.

Example scenario_answer :
  exists recs,
    submit_ratings_and_recommend demo_globals (demo_request [rate 100 5] 2) = Ok200 recs 2 1
    /\ map track_name recs = ["b"; "c"]%string
    /\ map similarity_score recs = [0; 0]%R.
Proof.
  eexists. split; [run_endpoint|].
  split; [reflexivity|]. cbn [map similarity_score].
  assert (H : forall c, (1 - sqrt (R_of_Qc (Qcmake 1 c)) = 0)%R).
  { intro c. unfold R_of_Qc, Q2R. cbn [this Qnum Qden].
    replace (1 * / 1)%R with 1%R by lra. rewrite sqrt_1. lra. }
  rewrite !H. reflexivity.
Qed.

(** * Binary64 rounding and the profile builder *)

(** ** Rounding *)

Lemma round_half_even_near (y : Q) :
  (inject_Z (round_half_even y) - y <= 1 # 2)%Q
  /\ (y - inject_Z (round_half_even y) <= 1 # 2)%Q.
Proof.
  unfold round_half_even.
  pose proof (Qfloor_le y) as Hlo. pose proof (Qlt_floor y) as Hhi.
  set (f := Qfloor y) in *.
  assert (Hf1 : (inject_Z (f + 1) == inject_Z f + 1)%Q) by (rewrite inject_Z_plus; reflexivity).
  rewrite Hf1 in Hhi.
  destruct (Qcompare_spec (y - inject_Z f) (1 # 2)) as [He|Hl|Hg].
  - destruct (Z.even f); rewrite ?Hf1; split; Lqa.lra.
  - split; Lqa.lra.
  - rewrite Hf1. split; Lqa.lra.
Qed.

Lemma round_half_even_integer (k : Z) : round_half_even (inject_Z k) = k.
Proof.
  unfold round_half_even. rewrite Qfloor_Z.
  destruct (Qcompare_spec (inject_Z k - inject_Z k) (1 # 2)) as [He|Hl|Hg]; trivial.
  - exfalso. Lqa.lra.
  - exfalso. Lqa.lra.
Qed.

Lemma round_half_even_comp (x y : Q) :
  (x == y)%Q -> round_half_even x = round_half_even y.
Proof.
  intro H. unfold round_half_even. rewrite (Qfloor_comp _ _ H).
  assert (Hc : Qcompare (x - inject_Z (Qfloor y)) (1 # 2)
               = Qcompare (y - inject_Z (Qfloor y)) (1 # 2)).
  { apply Qcompare_comp; [rewrite H; reflexivity | reflexivity]. }
  rewrite Hc. reflexivity.
Qed.

Lemma two_nonzero : ~ (2 == 0)%Q.
Proof. discriminate. Qed.

Lemma pow2_pos (e : Z) : (0 < 2 ^ e)%Q.
Proof. apply Qpower_0_lt. reflexivity. Qed.

Lemma pow2_nat (n : Z) : 0 <= n -> (2 ^ n == inject_Z (2 ^ n))%Q.
Proof. intro H. rewrite (Zpower_Qpower 2 n H). reflexivity. Qed.

(** A positive rational between the powers of two that the sizes of its
    numerator and denominator give. *)
Lemma log2_bracket (x : Q) :
  (0 < x)%Q ->
  (2 ^ (Z.log2 (Qnum x) - Z.log2 (Zpos (Qden x)) - 1) <= x)%Q.
Proof.
  intro Hx. destruct x as [p q]. cbn [Qnum Qden].
  assert (Hp : 0 < p) by (unfold Qlt in Hx; cbn in Hx; lia).
  pose proof (Z.log2_spec p Hp) as [Hp1 _].
  pose proof (Z.log2_spec (Zpos q) (Pos2Z.is_pos q)) as [_ Hq2].
  pose proof (Z.log2_nonneg p) as Hlp. pose proof (Z.log2_nonneg (Zpos q)) as Hlq.
  replace (Z.log2 p - Z.log2 (Zpos q) - 1) with (Z.log2 p - Z.succ (Z.log2 (Zpos q))) by lia.
  rewrite (Qpower_minus 2 _ _ two_nonzero).
  rewrite (pow2_nat (Z.log2 p)) by lia.
  rewrite (pow2_nat (Z.succ (Z.log2 (Zpos q)))) by lia.
  set (a := 2 ^ Z.log2 p) in *. set (b := 2 ^ Z.succ (Z.log2 (Zpos q))) in *.
  assert (Hb : 0 < b) by lia.
  apply Qle_shift_div_r; [unfold Qlt, inject_Z; cbn; lia|].
  unfold Qle, Qmult, inject_Z. cbn [Qnum Qden].
  rewrite Z.mul_1_r, Pos.mul_1_r.
  apply Z.mul_le_mono_nonneg; lia.
Qed.

Lemma grid_exponent_spec (x : Q) :
  (0 < x)%Q -> (2 ^ 52 * 2 ^ grid_exponent x <= x)%Q.
Proof.
  intro Hx. unfold grid_exponent.
  set (e := Z.log2 (Qnum x) - Z.log2 (Zpos (Qden x))).
  destruct (Qle_bool (2 ^ e) x) eqn:Ht.
  - apply Qle_bool_iff in Ht.
    rewrite <- (Qpower_plus 2 52 (e - 52) two_nonzero).
    replace (52 + (e - 52)) with e by lia. exact Ht.
  - rewrite <- (Qpower_plus 2 52 (e - 53) two_nonzero).
    replace (52 + (e - 53)) with (e - 1) by lia. apply log2_bracket, Hx.
Qed.

Lemma round_positive_error (x : Q) :
  (0 < x)%Q ->
  (round_positive x - x <= x * (1 # 2 ^ 53))%Q
  /\ (x - round_positive x <= x * (1 # 2 ^ 53))%Q.
Proof.
  intro Hx. unfold round_positive.
  pose proof (grid_exponent_spec x Hx) as Hg.
  set (e := grid_exponent x) in *.
  pose proof (pow2_pos e) as Ht. set (t := (2 ^ e)%Q) in *.
  pose proof (round_half_even_near (x / t)) as [H1 H2].
  set (m := inject_Z (round_half_even (x / t))) in *.
  assert (Hxt : (x == (x / t) * t)%Q) by (field; Lqa.lra).
  set (y := (x / t)%Q) in *.
  assert (H52 : (2 ^ 52 == 4503599627370496)%Q) by reflexivity.
  rewrite H52 in Hg.
  assert (Hm1 : ((m - y) * t <= (1 # 2) * t)%Q) by (apply Qmult_le_compat_r; Lqa.lra).
  assert (Hm2 : ((y - m) * t <= (1 # 2) * t)%Q) by (apply Qmult_le_compat_r; Lqa.lra).
  assert (E53 : ((1 # 2 ^ 53) == 1 # 9007199254740992)%Q) by reflexivity.
  rewrite E53. split; Lqa.lra.
Qed.

Lemma grid_exponent_integer (z : Z) :
  0 < z -> grid_exponent (inject_Z z) = Z.log2 z - 52.
Proof.
  intro Hz. unfold grid_exponent.
  pose proof (Z.log2_spec z Hz) as [Hl1 _]. pose proof (Z.log2_nonneg z) as Hl0.
  assert (He : Z.log2 (Qnum (inject_Z z)) - Z.log2 (Zpos (Qden (inject_Z z))) = Z.log2 z).
  { cbn [Qnum Qden inject_Z]. change (Z.log2 1) with 0. lia. }
  rewrite He.
  assert (Ht : Qle_bool (2 ^ Z.log2 z) (inject_Z z) = true).
  { apply Qle_bool_iff. rewrite (pow2_nat _ Hl0). rewrite <- Zle_Qle. exact Hl1. }
  rewrite Ht. reflexivity.
Qed.

Lemma round_positive_integer (z : Z) :
  0 < z < 2 ^ 53 -> (round_positive (inject_Z z) == inject_Z z)%Q.
Proof.
  intros [Hz Hlt]. unfold round_positive. rewrite (grid_exponent_integer z Hz).
  pose proof (Z.log2_nonneg z) as Hl0.
  assert (Hl : Z.log2 z <= 52).
  { assert (Z.log2 z < 53); [|lia]. apply Z.log2_lt_pow2; lia. }
  set (e := Z.log2 z - 52).
  assert (He : (2 ^ e == / inject_Z (2 ^ (- e)))%Q).
  { replace e with (- (- e)) at 1 by lia. rewrite Qpower_opp, (pow2_nat (- e)) by lia.
    reflexivity. }
  assert (Hpos : 0 < 2 ^ (- e)) by (apply Z.pow_pos_nonneg; lia).
  assert (Hnz : ~ (inject_Z (2 ^ (- e)) == 0)%Q).
  { intro H0. change 0%Q with (inject_Z 0) in H0. rewrite inject_Z_injective in H0. lia. }
  assert (Hy : (inject_Z z / 2 ^ e == inject_Z (z * 2 ^ (- e)))%Q).
  { rewrite He, inject_Z_mult. field. exact Hnz. }
  assert (Hr : round_half_even (inject_Z z / 2 ^ e) = z * 2 ^ (- e)).
  { rewrite (round_half_even_comp _ _ Hy). apply round_half_even_integer. }
  rewrite Hr, He, inject_Z_mult. field. exact Hnz.
Qed.

(** ** Rationals among the reals *)

Lemma R_of_Qc_plus (a b : Qc) : R_of_Qc (a + b) = (R_of_Qc a + R_of_Qc b)%R.
Proof.
  unfold R_of_Qc. cbn [this Qcplus Q2Qc].
  rewrite (Qeq_eqR _ _ (Qred_correct _)). apply Q2R_plus.
Qed.

Lemma R_of_Qc_mult (a b : Qc) : R_of_Qc (a * b) = (R_of_Qc a * R_of_Qc b)%R.
Proof.
  unfold R_of_Qc. cbn [this Qcmult Q2Qc].
  rewrite (Qeq_eqR _ _ (Qred_correct _)). apply Q2R_mult.
Qed.

Lemma R_of_Qc_of_Z (z : Z) : R_of_Qc (Qc_of_Z z) = IZR z.
Proof.
  unfold R_of_Qc, Qc_of_Z. cbn [this Q2Qc].
  rewrite (Qeq_eqR _ _ (Qred_correct _)). unfold Q2R, inject_Z. cbn [Qnum Qden].
  rewrite Rinv_1. apply Rmult_1_r.
Qed.

Lemma R_of_Qc_div (a : Qc) (z : Z) :
  z <> 0 -> R_of_Qc (a / Qc_of_Z z) = (R_of_Qc a / IZR z)%R.
Proof.
  intro Hz. unfold Qcdiv. rewrite R_of_Qc_mult. unfold Rdiv. f_equal.
  rewrite <- R_of_Qc_of_Z. unfold R_of_Qc. cbn [this Qcinv Q2Qc].
  rewrite (Qeq_eqR _ _ (Qred_correct _)). apply Q2R_inv.
  unfold Qc_of_Z. cbn [this Q2Qc]. rewrite Qred_correct.
  unfold Qeq, inject_Z. cbn. lia.
Qed.

Lemma this_Qc_of_Z (z : Z) : this (Qc_of_Z z) = inject_Z z.
Proof.
  unfold Qc_of_Z. cbn [this Q2Qc]. apply Qred_identity.
  cbn [Qnum Qden inject_Z]. apply Z.gcd_1_r.
Qed.

(** ** The error of one operation *)

Lemma u64_pos : (0 < u64)%R.
Proof. unfold u64. apply Rinv_0_lt_compat. apply pow_lt. lra. Qed.

Lemma Q2R_u64 : Q2R (1 # 2 ^ 53) = u64.
Proof.
  unfold Q2R, u64. cbn [Qnum Qden]. rewrite Rmult_1_l. f_equal.
  replace (Z.pos (2 ^ 53)) with (2 ^ Z.of_nat 53)%Z by reflexivity.
  rewrite <- pow_IZR. reflexivity.
Qed.

Lemma round_positive_error_R (q : Q) :
  (0 < q)%Q ->
  (Rabs (Q2R (round_positive q) - Q2R q) <= u64 * Q2R q)%R.
Proof.
  intro Hq. destruct (round_positive_error q Hq) as [H1 H2].
  apply Qle_Rle in H1, H2. rewrite Q2R_minus, Q2R_mult, Q2R_u64 in H1, H2.
  apply Rabs_le. lra.
Qed.

Lemma round53_error (q : Q) :
  (Rabs (Q2R (round53 q) - Q2R q) <= u64 * Rabs (Q2R q))%R.
Proof.
  pose proof u64_pos as Hu.
  destruct q as [n d]. unfold round53. cbn [Qnum].
  destruct n as [|p|p].
  - assert (E : Q2R (0 # d) = 0%R) by (unfold Q2R; cbn; lra).
    rewrite E. change (Q2R 0) with (Q2R (0 # 1)).
    assert (E' : Q2R (0 # 1) = 0%R) by (unfold Q2R; cbn; lra).
    rewrite E', Rminus_0_r, Rabs_R0. lra.
  - assert (Hq : (0 < Z.pos p # d)%Q) by reflexivity.
    pose proof (round_positive_error_R _ Hq) as H.
    apply Qlt_Rlt in Hq. change (Q2R 0) with (Q2R (0 # 1)) in Hq.
    assert (E' : Q2R (0 # 1) = 0%R) by (unfold Q2R; cbn; lra).
    rewrite E' in Hq. rewrite (Rabs_pos_eq (Q2R (Z.pos p # d))) by lra. exact H.
  - assert (Hq : (0 < - (Z.neg p # d))%Q) by reflexivity.
    pose proof (round_positive_error_R _ Hq) as H.
    apply Qlt_Rlt in Hq. change (Q2R 0) with (Q2R (0 # 1)) in Hq.
    assert (E' : Q2R (0 # 1) = 0%R) by (unfold Q2R; cbn; lra).
    rewrite E' in Hq. rewrite !Q2R_opp in *.
    rewrite (Rabs_left (Q2R (Z.neg p # d))) by lra.
    replace (- Q2R (round_positive (- (Z.neg p # d))) - Q2R (Z.neg p # d))%R
      with (- (Q2R (round_positive (- (Z.neg p # d))) - - Q2R (Z.neg p # d)))%R by lra.
    rewrite Rabs_Ropp. exact H.
Qed.

Lemma f64_error (x : Qc) :
  (Rabs (R_of_Qc (f64 x) - R_of_Qc x) <= u64 * Rabs (R_of_Qc x))%R.
Proof.
  unfold R_of_Qc, f64. cbn [this Q2Qc].
  rewrite (Qeq_eqR _ _ (Qred_correct _)). apply round53_error.
Qed.

Lemma f64_integer (z : Z) : Z.abs z < 2 ^ 53 -> f64 (Qc_of_Z z) = Qc_of_Z z.
Proof.
  intro Hz. apply Qc_is_canon. unfold f64. cbn [this Q2Qc].
  rewrite Qred_correct, this_Qc_of_Z.
  destruct z as [|p|p].
  - reflexivity.
  - unfold round53. cbn [Qnum inject_Z]. apply (round_positive_integer (Z.pos p)). lia.
  - unfold round53. cbn [Qnum inject_Z].
    change (- (Z.neg p # 1))%Q with (inject_Z (Z.pos p)).
    rewrite (round_positive_integer (Z.pos p)) by lia. reflexivity.
Qed.

Lemma round53_opp (q : Q) : (round53 (- q) == - round53 q)%Q.
Proof.
  destruct q as [n d]. destruct n as [|p|p]; unfold round53; cbn [Qnum Qopp Z.opp].
  - reflexivity.
  - reflexivity.
  - rewrite Qopp_opp. reflexivity.
Qed.

Lemma this_opp (x : Qc) : this (- x) = (- this x)%Q.
Proof.
  unfold Qcopp. cbn [this Q2Qc]. rewrite Qred_opp. f_equal.
  destruct x as [q Hq]. exact Hq.
Qed.

Lemma f64_opp (x : Qc) : f64 (- x) = (- f64 x)%Qc.
Proof.
  apply Qc_is_canon. unfold f64. rewrite this_opp. cbn [this Qcopp Q2Qc].
  rewrite !Qred_correct. apply round53_opp.
Qed.

(** ** The error of a sum and of the average *)

Section RoundingError.

Local Open Scope R_scope.

Lemma rsum_abs_nonneg (es : list R) : 0 <= rsum_abs es.
Proof.
  induction es as [|e es IH]; simpl; [lra|]. pose proof (Rabs_pos e). lra.
Qed.

Lemma rsum_abs_bound (es : list R) : Rabs (rsum es) <= rsum_abs es.
Proof.
  induction es as [|e es IH]; simpl; [rewrite Rabs_R0; lra|].
  pose proof (Rabs_triang e (rsum es)). lra.
Qed.

(** One rounded addition: the accumulated relative error [g] becomes
    [(1 + u) (1 + g) - 1]. *)
Lemma f64_add_step (acc t : Qc) (E e B g : R) :
  u64 <= g ->
  Rabs (R_of_Qc acc - E) <= g * B ->
  Rabs E <= B ->
  Rabs (R_of_Qc t - e) <= u64 * Rabs e ->
  Rabs (R_of_Qc (f64_add acc t) - (E + e)) <= ((1 + u64) * (1 + g) - 1) * (B + Rabs e).
Proof.
  intros Hg Hacc HE Ht. pose proof u64_pos as Hu.
  unfold f64_add. pose proof (f64_error (acc + t)%Qc) as Hf.
  rewrite R_of_Qc_plus in Hf.
  set (a := R_of_Qc acc) in *. set (tt := R_of_Qc t) in *.
  set (fl := R_of_Qc (f64 (acc + t)%Qc)) in *.
  pose proof (Rabs_pos e) as He0. set (ae := Rabs e) in *.
  assert (HB : 0 <= B) by (pose proof (Rabs_pos E); lra).
  assert (Ha : Rabs a <= B + g * B).
  { replace a with (E + (a - E)) by lra.
    pose proof (Rabs_triang E (a - E)). lra. }
  assert (Htt : Rabs tt <= ae + u64 * ae).
  { replace tt with (e + (tt - e)) by lra.
    pose proof (Rabs_triang e (tt - e)). fold ae in H. lra. }
  assert (Hs : Rabs (a + tt) <= B + g * B + ae + u64 * ae).
  { pose proof (Rabs_triang a tt). lra. }
  assert (Hx : Rabs (fl - (E + e)) <= u64 * Rabs (a + tt) + g * B + u64 * ae).
  { replace (fl - (E + e)) with ((fl - (a + tt)) + ((a - E) + (tt - e))) by lra.
    pose proof (Rabs_triang (fl - (a + tt)) ((a - E) + (tt - e))).
    pose proof (Rabs_triang (a - E) (tt - e)). lra. }
  assert (Hm : u64 * Rabs (a + tt) <= u64 * (B + g * B + ae + u64 * ae)).
  { apply Rmult_le_compat_l; lra. }
  assert (Hd : 0 <= ae * ((g - u64) * (1 + u64))).
  { apply Rmult_le_pos; [lra|]. apply Rmult_le_pos; lra. }
  lra.
Qed.

Lemma fold_f64_add_error (ts : list Qc) (es : list R) :
  Forall2 (fun t e => Rabs (R_of_Qc t - e) <= u64 * Rabs e) ts es ->
  forall (acc : Qc) (E B g : R),
  u64 <= g ->
  Rabs (R_of_Qc acc - E) <= g * B ->
  Rabs E <= B ->
  Rabs (R_of_Qc (fold_left f64_add ts acc) - (E + rsum es))
  <= ((1 + u64) ^ length ts * (1 + g) - 1) * (B + rsum_abs es).
Proof.
  pose proof u64_pos as Hu.
  induction 1 as [|t e ts es Hte _ IH]; intros acc E B g Hg Hacc HE.
  - simpl. replace (E + 0) with E by lra.
    replace ((1 * (1 + g) - 1) * (B + 0)) with (g * B) by lra. exact Hacc.
  - cbn [fold_left length].
    change (rsum (e :: es)) with (e + rsum es).
    change (rsum_abs (e :: es)) with (Rabs e + rsum_abs es).
    specialize (IH (f64_add acc t) (E + e) (B + Rabs e) ((1 + u64) * (1 + g) - 1)).
    replace (E + (e + rsum es)) with (E + e + rsum es) by lra.
    replace ((1 + u64) ^ S (length ts) * (1 + g) - 1)
      with ((1 + u64) ^ length ts * (1 + ((1 + u64) * (1 + g) - 1)) - 1)
      by (simpl; lra).
    replace (B + (Rabs e + rsum_abs es)) with (B + Rabs e + rsum_abs es) by lra.
    apply IH.
    + assert (0 <= u64 * g) by (apply Rmult_le_pos; lra). lra.
    + apply f64_add_step; assumption.
    + pose proof (Rabs_triang E e). lra.
Qed.

(** The rounded sum of rounded terms. *)
Lemma sum_f64_error (ts : list Qc) (es : list R) :
  Forall2 (fun t e => Rabs (R_of_Qc t - e) <= u64 * Rabs e) ts es ->
  Rabs (R_of_Qc (sum_f64 ts) - rsum es) <= gamma (length ts) * rsum_abs es.
Proof.
  pose proof u64_pos as Hu.
  intro HF. destruct HF as [|t e ts' es' Hte Hrest].
  - simpl. unfold gamma. simpl.
    assert (E0 : R_of_Qc 0%Qc = 0) by (unfold R_of_Qc, Q2R; simpl; lra).
    rewrite E0, Rminus_0_r, Rabs_R0. lra.
  - cbn [sum_f64 length].
    change (rsum (e :: es')) with (e + rsum es').
    change (rsum_abs (e :: es')) with (Rabs e + rsum_abs es').
    pose proof (fold_f64_add_error ts' es' Hrest t e (Rabs e) u64 (Rle_refl _)) as H.
    unfold gamma. replace ((1 + u64) ^ S (length ts') - 1)
      with ((1 + u64) ^ length ts' * (1 + u64) - 1) by (simpl; lra).
    apply H; [exact Hte | lra].
Qed.

(** The rounded quotient of a rounded sum by an exact denominator. *)
Lemma f64_div_error (s : Qc) (S A : R) (W : Z) (n : nat) :
  W <> 0%Z ->
  Rabs (R_of_Qc s - S) <= gamma n * A ->
  Rabs S <= A ->
  Rabs (R_of_Qc (f64_div s (Qc_of_Z W)) - S / IZR W)
  <= gamma (n + 1) * A / Rabs (IZR W).
Proof.
  intros HW Hs HS. pose proof u64_pos as Hu.
  assert (Hg : 0 <= gamma n).
  { unfold gamma. assert (1 <= (1 + u64) ^ n) by (apply pow_R1_Rle; lra). lra. }
  assert (HA : 0 <= A) by (pose proof (Rabs_pos S); lra).
  assert (Hw : 0 < Rabs (IZR W)) by (apply Rabs_pos_lt, not_0_IZR, HW).
  unfold f64_div. pose proof (f64_error (s / Qc_of_Z W)%Qc) as Hf.
  rewrite (R_of_Qc_div s W HW) in Hf.
  set (fl := R_of_Qc (f64 (s / Qc_of_Z W)%Qc)) in *. set (rs := R_of_Qc s) in *.
  assert (Hq : forall x, Rabs (x / IZR W) = Rabs x / Rabs (IZR W)).
  { intro x. unfold Rdiv. rewrite Rabs_mult, Rabs_inv. reflexivity. }
  rewrite Hq in Hf.
  assert (Hrs : Rabs rs <= A + gamma n * A).
  { replace rs with (S + (rs - S)) by lra. pose proof (Rabs_triang S (rs - S)). lra. }
  assert (Hx : Rabs (fl - S / IZR W)
               <= u64 * (Rabs rs / Rabs (IZR W)) + Rabs (rs - S) / Rabs (IZR W)).
  { replace (fl - S / IZR W) with ((fl - rs / IZR W) + (rs - S) / IZR W) by (unfold Rdiv; lra).
    pose proof (Rabs_triang (fl - rs / IZR W) ((rs - S) / IZR W)) as Ht.
    rewrite Hq in Ht. lra. }
  replace (gamma (n + 1)) with ((1 + u64) * (1 + gamma n) - 1)
    by (unfold gamma; rewrite Nat.add_1_r; simpl; lra).
  assert (Hnum : u64 * Rabs rs + Rabs (rs - S) <= ((1 + u64) * (1 + gamma n) - 1) * A).
  { assert (u64 * Rabs rs <= u64 * (A + gamma n * A)) by (apply Rmult_le_compat_l; lra).
    lra. }
  apply Rle_trans with ((u64 * Rabs rs + Rabs (rs - S)) / Rabs (IZR W)).
  - unfold Rdiv in *. lra.
  - unfold Rdiv. apply Rmult_le_compat_r; [left; apply Rinv_0_lt_compat, Hw | exact Hnum].
Qed.

End RoundingError.

(** ** The binary64 average, column by column *)

Lemma zip_with_length (f : Qc -> Qc -> Qc) (u v : vec) :
  length u = length v -> length (zip_with f u v) = length u.
Proof.
  revert v. induction u as [|x u IH]; intros [|y v]; simpl; try discriminate; trivial.
  intro H. f_equal. apply IH. lia.
Qed.

Lemma zip_with_nth (f : Qc -> Qc -> Qc) (j : nat) (u v : vec) :
  length u = length v -> (j < length u)%nat ->
  nth j (zip_with f u v) 0%Qc = f (nth j u 0%Qc) (nth j v 0%Qc).
Proof.
  revert j v. induction u as [|x u IH]; intros j [|y v]; simpl; try discriminate; try lia.
  intros H Hj. destruct j; [reflexivity|]. apply IH; lia.
Qed.

Lemma fold_vadd_f64_length (d : nat) (rows : list vec) (acc : vec) :
  length acc = d ->
  Forall (fun v : vec => length v = d) rows ->
  length (fold_left vadd_f64 rows acc) = d.
Proof.
  revert acc. induction rows as [|r rows IH]; intros acc Hacc HF; [exact Hacc|].
  pose proof (Forall_inv HF) as Hr. cbn beta in Hr.
  cbn [fold_left]. apply IH; [|apply (Forall_inv_tail HF)].
  unfold vadd_f64. rewrite zip_with_length; congruence.
Qed.

Lemma fold_vadd_f64_nth (d j : nat) (rows : list vec) (acc : vec) :
  length acc = d ->
  Forall (fun v : vec => length v = d) rows ->
  (j < d)%nat ->
  nth j (fold_left vadd_f64 rows acc) 0%Qc
  = fold_left f64_add (map (fun r : vec => nth j r 0%Qc) rows) (nth j acc 0%Qc).
Proof.
  revert acc. induction rows as [|r rows IH]; intros acc Hacc HF Hj; [reflexivity|].
  pose proof (Forall_inv HF) as Hr. cbn beta in Hr.
  cbn [fold_left map].
  assert (Hl : length (vadd_f64 acc r) = d).
  { unfold vadd_f64. rewrite zip_with_length; congruence. }
  rewrite (IH (vadd_f64 acc r) Hl (Forall_inv_tail HF) Hj). f_equal.
  unfold vadd_f64. apply zip_with_nth; congruence.
Qed.

Lemma vsum_f64_nth (d j : nat) (rows : list vec) :
  rows <> [] ->
  Forall (fun v : vec => length v = d) rows ->
  (j < d)%nat ->
  nth j (vsum_f64 rows) 0%Qc = sum_f64 (map (fun r : vec => nth j r 0%Qc) rows).
Proof.
  destruct rows as [|r rows]; [congruence|]. intros _ HF Hj.
  cbn [vsum_f64 sum_f64 map].
  apply (fold_vadd_f64_nth d j rows r (Forall_inv HF) (Forall_inv_tail HF) Hj).
Qed.

Lemma vsum_f64_length (d : nat) (rows : list vec) :
  rows <> [] ->
  Forall (fun v : vec => length v = d) rows ->
  length (vsum_f64 rows) = d.
Proof.
  destruct rows as [|r rows]; [congruence|]. intros _ HF.
  apply (fold_vadd_f64_length d rows r (Forall_inv HF) (Forall_inv_tail HF)).
Qed.

Lemma weigh_rows_f64_pairs (items : list (vec * Z)) :
  weigh_rows_f64 (map fst items) (map snd items)
  = map (fun p : vec * Z => map (fun x => f64_mul x (f64_of_int (snd p))) (fst p)) items.
Proof.
  unfold weigh_rows_f64. induction items as [|p items IH]; simpl; [reflexivity|].
  f_equal. exact IH.
Qed.

(** ** Weights that are added without rounding *)

Lemma Qc_of_Z_plus (a b : Z) : Qc_of_Z (a + b) = (Qc_of_Z a + Qc_of_Z b)%Qc.
Proof.
  apply Qc_is_canon. unfold Qc_of_Z. cbn [this Qcplus Q2Qc].
  rewrite !Qred_correct, inject_Z_plus. reflexivity.
Qed.

Lemma fold_weights_exact (ws : list Z) (a : Z) :
  Forall (fun w => Z.abs w <= 2) ws ->
  Z.abs a + 2 * Z.of_nat (length ws) < 2 ^ 53 ->
  fold_left f64_add (map f64_of_int ws) (Qc_of_Z a)
  = Qc_of_Z (fold_right Z.add 0 ws + a).
Proof.
  revert a. induction ws as [|w ws IH]; intros a HF Hb; [reflexivity|].
  pose proof (Forall_inv HF) as Hw. cbn beta in Hw.
  cbn [map fold_left fold_right]. cbn [length] in Hb.
  assert (E : f64_add (Qc_of_Z a) (f64_of_int w) = Qc_of_Z (a + w)).
  { unfold f64_add, f64_of_int. rewrite (f64_integer w) by lia.
    rewrite <- Qc_of_Z_plus. apply f64_integer. lia. }
  rewrite E, IH; [f_equal; lia | apply (Forall_inv_tail HF) | lia].
Qed.

Lemma sum_weights_exact (ws : list Z) :
  Forall (fun w => Z.abs w <= 2) ws ->
  2 * Z.of_nat (length ws) < 2 ^ 53 ->
  sum_f64 (map f64_of_int ws) = Qc_of_Z (fold_right Z.add 0 ws).
Proof.
  destruct ws as [|w ws]; [reflexivity|]. intros HF Hb.
  pose proof (Forall_inv HF) as Hw. cbn beta in Hw. cbn [length] in Hb.
  cbn [map sum_f64 fold_right].
  assert (E : f64_of_int w = Qc_of_Z w) by (apply f64_integer; lia).
  rewrite E, fold_weights_exact; [f_equal; lia | apply (Forall_inv_tail HF) | lia].
Qed.

Lemma Qc_of_Z_zero (z : Z) : Qc_eq_bool (Qc_of_Z z) 0%Qc = (z =? 0).
Proof.
  destruct (Z.eqb_spec z 0) as [->|Hz].
  - reflexivity.
  - destruct (Qc_eq_bool (Qc_of_Z z) 0%Qc) eqn:E; [|reflexivity].
    apply Qc_eq_bool_correct in E. apply (f_equal this) in E.
    rewrite this_Qc_of_Z in E. injection E as E. lia.
Qed.

(** ** The binary64 average in closed form *)

Lemma np_average_f64_closed (d : nat) (items : list (vec * Z)) :
  items <> [] ->
  Forall (fun p : vec * Z => length (fst p) = d) items ->
  small_weights items ->
  np_average_f64 (map fst items) (map snd items)
  = if total_weight items =? 0 then Raise ZeroDivisionError
    else Value (map (fun x => f64_div x (Qc_of_Z (total_weight items)))
                    (vsum_f64 (map (fun p : vec * Z =>
                                      map (fun x => f64_mul x (Qc_of_Z (snd p))) (fst p))
                                   items))).
Proof.
  intros Hne Hw [Hs Hn]. unfold np_average_f64.
  rewrite !length_map, Nat.eqb_refl. cbn [negb].
  rewrite sum_weights_exact.
  - fold (total_weight items). rewrite Qc_of_Z_zero.
    destruct (total_weight items =? 0); [reflexivity|].
    rewrite weigh_rows_f64_pairs. do 3 f_equal.
    apply map_ext_in. intros p Hp. apply map_ext. intro x.
    unfold f64_of_int. rewrite f64_integer; [reflexivity|].
    rewrite Forall_forall in Hs. specialize (Hs p Hp). cbn beta in Hs. lia.
  - apply Forall_map. exact Hs.
  - rewrite length_map. exact Hn.
Qed.

(** ** The binary64 profile and the exact weighted mean *)

Lemma abs_weighted_sum_at_rsum (j : nat) (items : list (vec * Z)) :
  abs_weighted_sum_at j items
  = rsum_abs (map (fun p : vec * Z => (IZR (snd p) * R_of_Qc (nth j (fst p) 0%Qc))%R) items).
Proof.
  unfold abs_weighted_sum_at, rsum_abs. induction items as [|p items IH]; simpl; congruence.
Qed.

Lemma exact_sum_at_perm (j : nat) (l l' : list (vec * Z)) :
  Permutation l l' -> exact_sum_at j l = exact_sum_at j l'.
Proof.
  unfold exact_sum_at, rsum. induction 1; simpl; lra.
Qed.

Lemma abs_weighted_sum_at_perm (j : nat) (l l' : list (vec * Z)) :
  Permutation l l' -> abs_weighted_sum_at j l = abs_weighted_sum_at j l'.
Proof.
  unfold abs_weighted_sum_at. induction 1; simpl; lra.
Qed.

Lemma tolerance_perm (j : nat) (l l' : list (vec * Z)) :
  Permutation l l' -> tolerance j l = tolerance j l'.
Proof.
  intro HP. unfold tolerance.
  rewrite (Permutation_length HP), (abs_weighted_sum_at_perm j _ _ HP),
    (total_weight_perm _ _ HP). reflexivity.
Qed.

Lemma small_weights_perm (l l' : list (vec * Z)) :
  Permutation l l' -> small_weights l -> small_weights l'.
Proof.
  intros HP [H1 H2]. split.
  - eapply Permutation_Forall; eassumption.
  - rewrite <- (Permutation_length HP). exact H2.
Qed.

Lemma column_terms (j : nat) (items : list (vec * Z)) :
  Forall2 (fun t e => (Rabs (R_of_Qc t - e) <= u64 * Rabs e)%R)
    (map (fun p : vec * Z => f64_mul (nth j (fst p) 0%Qc) (Qc_of_Z (snd p))) items)
    (map (fun p : vec * Z => (IZR (snd p) * R_of_Qc (nth j (fst p) 0%Qc))%R) items).
Proof.
  induction items as [|p items IH]; simpl; constructor; [|exact IH].
  unfold f64_mul. pose proof (f64_error (nth j (fst p) 0%Qc * Qc_of_Z (snd p))%Qc) as H.
  rewrite R_of_Qc_mult, R_of_Qc_of_Z in H.
  rewrite (Rmult_comm (IZR (snd p))). exact H.
Qed.

Lemma nth_map_in (f : Qc -> Qc) (j : nat) (l : vec) :
  (j < length l)%nat -> nth j (map f l) 0%Qc = f (nth j l 0%Qc).
Proof.
  intro Hj. rewrite (nth_indep _ 0%Qc (f 0%Qc)) by (rewrite length_map; exact Hj).
  apply map_nth.
Qed.

(** Where the weights are added without rounding and their sum is not
    zero, the binary64 average has a value, and each of its coordinates
    is within the tolerance of the exact weighted mean. *)
Lemma np_average_f64_near (d : nat) (items : list (vec * Z)) :
  items <> [] ->
  Forall (fun p : vec * Z => length (fst p) = d) items ->
  small_weights items ->
  total_weight items <> 0 ->
  exists p,
    np_average_f64 (map fst items) (map snd items) = Value p
    /\ length p = d
    /\ forall j, (j < d)%nat ->
         (Rabs (R_of_Qc (nth j p 0%Qc) - exact_sum_at j items / IZR (total_weight items))
          <= tolerance j items)%R.
Proof.
  intros Hne Hw Hs HW.
  rewrite (np_average_f64_closed d items Hne Hw Hs).
  destruct (Z.eqb_spec (total_weight items) 0) as [|_]; [contradiction|].
  set (rows := map (fun p : vec * Z =>
                      map (fun x => f64_mul x (Qc_of_Z (snd p))) (fst p)) items).
  assert (Hrows : rows <> []) by (subst rows; destruct items; [congruence | discriminate]).
  assert (Hwr : Forall (fun v : vec => length v = d) rows).
  { subst rows. apply Forall_map. revert Hw. apply Forall_impl. intros p Hp.
    rewrite length_map. exact Hp. }
  eexists. split; [reflexivity|]. split.
  - rewrite length_map. apply vsum_f64_length; assumption.
  - intros j Hj.
    rewrite nth_map_in by (rewrite (vsum_f64_length d); assumption).
    rewrite (vsum_f64_nth d j rows Hrows Hwr Hj).
    assert (Hcol : map (fun r : vec => nth j r 0%Qc) rows
                   = map (fun p : vec * Z => f64_mul (nth j (fst p) 0%Qc) (Qc_of_Z (snd p)))
                         items).
    { subst rows. rewrite map_map. apply map_ext_in. intros p Hp.
      apply nth_map_in. rewrite Forall_forall in Hw. rewrite (Hw p Hp). exact Hj. }
    rewrite Hcol. unfold tolerance.
    apply f64_div_error; [exact HW | |].
    + pose proof (sum_f64_error _ _ (column_terms j items)) as H.
      rewrite length_map in H. rewrite abs_weighted_sum_at_rsum. exact H.
    + rewrite abs_weighted_sum_at_rsum. apply rsum_abs_bound.
Qed.

(** ** The binary64 profile builder *)

Lemma profile_builder_f64_spec (df : DataFrame) (sf : list vec) (ratings : list RatingObj) :
  profile_builder_f64 df sf ratings
  = if is_nil ratings then Return (Error 400 "No ratings provided")
    else if existsb (entry_raises df sf) ratings then Raise IndexError
    else
      let items := flat_map (entry_pairs df sf) ratings in
      if is_nil items
      then Return (Error 400 "Could not find any of the rated songs in the dataset")
      else np_average_f64 (map fst items) (map snd items).
Proof.
  unfold profile_builder_f64. destruct (is_nil ratings); [reflexivity|].
  rewrite collect_rated_spec. destruct (existsb _ ratings); [reflexivity|].
  cbn [bind app]. rewrite is_nil_map. reflexivity.
Qed.

Lemma surviving_perm (df : DataFrame) (sf : list vec) (l l' : list RatingObj) :
  Permutation l l' -> Permutation (surviving df sf l) (surviving df sf l').
Proof. intro HP. unfold surviving. apply flat_map_perm, HP. Qed.

Lemma surviving_small (df : DataFrame) (sf : list vec) (ratings : list RatingObj) :
  Forall stars ratings ->
  Z.of_nat (length ratings) <= 2 ^ 50 ->
  small_weights (surviving df sf ratings).
Proof.
  intros HF Hn.
  assert (H : Forall (fun p : vec * Z => Z.abs (snd p) <= 2) (surviving df sf ratings)
              /\ (length (surviving df sf ratings) <= length ratings)%nat).
  { clear Hn. unfold surviving. induction HF as [|r rest Hr _ [IH1 IH2]]; [split; [constructor | reflexivity]|].
    cbn [flat_map length]. unfold stars in Hr.
    destruct (r_df_index r) as [| |l]; try (split; [exact IH1 | cbn [app]; lia]).
    destruct (r_rating r) as [| |s]; try (split; [exact IH1 | cbn [app]; lia]).
    destruct (vectorOf df sf l); cbn [app length]; [|split; [exact IH1 | lia]].
    split; [|lia]. constructor; [cbn; lia | exact IH1]. }
  destruct H as [H1 H2]. split; [exact H1|]. lia.
Qed.

Lemma tenths_store : feature_store 2 tenths_frame tenths_features.
Proof.
  constructor; try reflexivity.
  - repeat constructor; simpl; intuition discriminate.
  - repeat constructor.
Qed.

Lemma builder_f64_of_store (d : nat) (df : DataFrame) (sf : list vec)
  (ratings : list RatingObj) :
  feature_store d df sf ->
  profile_builder_f64 df sf ratings
  = if is_nil ratings then Return (Error 400 "No ratings provided")
    else if is_nil (surviving df sf ratings)
    then Return (Error 400 "Could not find any of the rated songs in the dataset")
    else np_average_f64 (map fst (surviving df sf ratings))
                        (map snd (surviving df sf ratings)).
Proof.
  intros [_ Hlen _]. rewrite profile_builder_f64_spec.
  destruct (entry_pairs_surviving df sf ratings Hlen) as [-> ->]. reflexivity.
Qed.

(** * The properties of the recommender *)



(** C2. Each record of a successful answer was made from a row of the
    frame whose label is the ['df_index'] of no rating of the batch, for
    every batch and every [top_k]. *)
Theorem rated_items_excluded (g : Globals) (req : Request)
  (recs : list Recommendation) (c b : nat) :
  submit_ratings_and_recommend g req = Ok200 recs c b ->
  exists df, recommender_df g = Some df /\
    Forall (fun rec =>
      exists i label song dist,
        nth_error (df_labels df) i = Some label
        /\ nth_error (df_rows df) i = Some song
        /\ rec = format_recommendation song dist
        /\ forall r, In r (ratings_of req) -> r_df_index r <> Val label)
      recs.
Proof.
  intro H. apply submit_ok_inv in H
    as (knn & df & sf & p & dists & idxs & rated & Hr & Hp & Hk & Hs & Hl & _ & _).
  exists df. split; [apply Hr|].
  eapply recommend_loop_inv; [| constructor | exact Hl].
  intros i label song d Hlab Hsong Hnr _ _. exists i, label, song, d.
  repeat split; trivial. eapply is_rated_false; eauto.
Qed.

Lemma rated_items_excluded_witness :
  exists recs c b,
    submit_ratings_and_recommend demo_globals (demo_request [rate 100 5; rate 102 4] 2)
    = Ok200 recs c b
    /\ exists df, recommender_df demo_globals = Some df /\
       Forall (fun rec =>
         exists i label song dist,
           nth_error (df_labels df) i = Some label
           /\ nth_error (df_rows df) i = Some song
           /\ rec = format_recommendation song dist
           /\ forall r, In r [rate 100 5; rate 102 4] -> r_df_index r <> Val label)
         recs.
Proof.
  do 3 eexists. split.
  - run_endpoint.
  - eapply (rated_items_excluded demo_globals (demo_request [rate 100 5; rate 102 4] 2)).
    run_endpoint.
Defined.

(** C3. For every [top_k] of at least 1, however large against the
    catalog, the index answers with the catalog clamped to at most
    [2 * top_k] entries and the endpoint returns the first [top_k] of the
    unrated ones: never more than [top_k] records, and all the unrated
    candidates when there are fewer than [top_k], with no error. *)
Theorem at_most_top_k (g : Globals) (knn : Knn) (df : DataFrame) (sf : list vec)
  (req : Request) (p : vec) :
  ready g knn df sf -> coherent knn df sf ->
  1 <= top_k_of req ->
  forallb has_df_index (ratings_of req) = true ->
  profile_builder df sf (ratings_of req) = Value p ->
  exists dists idxs rated,
    kneighbors knn p (top_k_of req * 2) = Value (dists, idxs)
    /\ length idxs = Nat.min (Z.to_nat (top_k_of req * 2))
                             (length (fit_X knn))
    /\ rated_set (ratings_of req) = Value rated
    /\ let remaining := unrated_candidates df rated idxs dists in
       let recs := map (record_of df)
                       (firstn (Z.to_nat (top_k_of req)) remaining) in
       submit_ratings_and_recommend g req
       = Ok200 recs (length recs) (length (ratings_of req))
       /\ (length recs <= Z.to_nat (top_k_of req))%nat
       /\ ((length remaining < Z.to_nat (top_k_of req))%nat ->
           recs = map (record_of df) remaining).
Proof.
  intros Hr Hc Hk Hkeys Hp.
  destruct (submit_ok_spec g knn df sf req p Hr Hc Hk Hkeys Hp) as (Hkn & Hrs & Hsub).
  do 3 eexists. split; [exact Hkn|]. split; [|split; [exact Hrs|]].
  - rewrite length_map. apply nearest_length.
  - cbv zeta. split; [exact Hsub|]. split.
    + rewrite length_map, length_firstn. lia.
    + intro Hlt. rewrite firstn_all2 by lia. reflexivity.
Qed.

Lemma at_most_top_k_witness :
  exists p dists idxs rated,
    profile_builder demo_frame demo_features [rate 100 5] = Value p
    /\ kneighbors demo_knn p (10 * 2) = Value (dists, idxs)
    /\ length idxs = 5%nat
    /\ rated_set [rate 100 5] = Value rated
    /\ let remaining := unrated_candidates demo_frame rated idxs dists in
       let recs := map (record_of demo_frame) (firstn 10 remaining) in
       submit_ratings_and_recommend demo_globals (demo_request [rate 100 5] 10)
       = Ok200 recs (length recs) 1
       /\ (length recs <= 10)%nat
       /\ ((length remaining < 10)%nat -> recs = map (record_of demo_frame) remaining).
Proof.
  assert (E : exists p, profile_builder demo_frame demo_features [rate 100 5] = Value p).
  { eexists. vm_compute. reflexivity. }
  destruct E as [p E]. exists p.
  destruct (at_most_top_k demo_globals demo_knn demo_frame demo_features
              (demo_request [rate 100 5] 10) p demo_ready demo_coherent)
    as (dists & idxs & rated & H1 & H2 & H3 & H4).
  - cbn. lia.
  - reflexivity.
  - exact E.
  - exists dists, idxs, rated.
    split; [exact E|]. split; [exact H1|]. split; [exact H2|]. split; [exact H3 | exact H4].
Defined.

(** C4. Ratings whose identity is not in the frame are dropped without
    an error; the builder answers 400 exactly when no rating is kept; a
    batch with one rating of a known identity never gets that answer. *)
Theorem empty_input_iff_nothing_kept (df : DataFrame) (sf : list vec)
  (ratings : list RatingObj) :
  collect_rated df sf (filter (known_identity df) ratings) [] []
  = collect_rated df sf ratings [] []
  /\ (empty_input (profile_builder df sf ratings) <-> filter (kept df) ratings = [])
  /\ ((exists r, In r ratings /\ valid_known df r) ->
      ~ empty_input (profile_builder df sf ratings)).
Proof.
  split; [|split].
  - apply collect_rated_filter. intros r Hr. apply rate_entry_not_kept.
    revert Hr. unfold known_identity, kept.
    destruct (r_df_index r); simpl; trivial. intros ->. destruct (get _); reflexivity.
  - rewrite (kept_filter_nil df sf), profile_builder_spec. unfold empty_input. split.
    + intros [m Hm]. destruct ratings as [|r rest]; [split; reflexivity|].
      cbn [is_nil] in Hm. destruct (existsb _ _); [discriminate|]. cbv zeta in Hm.
      split; trivial. destruct (flat_map _ _); [reflexivity|].
      cbn [is_nil] in Hm. exfalso. eapply np_average_no_return; eauto.
    + intros [-> ->]. destruct (is_nil ratings); cbn; eauto.
  - intros Hv [m Hm]. eapply builder_outcome_of_valid; eauto.
Qed.

Lemma empty_input_iff_nothing_kept_witness :
  (exists r, In r [rate 999 5; rate 102 4] /\ valid_known demo_frame r)
  /\ ~ empty_input (profile_builder demo_frame demo_features [rate 999 5; rate 102 4])
  /\ empty_input (profile_builder demo_frame demo_features [rate 999 5]).
Proof.
  assert (Hv : exists r, In r [rate 999 5; rate 102 4] /\ valid_known demo_frame r).
  { exists (rate 102 4). split; [right; left; reflexivity|].
    exists 102, 4. repeat split. }
  split; [exact Hv|]. split.
  - apply (empty_input_iff_nothing_kept demo_frame demo_features [rate 999 5; rate 102 4]).
    exact Hv.
  - apply (empty_input_iff_nothing_kept demo_frame demo_features [rate 999 5]).
    reflexivity.
Defined.

(** C5, as the code has it.  A non-empty batch of known identities that
    are all rated 3 makes the weighted average raise, and the request is
    answered with the generic 500 error; the endpoint has no error of its
    own for this case and produces no profile. *)
Theorem midpoint_batch_fails_generically (g : Globals) (knn : Knn) (df : DataFrame)
  (sf : list vec) (d : nat) (req : Request) :
  ready g knn df sf ->
  feature_store d df sf ->
  ratings_of req <> [] ->
  Forall (fun r => valid_known df r /\ r_rating r = Val 3) (ratings_of req) ->
  profile_builder df sf (ratings_of req) = Raise ZeroDivisionError
  /\ generic_internal_failure (submit_ratings_and_recommend g req).
Proof.
  intros Hr [_ Hlen _] Hne Hall.
  set (ratings := ratings_of req) in *.
  assert (Hp : profile_builder df sf ratings = Raise ZeroDivisionError).
  { rewrite profile_builder_spec.
    destruct (entry_pairs_surviving df sf ratings Hlen) as [-> ->].
    destruct ratings as [|r rest] eqn:Hrs; [congruence|]. cbn [is_nil]. cbv zeta.
    rewrite <- Hrs in *.
    assert (Hs : surviving df sf ratings <> []).
    { apply surviving_of_kept; trivial. exists r. split; [rewrite Hrs; left; reflexivity|].
      rewrite Hrs in Hall. apply (Forall_inv Hall). }
    destruct (surviving df sf ratings) as [|p items] eqn:Hsv; [congruence|]. cbn [is_nil].
    rewrite <- Hsv. unfold np_average.
    rewrite !length_map, Nat.eqb_refl, zsum_total. cbn [negb].
    rewrite total_weight_midpoint; [reflexivity|].
    revert Hall. apply Forall_impl. tauto. }
  split; [exact Hp|].
  unfold generic_internal_failure. rewrite (submit_ready _ _ _ _ _ Hr).
  unfold recommend_body. fold ratings. rewrite Hp. reflexivity.
Qed.

Lemma midpoint_batch_fails_generically_witness :
  profile_builder demo_frame demo_features [rate 100 3; rate 104 3] = Raise ZeroDivisionError
  /\ generic_internal_failure
       (submit_ratings_and_recommend demo_globals (demo_request [rate 100 3; rate 104 3] 2)).
Proof.
  apply (midpoint_batch_fails_generically demo_globals demo_knn demo_frame demo_features 2
           (demo_request [rate 100 3; rate 104 3] 2)).
  - exact demo_ready.
  - exact demo_store.
  - discriminate.
  - repeat constructor; [exists 100, 3 | exists 104, 3]; repeat split.
Defined.

(** C5 as specified does not hold: the all-midpoint batch is not turned
    into a request-level rejection but into the generic 500. *)
Lemma midpoint_batch_not_rejected :
  generic_internal_failure
    (submit_ratings_and_recommend demo_globals (demo_request [rate 100 3] 2))
  /\ ~ request_level_rejection
       (submit_ratings_and_recommend demo_globals (demo_request [rate 100 3] 2)).
Proof.
  assert (H : submit_ratings_and_recommend demo_globals (demo_request [rate 100 3] 2)
              = Error 500 "Failed to generate recommendations") by (vm_compute; reflexivity).
  rewrite H. split; [reflexivity|]. intros [m Hm]. discriminate.
Qed.

(** C6, as the code has it.  Each record of a successful answer is made
    of one row of the frame, and its similarity score is 1 minus the
    Euclidean distance between the taste profile and the vector that the
    index holds at the position of that row, which for coherent artifacts
    is the vector of the row's item in the feature store; the score is at
    most 1, and it is at least 0 exactly when that distance is at most
    1. *)
Theorem similarity_is_one_minus_distance (g : Globals) (req : Request)
  (recs : list Recommendation) (c b : nat) :
  submit_ratings_and_recommend g req = Ok200 recs c b ->
  exists knn df sf p,
    ready g knn df sf
    /\ profile_builder df sf (ratings_of req) = Value p
    /\ Forall (fun rec =>
         exists i label song x,
           nth_error (df_labels df) i = Some label
           /\ nth_error (df_rows df) i = Some song
           /\ nth_error (fit_X knn) i = Some x
           /\ (coherent knn df sf -> vectorOf df sf label = Some x)
           /\ rec = format_recommendation song (euclidean p x)
           /\ similarity_score rec = (1 - euclidean p x)%R
           /\ (similarity_score rec <= 1)%R
           /\ ((0 <= similarity_score rec)%R <-> (euclidean p x <= 1)%R)) recs.
Proof.
  intro H. apply submit_ok_inv in H
    as (knn & df & sf & p & dists & idxs & rated & Hr & Hp & Hkn & Hs & Hl & _ & _).
  exists knn, df, sf, p. split; [exact Hr|]. split; [exact Hp|].
  apply kneighbors_inv in Hkn as [-> ->].
  eapply recommend_loop_paired; [| constructor | exact Hl].
  intros i label song d Hlabel Hsong _ Hd.
  rewrite combine_map_pairs in Hd.
  apply in_map_iff in Hd as (q & [= <- <-] & Hq).
  apply nearest_in in Hq as (x & Hn & Hsq & _).
  exists (fst q), label, song, x.
  split; [exact Hlabel|]. split; [exact Hsong|]. split; [exact Hn|].
  split.
  { intro Hc. rewrite (index_over_features _ _ _ Hc) in Hn.
    unfold vectorOf.
    rewrite (position_of_nth _ _ _ (labels_unique _ _ _ (store_ok _ _ _ Hc)) Hlabel).
    exact Hn. }
  unfold euclidean. rewrite <- Hsq. cbn [similarity_score format_recommendation].
  pose proof (sqrt_pos (R_of_Qc (snd q))).
  split; [reflexivity|]. split; [reflexivity|]. split; [lra|]. split; lra.
Qed.

Lemma similarity_is_one_minus_distance_witness :
  exists recs c b,
    submit_ratings_and_recommend demo_globals (demo_request [rate 100 5] 2) = Ok200 recs c b
    /\ exists knn df sf p,
         ready demo_globals knn df sf
         /\ profile_builder df sf [rate 100 5] = Value p
         /\ Forall (fun rec =>
              exists i label song x,
                nth_error (df_labels df) i = Some label
                /\ nth_error (df_rows df) i = Some song
                /\ nth_error (fit_X knn) i = Some x
                /\ (coherent knn df sf -> vectorOf df sf label = Some x)
                /\ rec = format_recommendation song (euclidean p x)
                /\ similarity_score rec = (1 - euclidean p x)%R
                /\ (similarity_score rec <= 1)%R
                /\ ((0 <= similarity_score rec)%R <-> (euclidean p x <= 1)%R)) recs.
Proof.
  do 3 eexists. split.
  - run_endpoint.
  - eapply (similarity_is_one_minus_distance demo_globals (demo_request [rate 100 5] 2)).
    run_endpoint.
Defined.

(** C6 as specified does not hold: item 103 rated 5 puts the profile on
    the vector of that item, four neighbours are asked of the five items,
    and the second recommendation, item 101, lies at distance [sqrt 41]:
    its similarity score is negative. *)
Lemma similarity_below_zero :
  exists recs c b,
    submit_ratings_and_recommend demo_globals (demo_request [rate 103 5] 2) = Ok200 recs c b
    /\ ~ Forall (fun rec => (0 <= similarity_score rec <= 1)%R) recs.
Proof.
  do 3 eexists. split.
  - run_endpoint.
  - intro HF. apply Forall_inv_tail, Forall_inv in HF.
    cbn [similarity_score] in HF. destruct HF as [HF _].
    unfold R_of_Qc, Q2R in HF. cbn [this Qnum Qden] in HF.
    assert (Hs : (sqrt 1 < sqrt (41 * / 1))%R) by (apply sqrt_lt_1_alt; lra).
    rewrite sqrt_1 in Hs. lra.
Qed.

(** C7. For a query of the right length and [k] of at least 1 the index
    answers with exactly [min k n] distinct catalog positions, each with
    its Euclidean distance to the query, in non-decreasing order of
    distance with the earlier position first among equally distant
    entries, and no entry it leaves out is closer than one it returns;
    the similarity scores of a successful answer of the endpoint are
    therefore in non-increasing order. *)
Theorem index_and_answer_ordered (knn : Knn) (X : vec) (k : Z)
  (g : Globals) (req : Request) (recs : list Recommendation) (c b : nat) :
  (1 <= k -> length X = n_features_in knn ->
   exists dists idxs,
     kneighbors knn X k = Value (dists, idxs)
     /\ length idxs = Nat.min (Z.to_nat k) (length (fit_X knn))
     /\ length dists = length idxs
     /\ NoDup idxs
     /\ Forall2 (fun i d => exists x, nth_error (fit_X knn) i = Some x /\ d = euclidean X x)
                idxs dists
     /\ non_decreasing dists
     /\ StronglySorted ranked_before (combine idxs dists)
     /\ (forall j x, nth_error (fit_X knn) j = Some x -> ~ In j idxs ->
         Forall (fun d => (d <= euclidean X x)%R) dists))
  /\ (submit_ratings_and_recommend g req = Ok200 recs c b ->
      non_increasing (map similarity_score recs)).
Proof.
  split.
  - intros Hk HX. do 2 eexists. split; [apply kneighbors_value; assumption|].
    split; [rewrite length_map; apply nearest_length|].
    split; [rewrite !length_map; reflexivity|].
    split; [apply nearest_nodup|].
    split; [|split; [apply nearest_distances_sorted|];
             split; [apply nearest_ranked | apply nearest_closest]].
    apply Forall2_of_map, Forall_forall. intros q Hq.
    apply nearest_in in Hq as (x & Hn & Hs & _). exists x. split; [exact Hn|].
    unfold euclidean. rewrite Hs. reflexivity.
  - intro H. apply submit_ok_inv in H
      as (knn' & df & sf & p & dists & idxs & rated & Hr & Hp & Hkn & Hs & Hl & _ & _).
    apply kneighbors_inv in Hkn as [-> _].
    apply (recommend_loop_sorted df rated (top_k_of req) idxs _ [] recs
             (nearest_distances_sorted knn' p (top_k_of req * 2)));
      [constructor | intros a d [] | exact Hl].
Qed.

Lemma index_and_answer_ordered_witness :
  (exists dists idxs,
     kneighbors demo_knn (point 0 0) 7 = Value (dists, idxs)
     /\ length idxs = 5%nat
     /\ length dists = length idxs
     /\ NoDup idxs
     /\ Forall2 (fun i d => exists x, nth_error demo_features i = Some x
                                      /\ d = euclidean (point 0 0) x) idxs dists
     /\ non_decreasing dists
     /\ StronglySorted ranked_before (combine idxs dists)
     /\ (forall j x, nth_error demo_features j = Some x -> ~ In j idxs ->
         Forall (fun d => (d <= euclidean (point 0 0) x)%R) dists))
  /\ exists recs c b,
       submit_ratings_and_recommend demo_globals (demo_request [rate 100 5] 3) = Ok200 recs c b
       /\ non_increasing (map similarity_score recs).
Proof.
  split.
  - apply (index_and_answer_ordered demo_knn (point 0 0) 7 demo_globals
             (demo_request [rate 100 5] 3) [] 0 0); [lia | reflexivity].
  - do 3 eexists. split.
    + run_endpoint.
    + eapply (index_and_answer_ordered demo_knn (point 0 0) 7 demo_globals
               (demo_request [rate 100 5] 3)).
      run_endpoint.
Defined.



(** The two orders of one batch in binary64: 0.20000000000000004 one
    way, 0.19999999999999998 the other. *)
Example tenths_forward :
  profile_builder_f64 tenths_frame tenths_features [rate 300 4; rate 301 4; rate 302 4]
  = Value [dbl 7205759403792795 (-55); Qc_of_Z 2].
Proof.
  vm_compute. apply f_equal.
  apply f_equal2; [apply Qc_is_canon; reflexivity|].
  apply f_equal2; [apply Qc_is_canon; reflexivity | reflexivity].
Qed.

Example tenths_backward :
  profile_builder_f64 tenths_frame tenths_features [rate 302 4; rate 301 4; rate 300 4]
  = Value [dbl 7205759403792793 (-55); Qc_of_Z 2].
Proof.
  vm_compute. apply f_equal.
  apply f_equal2; [apply Qc_is_canon; reflexivity|].
  apply f_equal2; [apply Qc_is_canon; reflexivity | reflexivity].
Qed.

(** For this batch twice the tolerance is below [10 ^ -15]. *)
Example tenths_tolerance :
  (2 * tolerance 0 (surviving tenths_frame tenths_features
                      [rate 300 4; rate 301 4; rate 302 4]) <= / 10 ^ 15)%R.
Proof.
  assert (E : surviving tenths_frame tenths_features [rate 300 4; rate 301 4; rate 302 4]
              = [([dbl 3602879701896397 (-55); Qc_of_Z 1], 1);
                 ([dbl 3602879701896397 (-54); Qc_of_Z 2], 1);
                 ([dbl 5404319552844595 (-54); Qc_of_Z 3], 1)]) by reflexivity.
  rewrite E. unfold tolerance, abs_weighted_sum_at, gamma, u64, total_weight.
  cbn [length fold_right map fst snd nth Nat.add Z.add].
  unfold R_of_Qc, Q2R.
  replace (this (dbl 3602879701896397 (-55))) with (3602879701896397 # 36028797018963968)%Q
    by (vm_compute; reflexivity).
  replace (this (dbl 3602879701896397 (-54))) with (3602879701896397 # 18014398509481984)%Q
    by (vm_compute; reflexivity).
  replace (this (dbl 5404319552844595 (-54))) with (5404319552844595 # 18014398509481984)%Q
    by (vm_compute; reflexivity).
  cbn [Qnum Qden].
  rewrite !Rmult_1_l.
  change (Z.pos (1 + (1 + 1))) with 3%Z.
  rewrite !Rabs_pos_eq by lra.
  lra.
Qed.


(** C9, as the code has it.  Before any load, and after a load that
    stopped before the model, the scaler, the frame and the feature
    matrix were all assigned, every query is answered 503 without
    computing anything; a query gets past the guard exactly when these
    four were loaded, which a successful load always achieves. *)
Theorem unavailable_until_loaded (fs : Artifacts) (req : Request) :
  service_unavailable (submit_ratings_and_recommend initial_globals req)
  /\ (service_unavailable
        (submit_ratings_and_recommend (fst (load_recommender_models fs initial_globals)) req)
      <-> loaded_for_queries fs = false)
  /\ (snd (load_recommender_models fs initial_globals) = true ->
      loaded_for_queries fs = true).
Proof.
  split; [reflexivity|]. split; [|apply load_success].
  split.
  - intro H503. destruct (loaded_for_queries fs) eqn:Hl; [|reflexivity]. exfalso.
    rewrite <- load_initialized in Hl.
    destruct (initialized_ready _ Hl) as (knn & df & sf & Hr).
    unfold service_unavailable in H503. rewrite (submit_ready _ _ _ _ _ Hr) in H503.
    destruct (handled_answer knn df sf req) as [(recs & c & b & H)|[[m H]|H]];
      rewrite H in H503; discriminate.
  - intro H. apply submit_not_initialized. rewrite load_initialized. exact H.
Qed.

Lemma unavailable_until_loaded_witness :
  loaded_for_queries (mkArtifacts (Some demo_knn) None (Some demo_data)) = false
  /\ service_unavailable
       (submit_ratings_and_recommend
          (fst (load_recommender_models (mkArtifacts (Some demo_knn) None (Some demo_data))
                                        initial_globals))
          (demo_request [rate 100 5] 2))
  /\ snd (load_recommender_models demo_artifacts initial_globals) = true
  /\ loaded_for_queries demo_artifacts = true.
Proof.
  split; [reflexivity|]. split.
  - apply (unavailable_until_loaded (mkArtifacts (Some demo_knn) None (Some demo_data))).
    reflexivity.
  - split; [reflexivity|].
    apply (unavailable_until_loaded demo_artifacts (demo_request [rate 100 5] 2)).
    reflexivity.
Defined.

(** C9 as specified does not hold: a load that breaks on the missing
    [feature_cols] entry reports failure, yet the next query is served. *)
Lemma failed_load_still_serves :
  snd (load_recommender_models artifacts_without_cols initial_globals) = false
  /\ exists recs c b,
       submit_ratings_and_recommend
         (fst (load_recommender_models artifacts_without_cols initial_globals))
         (demo_request [rate 100 5] 2)
       = Ok200 recs c b.
Proof.
  split; [reflexivity|]. do 3 eexists. run_endpoint.
Qed.

(** C10. A batch with a valid rating of a known identity and with a
    rating object without the ['df_index'] key: the rating loop passes
    over the malformed object, the set of rated labels raises [KeyError]
    on it, and the whole request gets the generic 500 error. *)
Theorem missing_df_index_aborts (g : Globals) (knn : Knn) (df : DataFrame)
  (sf : list vec) (req : Request) :
  ready g knn df sf ->
  (exists r, In r (ratings_of req) /\ valid_known df r) ->
  (exists r, In r (ratings_of req) /\ r_df_index r = Absent) ->
  collect_rated df sf (filter has_df_index (ratings_of req)) [] []
  = collect_rated df sf (ratings_of req) [] []
  /\ rated_set (ratings_of req) = Raise KeyError
  /\ generic_internal_failure (submit_ratings_and_recommend g req).
Proof.
  intros Hr Hv Ha. set (ratings := ratings_of req) in *.
  split; [|split].
  - apply collect_rated_filter. intros r Hk. apply rate_entry_not_kept.
    revert Hk. unfold has_df_index, kept. destruct (r_df_index r); simpl; congruence.
  - apply rated_set_absent, Ha.
  - unfold generic_internal_failure. rewrite (submit_ready _ _ _ _ _ Hr).
    unfold recommend_body. fold ratings.
    destruct (profile_builder df sf ratings) as [p|resp|e] eqn:Hp; cbn [bind handle]; trivial.
    + destruct (kneighbors knn p _) as [[dists idxs]|resp|e] eqn:Hk; cbn [bind handle]; trivial.
      * rewrite (rated_set_absent _ Ha). reflexivity.
      * exfalso. eapply kneighbors_no_return; eauto.
    + exfalso. eapply builder_outcome_of_valid; eauto.
Qed.

Lemma missing_df_index_aborts_witness :
  collect_rated demo_frame demo_features
    (filter has_df_index [rate 101 5; mkRating Absent (Val 4)]) [] []
  = collect_rated demo_frame demo_features [rate 101 5; mkRating Absent (Val 4)] [] []
  /\ rated_set [rate 101 5; mkRating Absent (Val 4)] = Raise KeyError
  /\ generic_internal_failure
       (submit_ratings_and_recommend demo_globals
          (demo_request [rate 101 5; mkRating Absent (Val 4)] 2)).
Proof.
  apply (missing_df_index_aborts demo_globals demo_knn demo_frame demo_features
           (demo_request [rate 101 5; mkRating Absent (Val 4)] 2)).
  - exact demo_ready.
  - exists (rate 101 5). split; [left; reflexivity|]. exists 101, 5. repeat split.
  - exists (mkRating Absent (Val 4)). split; [right; left; reflexivity | reflexivity].
Defined.

(** * Further properties of the service *)

(** ** Integers among the rationals *)

Lemma Qc_of_Z_mult (a b : Z) : Qc_of_Z (a * b) = Qcmult (Qc_of_Z a) (Qc_of_Z b).
Proof.
  apply Qc_is_canon. unfold Qc_of_Z. cbn [this Qcmult Q2Qc].
  rewrite !Qred_correct, inject_Z_mult. reflexivity.
Qed.

Lemma Qc_of_Z_nonzero (a : Z) : a <> 0 -> Qc_of_Z a <> 0%Qc.
Proof.
  intros Ha H. apply Ha. apply (f_equal this) in H. unfold Qc_of_Z in H.
  cbn [this Q2Qc] in H.
  assert (E : Qeq (inject_Z a) 0).
  { rewrite <- (Qred_correct (inject_Z a)), H. reflexivity. }
  unfold Qeq, inject_Z in E. simpl in E. lia.
Qed.

(** ** Rescaled weights *)

Lemma vscale_vscale (v : vec) (a b : Qc) :
  vscale (vscale v a) b = vscale v (Qcmult a b).
Proof.
  unfold vscale. rewrite map_map. apply map_ext. intro x. ring.
Qed.

Lemma vadd_vscale (u v : vec) (a : Qc) :
  vadd (vscale u a) (vscale v a) = vscale (vadd u v) a.
Proof.
  revert v. induction u as [|x u IH]; intros [|y v]; simpl; trivial.
  unfold vadd in *. simpl. f_equal; [ring | apply IH].
Qed.

Lemma vsum_vscale (rows : list vec) (a : Qc) :
  vsum (map (fun v => vscale v a) rows) = vscale (vsum rows) a.
Proof.
  destruct rows as [|r rows]; [reflexivity|]. simpl.
  revert r. induction rows as [|s rows IH]; intro r; simpl; [reflexivity|].
  rewrite vadd_vscale. apply IH.
Qed.

Lemma total_weight_rescale (c : Z) (items : list (vec * Z)) :
  total_weight (map (fun p : vec * Z => (fst p, c * snd p)) items) = c * total_weight items.
Proof.
  unfold total_weight. induction items as [|p items IH]; simpl; [lia|].
  rewrite IH. lia.
Qed.

Lemma np_average_rescale (c : Z) (items : list (vec * Z)) :
  c <> 0 ->
  np_average (map fst (map (fun p : vec * Z => (fst p, c * snd p)) items))
             (map snd (map (fun p : vec * Z => (fst p, c * snd p)) items))
  = np_average (map fst items) (map snd items).
Proof.
  intro Hc. unfold np_average.
  rewrite !length_map, !Nat.eqb_refl, !zsum_total, !weigh_rows_pairs, total_weight_rescale.
  cbn [negb].
  destruct (Z.eqb_spec (total_weight items) 0) as [HW|HW].
  - rewrite HW, Z.mul_0_r. reflexivity.
  - destruct (Z.eqb_spec (c * total_weight items) 0) as [H0|_]; [lia|].
    apply f_equal. rewrite map_map. cbn [fst snd].
    rewrite (map_ext (fun p : vec * Z => vscale (fst p) (Qc_of_Z (c * snd p)))
                     (fun p : vec * Z =>
                        vscale (vscale (fst p) (Qc_of_Z (snd p))) (Qc_of_Z c))).
    2:{ intro p. rewrite vscale_vscale, Qc_of_Z_mult. f_equal. ring. }
    rewrite <- (map_map (fun p : vec * Z => vscale (fst p) (Qc_of_Z (snd p)))
                        (fun v => vscale v (Qc_of_Z c))).
    rewrite vsum_vscale. unfold vscale at 1. rewrite map_map.
    apply map_ext. intro x. rewrite Qc_of_Z_mult.
    pose proof (Qc_of_Z_nonzero _ Hc). pose proof (Qc_of_Z_nonzero _ HW).
    field. split; assumption.
Qed.

Lemma rate_entry_rescale (c : Z) (df : DataFrame) (sf : list vec) (r : RatingObj) :
  rate_entry df sf (rescale_rating c r)
  = match rate_entry df sf r with
    | Value (Some p) => Value (Some (fst p, c * snd p))
    | other => other
    end.
Proof.
  unfold rate_entry, rescale_rating. cbn [r_df_index r_rating].
  destruct (r_df_index r) as [| |l]; cbn [get]; trivial.
  destruct (r_rating r) as [| |s]; cbn [get]; trivial.
  destruct (label_in df l); trivial.
  destruct (get_loc df l) as [loc| |]; cbn [bind]; trivial.
  destruct (subscript sf loc); cbn [bind fst snd]; trivial.
  do 3 f_equal. lia.
Qed.

Lemma entry_pairs_rescale (c : Z) (df : DataFrame) (sf : list vec) (ratings : list RatingObj) :
  flat_map (entry_pairs df sf) (map (rescale_rating c) ratings)
  = map (fun p : vec * Z => (fst p, c * snd p)) (flat_map (entry_pairs df sf) ratings).
Proof.
  induction ratings as [|r rest IH]; [reflexivity|].
  cbn [map flat_map]. rewrite map_app, IH. f_equal.
  unfold entry_pairs. rewrite rate_entry_rescale.
  destruct (rate_entry df sf r) as [[p|]| |]; reflexivity.
Qed.

Lemma entry_raises_rescale (c : Z) (df : DataFrame) (sf : list vec) (ratings : list RatingObj) :
  existsb (entry_raises df sf) (map (rescale_rating c) ratings)
  = existsb (entry_raises df sf) ratings.
Proof.
  induction ratings as [|r rest IH]; [reflexivity|].
  cbn [map existsb]. rewrite IH. f_equal.
  unfold entry_raises. rewrite rate_entry_rescale.
  destruct (rate_entry df sf r) as [[p|]| |]; reflexivity.
Qed.

(** ** Flipped scores in binary64 *)

Lemma Qc_of_Z_opp (z : Z) : Qc_of_Z (- z) = (- Qc_of_Z z)%Qc.
Proof.
  apply Qc_is_canon. unfold Qc_of_Z. cbn [this Qcopp Q2Qc].
  rewrite !Qred_correct, inject_Z_opp. reflexivity.
Qed.

Lemma f64_of_int_opp (z : Z) : f64_of_int (- z) = (- f64_of_int z)%Qc.
Proof. unfold f64_of_int. rewrite Qc_of_Z_opp. apply f64_opp. Qed.

Lemma f64_add_opp (a b : Qc) : f64_add (- a) (- b) = (- f64_add a b)%Qc.
Proof.
  unfold f64_add. rewrite <- f64_opp. f_equal. ring.
Qed.

Lemma f64_mul_opp (x w : Qc) : f64_mul x (- w) = (- f64_mul x w)%Qc.
Proof.
  unfold f64_mul. rewrite <- f64_opp. f_equal. ring.
Qed.

Lemma f64_div_opp (x s : Qc) : s <> 0%Qc -> f64_div (- x) (- s) = f64_div x s.
Proof.
  intro Hs. unfold f64_div. f_equal. field. split; [exact Hs|].
  intro H. apply Hs. rewrite <- (Qcopp_involutive s), H. apply Qc_is_canon. reflexivity.
Qed.

Lemma fold_f64_add_opp (xs : list Qc) (a : Qc) :
  fold_left f64_add (map Qcopp xs) (- a)%Qc = (- fold_left f64_add xs a)%Qc.
Proof.
  revert a. induction xs as [|x xs IH]; intro a; [reflexivity|].
  cbn [map fold_left]. rewrite f64_add_opp. apply IH.
Qed.

Lemma sum_f64_opp (xs : list Qc) : sum_f64 (map Qcopp xs) = (- sum_f64 xs)%Qc.
Proof.
  destruct xs as [|x xs]; [apply Qc_is_canon; reflexivity|].
  cbn [map sum_f64]. apply fold_f64_add_opp.
Qed.

Lemma vadd_f64_opp (u v : vec) :
  vadd_f64 (map Qcopp u) (map Qcopp v) = map Qcopp (vadd_f64 u v).
Proof.
  unfold vadd_f64. revert v. induction u as [|x u IH]; intros [|y v]; simpl; trivial.
  rewrite f64_add_opp, IH. reflexivity.
Qed.

Lemma vsum_f64_opp (rows : list vec) :
  vsum_f64 (map (map Qcopp) rows) = map Qcopp (vsum_f64 rows).
Proof.
  destruct rows as [|r rows]; [reflexivity|]. cbn [map vsum_f64].
  revert r. induction rows as [|s rows IH]; intro r; [reflexivity|].
  cbn [map fold_left]. rewrite vadd_f64_opp. apply IH.
Qed.

Lemma Qc_eq_bool_opp (s : Qc) : Qc_eq_bool (- s) 0%Qc = Qc_eq_bool s 0%Qc.
Proof.
  destruct (Qc_eq_bool s 0%Qc) eqn:E.
  - apply Qc_eq_bool_correct in E. subst s. reflexivity.
  - destruct (Qc_eq_bool (- s) 0%Qc) eqn:E'; [|reflexivity].
    apply Qc_eq_bool_correct in E'.
    assert (Hs : s = 0%Qc) by (rewrite <- (Qcopp_involutive s), E'; reflexivity).
    subst s. discriminate.
Qed.

Lemma np_average_f64_flip (items : list (vec * Z)) :
  np_average_f64 (map fst (map (fun p : vec * Z => (fst p, -1 * snd p)) items))
                 (map snd (map (fun p : vec * Z => (fst p, -1 * snd p)) items))
  = np_average_f64 (map fst items) (map snd items).
Proof.
  unfold np_average_f64. rewrite !length_map, !Nat.eqb_refl. cbn [negb].
  rewrite !weigh_rows_f64_pairs, !map_map. cbn [fst snd].
  assert (Hs : sum_f64 (map (fun p : vec * Z => f64_of_int (-1 * snd p)) items)
               = (- sum_f64 (map (fun p : vec * Z => f64_of_int (snd p)) items))%Qc).
  { rewrite <- sum_f64_opp, map_map. f_equal. apply map_ext. intro p.
    replace (-1 * snd p) with (- snd p) by lia. apply f64_of_int_opp. }
  rewrite Hs, Qc_eq_bool_opp.
  destruct (Qc_eq_bool (sum_f64 _) 0%Qc) eqn:E; [reflexivity|].
  assert (Hnz : sum_f64 (map (fun p : vec * Z => f64_of_int (snd p)) items) <> 0%Qc).
  { intro H0. rewrite H0 in E. discriminate. }
  f_equal.
  assert (Hr : map (fun p : vec * Z => map (fun x => f64_mul x (f64_of_int (-1 * snd p))) (fst p))
                   items
               = map (map Qcopp)
                     (map (fun p : vec * Z => map (fun x => f64_mul x (f64_of_int (snd p))) (fst p))
                          items)).
  { rewrite map_map. apply map_ext. intro p. rewrite map_map. apply map_ext. intro x.
    replace (-1 * snd p) with (- snd p) by lia.
    rewrite f64_of_int_opp. apply f64_mul_opp. }
  rewrite Hr, vsum_f64_opp, map_map. apply map_ext. intro x.
  apply f64_div_opp, Hnz.
Qed.

Lemma rated_set_rescale (c : Z) (ratings : list RatingObj) :
  rated_set (map (rescale_rating c) ratings) = rated_set ratings.
Proof.
  induction ratings as [|r rest IH]; [reflexivity|].
  cbn [map rated_set rescale_rating r_df_index]. rewrite IH. reflexivity.
Qed.


(** ** The grid of binary64 *)

Lemma log2_bracket_above (x : Q) :
  (0 < x)%Q ->
  (x < 2 ^ (Z.log2 (Qnum x) - Z.log2 (Zpos (Qden x)) + 1))%Q.
Proof.
  intro Hx. destruct x as [p q]. cbn [Qnum Qden].
  assert (Hp : 0 < p) by (unfold Qlt in Hx; cbn in Hx; lia).
  pose proof (Z.log2_spec p Hp) as [_ Hp2].
  pose proof (Z.log2_spec (Zpos q) (Pos2Z.is_pos q)) as [Hq1 _].
  pose proof (Z.log2_nonneg p) as Hlp. pose proof (Z.log2_nonneg (Zpos q)) as Hlq.
  replace (Z.log2 p - Z.log2 (Zpos q) + 1) with (Z.succ (Z.log2 p) - Z.log2 (Zpos q)) by lia.
  rewrite (Qpower_minus 2 _ _ two_nonzero).
  rewrite (pow2_nat (Z.succ (Z.log2 p))) by lia.
  rewrite (pow2_nat (Z.log2 (Zpos q))) by lia.
  set (a := 2 ^ Z.succ (Z.log2 p)) in *. set (b := 2 ^ Z.log2 (Zpos q)) in *.
  assert (Hb : 0 < b) by (subst b; apply Z.pow_pos_nonneg; lia).
  apply Qlt_shift_div_l; [unfold Qlt, inject_Z; cbn; lia|].
  unfold Qlt, Qmult, inject_Z. cbn [Qnum Qden].
  rewrite Z.mul_1_r, Pos.mul_1_r.
  apply Z.lt_le_trans with (a * b); [apply Z.mul_lt_mono_pos_r; lia|].
  apply Z.mul_le_mono_nonneg_l; lia.
Qed.

Lemma grid_exponent_above (x : Q) :
  (0 < x)%Q -> (x < 2 ^ 53 * 2 ^ grid_exponent x)%Q.
Proof.
  intro Hx. unfold grid_exponent.
  set (e := Z.log2 (Qnum x) - Z.log2 (Zpos (Qden x))).
  destruct (Qle_bool (2 ^ e) x) eqn:Ht.
  - rewrite <- (Qpower_plus 2 53 (e - 52) two_nonzero).
    replace (53 + (e - 52)) with (e + 1) by lia. apply log2_bracket_above, Hx.
  - rewrite <- (Qpower_plus 2 53 (e - 53) two_nonzero).
    replace (53 + (e - 53)) with e by lia.
    apply Qnot_le_lt. intro Hle. apply Qle_bool_iff in Hle. congruence.
Qed.

Lemma grid_exponent_unique (x : Q) (e : Z) :
  (0 < x)%Q ->
  (2 ^ 52 * 2 ^ e <= x)%Q -> (x < 2 ^ 53 * 2 ^ e)%Q ->
  grid_exponent x = e.
Proof.
  intros Hx Hlo Hhi.
  pose proof (grid_exponent_spec x Hx) as Glo. pose proof (grid_exponent_above x Hx) as Ghi.
  set (a := grid_exponent x) in *.
  rewrite <- (Qpower_plus 2 52 e two_nonzero) in Hlo.
  rewrite <- (Qpower_plus 2 52 a two_nonzero) in Glo.
  rewrite <- (Qpower_plus 2 53 e two_nonzero) in Hhi.
  rewrite <- (Qpower_plus 2 53 a two_nonzero) in Ghi.
  assert (H1 : 52 + a < 53 + e).
  { apply (Qpower_lt_compat_l_inv 2); [|reflexivity].
    eapply Qle_lt_trans; eassumption. }
  assert (H2 : 52 + e < 53 + a).
  { apply (Qpower_lt_compat_l_inv 2); [|reflexivity].
    eapply Qle_lt_trans; eassumption. }
  lia.
Qed.

Lemma round_positive_comp (x y : Q) :
  (0 < x)%Q -> (x == y)%Q -> (round_positive x == round_positive y)%Q.
Proof.
  intros Hx Hxy.
  assert (Hy : (0 < y)%Q) by (rewrite <- Hxy; exact Hx).
  assert (He : grid_exponent y = grid_exponent x).
  { apply grid_exponent_unique; [exact Hy | rewrite <- Hxy | rewrite <- Hxy].
    - apply grid_exponent_spec, Hx.
    - apply grid_exponent_above, Hx. }
  unfold round_positive. rewrite He.
  rewrite (round_half_even_comp (y / 2 ^ grid_exponent x) (x / 2 ^ grid_exponent x));
    [reflexivity|].
  apply Qdiv_comp; [symmetry; exact Hxy | reflexivity].
Qed.

Lemma round_positive_double (x : Q) :
  (0 < x)%Q -> (round_positive (x * 2) == round_positive x * 2)%Q.
Proof.
  intro Hx.
  assert (Hx2 : (0 < x * 2)%Q) by Lqa.lra.
  pose proof (grid_exponent_spec x Hx) as Glo. pose proof (grid_exponent_above x Hx) as Ghi.
  assert (Hp : (2 ^ (grid_exponent x + 1) == 2 ^ grid_exponent x * 2)%Q).
  { rewrite (Qpower_plus 2 _ _ two_nonzero). reflexivity. }
  assert (He : grid_exponent (x * 2) = grid_exponent x + 1).
  { apply grid_exponent_unique; [exact Hx2 | |]; rewrite Hp.
    - set (t := (2 ^ grid_exponent x)%Q) in *. set (c := (2 ^ 52)%Q) in *. Lqa.lra.
    - set (t := (2 ^ grid_exponent x)%Q) in *. set (c := (2 ^ 53)%Q) in *. Lqa.lra. }
  unfold round_positive. rewrite He.
  pose proof (pow2_pos (grid_exponent x)) as Ht.
  rewrite (round_half_even_comp (x * 2 / 2 ^ (grid_exponent x + 1)) (x / 2 ^ grid_exponent x)).
  - rewrite Hp. ring.
  - rewrite Hp. field. Lqa.lra.
Qed.

Lemma round53_comp (x y : Q) : (x == y)%Q -> (round53 x == round53 y)%Q.
Proof.
  intro Hxy. destruct x as [n d], y as [n' d'].
  assert (Hs : n * Zpos d' = n' * Zpos d) by exact Hxy.
  unfold round53. cbn [Qnum].
  destruct n as [|p|p], n' as [|p'|p']; try lia; try reflexivity.
  - apply round_positive_comp; [reflexivity | exact Hxy].
  - apply Qopp_comp. apply round_positive_comp; [reflexivity|].
    rewrite Hxy. reflexivity.
Qed.

Lemma round53_double (x : Q) : (round53 (x * 2) == round53 x * 2)%Q.
Proof.
  destruct x as [n d]. destruct n as [|p|p].
  - reflexivity.
  - unfold round53 at 2. cbn [Qnum].
    rewrite <- (round_positive_double (Z.pos p # d)) by reflexivity.
    reflexivity.
  - unfold round53 at 2. cbn [Qnum].
    assert (H : (round53 ((Z.neg p # d) * 2) == - round_positive ((Z.pos p # d) * 2))%Q)
      by reflexivity.
    rewrite H, (round_positive_double (Z.pos p # d)) by reflexivity.
    change (- (Z.neg p # d))%Q with (Z.pos p # d). ring.
Qed.

Lemma f64_double (x : Qc) : f64 (x * Qc_of_Z 2) = (f64 x * Qc_of_Z 2)%Qc.
Proof.
  apply Qc_is_canon. unfold f64. cbn [this Qcmult Q2Qc].
  rewrite this_Qc_of_Z, !Qred_correct.
  rewrite (round53_comp _ _ (Qred_correct _)), !Qred_correct.
  apply round53_double.
Qed.

Lemma weigh_and_divide (x : Qc) (w : Z) :
  representable x -> 1 <= Z.abs w <= 2 ->
  f64_div (f64_mul x (f64_of_int w)) (f64_of_int w) = x.
Proof.
  intros Hx Hw. unfold representable in Hx.
  assert (Hcases : w = 1 \/ w = -1 \/ w = 2 \/ w = -2) by lia.
  unfold f64_of_int. rewrite (f64_integer w) by lia.
  unfold f64_div, f64_mul.
  destruct Hcases as [ -> | [ -> | [ -> | -> ] ] ].
  - change (Qc_of_Z 1) with 1%Qc.
    replace (x * 1)%Qc with x by ring. rewrite Hx.
    replace (x / 1)%Qc with x by (field; discriminate). exact Hx.
  - change (Qc_of_Z (-1)) with (- (1))%Qc.
    replace (x * - (1))%Qc with (- x)%Qc by ring. rewrite f64_opp, Hx.
    replace (- x / - (1))%Qc with x by (field; discriminate). exact Hx.
  - rewrite f64_double, Hx.
    replace (x * Qc_of_Z 2 / Qc_of_Z 2)%Qc with x by (field; discriminate). exact Hx.
  - change (Qc_of_Z (-2)) with (- Qc_of_Z 2)%Qc.
    replace (x * - Qc_of_Z 2)%Qc with (- (x * Qc_of_Z 2))%Qc by ring.
    rewrite f64_opp, f64_double, Hx.
    replace (- (x * Qc_of_Z 2) / - Qc_of_Z 2)%Qc with x by (field; discriminate). exact Hx.
Qed.



(** X3. For artifact files in which every entry is either missing or a
    proper object, which are the files that [Artifacts] describes (a
    pickled [None], or a data dictionary with a [None] under one of its
    keys, is not among them), a load never takes the service out of
    service: a state that passed the guard of the endpoint before the
    load passes it afterwards, also when the load fails half way. *)
Theorem load_keeps_initialized (fs : Artifacts) (g : Globals) :
  initialized g = true ->
  initialized (fst (load_recommender_models fs g)) = true.
Proof.
  destruct g as [k s rd df sf fc]. unfold initialized, load_recommender_models.
  cbn [forallb knn_model scaler recommender_df scaled_features].
  destruct k; [|discriminate]. destruct s; [|discriminate].
  destruct df; [|discriminate]. destruct sf; [|discriminate].
  intros _.
  destruct (knn_pkl fs); [|reflexivity].
  destruct (scaler_pkl fs); [|reflexivity].
  destruct (data_pkl fs) as [dict|]; [|reflexivity].
  destruct (dd_df dict); [|reflexivity].
  destruct (dd_scaled_features dict); [|reflexivity].
  destruct (dd_feature_cols dict); reflexivity.
Qed.

Lemma load_keeps_initialized_witness :
  initialized
    (fst (load_recommender_models (mkArtifacts None None None) demo_globals)) = true.
Proof.
  apply (load_keeps_initialized (mkArtifacts None None None) demo_globals). reflexivity.
Defined.

(** X4. Loading the same artifacts a second time changes nothing: the
    globals and the answer of the second load are those of the first. *)
Theorem load_twice (fs : Artifacts) (g : Globals) :
  load_recommender_models fs (fst (load_recommender_models fs g))
  = load_recommender_models fs g.
Proof.
  unfold load_recommender_models.
  destruct (knn_pkl fs); [|reflexivity].
  destruct (scaler_pkl fs); [|reflexivity].
  destruct (data_pkl fs) as [d|]; [|reflexivity].
  destruct (dd_df d); [|reflexivity].
  destruct (dd_scaled_features d); [|reflexivity].
  destruct (dd_feature_cols d); reflexivity.
Qed.

(** X5. A load that answers [True] has replaced all six globals by the
    contents of the artifacts, so the state it leaves does not depend on
    the state it started from. *)
Theorem successful_load_installs_artifacts (fs : Artifacts) (g : Globals) :
  snd (load_recommender_models fs g) = true ->
  exists d,
    data_pkl fs = Some d
    /\ fst (load_recommender_models fs g)
       = mkGlobals (knn_pkl fs) (scaler_pkl fs) (Some d)
                   (dd_df d) (dd_scaled_features d) (dd_feature_cols d)
    /\ fst (load_recommender_models fs g)
       = fst (load_recommender_models fs initial_globals).
Proof.
  unfold load_recommender_models.
  destruct (knn_pkl fs); [|discriminate].
  destruct (scaler_pkl fs); [|discriminate].
  destruct (data_pkl fs) as [d|]; [|discriminate].
  destruct (dd_df d) eqn:E1; [|discriminate].
  destruct (dd_scaled_features d) eqn:E2; [|discriminate].
  destruct (dd_feature_cols d) eqn:E3; [|discriminate].
  intros _. exists d. rewrite E1, E2, E3. repeat split.
Qed.

Lemma successful_load_installs_artifacts_witness :
  fst (load_recommender_models demo_artifacts
         (fst (load_recommender_models artifacts_without_cols initial_globals)))
  = fst (load_recommender_models demo_artifacts initial_globals).
Proof.
  destruct (successful_load_installs_artifacts demo_artifacts
              (fst (load_recommender_models artifacts_without_cols initial_globals)))
    as (d & _ & _ & H).
  - reflexivity.
  - exact H.
Defined.

(** X6. A reload that finds the model file but not the scaler file
    answers [False] and is not rolled back: the service stays ready, now
    with the new model over the frame and the features it had before. *)
Theorem failed_reload_keeps_new_model (fs : Artifacts) (g : Globals)
  (knn knn' : Knn) (df : DataFrame) (sf : list vec) :
  ready g knn df sf ->
  knn_pkl fs = Some knn' ->
  scaler_pkl fs = None ->
  snd (load_recommender_models fs g) = false
  /\ ready (fst (load_recommender_models fs g)) knn' df sf.
Proof.
  intros (Hk & Hs & Hd & Hf) Hknn Hsc. unfold load_recommender_models.
  rewrite Hknn, Hsc. split; [reflexivity|].
  unfold ready, set_knn_model. cbn. auto.
Qed.

Lemma failed_reload_keeps_new_model_witness :
  snd (load_recommender_models (mkArtifacts (Some (mkKnn 3 [])) None None) demo_globals) = false
  /\ ready (fst (load_recommender_models (mkArtifacts (Some (mkKnn 3 [])) None None)
                                          demo_globals))
           (mkKnn 3 []) demo_frame demo_features.
Proof.
  apply (failed_reload_keeps_new_model (mkArtifacts (Some (mkKnn 3 [])) None None)
           demo_globals demo_knn (mkKnn 3 []) demo_frame demo_features).
  - exact demo_ready.
  - reflexivity.
  - reflexivity.
Defined.

(** ** Ratings that cannot matter *)

Lemma recommend_loop_ext (df : DataFrame) (rated rated' : list (option Z)) (top_k : Z)
  (indices : list nat) (dists : list R) (acc : list Recommendation) :
  (forall i label, nth_error (df_labels df) i = Some label ->
                   is_rated rated label = is_rated rated' label) ->
  recommend_loop df rated top_k indices dists acc
  = recommend_loop df rated' top_k indices dists acc.
Proof.
  intro Hext. revert dists acc. induction indices as [|i indices IH]; intros dists acc;
    [reflexivity|].
  cbn [recommend_loop]. destruct (_ >=? _); [reflexivity|].
  destruct dists as [|d dists]; [reflexivity|].
  unfold subscript. destruct (nth_error (df_labels df) i) as [label|] eqn:Hl; [|reflexivity].
  cbn [bind]. rewrite (Hext _ _ Hl). destruct (negb _); [|apply IH].
  destruct (nth_error (df_rows df) i); [|reflexivity]. cbn [bind]. apply IH.
Qed.

Lemma label_in_nth (df : DataFrame) (i : nat) (label : Z) :
  nth_error (df_labels df) i = Some label -> label_in df label = true.
Proof.
  intro H. unfold label_in. apply existsb_exists. exists label.
  split; [eapply nth_error_In; eauto | apply Z.eqb_refl].
Qed.

Lemma is_rated_recognisable (df : DataFrame) (ratings : list RatingObj) (label : Z) :
  label_in df label = true ->
  is_rated (map (fun r => get (r_df_index r)) (filter (recognisable df) ratings)) label
  = is_rated (map (fun r => get (r_df_index r)) ratings) label.
Proof.
  intro Hin. unfold is_rated. induction ratings as [|r rest IH]; [reflexivity|].
  cbn [filter map existsb]. unfold recognisable at 1.
  destruct (r_df_index r) as [| |l] eqn:Hr; cbn [get same_label].
  - cbn [map existsb]. rewrite Hr. cbn [get same_label]. rewrite IH. reflexivity.
  - exact IH.
  - destruct (label_in df l) eqn:Hl.
    + cbn [map existsb]. rewrite Hr. cbn [get same_label]. rewrite IH. reflexivity.
    + destruct (Z.eqb_spec label l) as [->|Hne]; [congruence|]. exact IH.
Qed.

(** X7. Rating objects whose ['df_index'] is [null] or a label that the
    frame does not have are dropped all the way: taking them out of the
    batch leaves the recommendations of a successful answer as they are
    and changes only the number of ratings it reports. *)
Theorem unknown_ratings_do_not_matter (g : Globals) (req : Request)
  (recs : list Recommendation) (c b : nat) :
  submit_ratings_and_recommend g req = Ok200 recs c b ->
  exists df,
    recommender_df g = Some df
    /\ submit_ratings_and_recommend g
         (with_ratings req (filter (recognisable df) (ratings_of req)))
       = Ok200 recs c (length (filter (recognisable df) (ratings_of req))).
Proof.
  intro H. apply submit_ok_inv in H
    as (knn & df & sf & p & dists & idxs & rated & Hr & Hp & Hk & Hs & Hl & -> & ->).
  exists df. split; [apply Hr|].
  set (rs := ratings_of req) in *. set (rs' := filter (recognisable df) rs).
  rewrite (submit_ready _ _ _ _ _ Hr). unfold recommend_body.
  change (ratings_of (with_ratings req rs')) with rs'.
  change (top_k_of (with_ratings req rs')) with (top_k_of req).
  assert (Hdrop : forall r, recognisable df r = false -> rate_entry df sf r = Value None).
  { intros r Hrec. apply rate_entry_not_kept. revert Hrec. unfold recognisable, kept.
    destruct (r_df_index r); cbn [get]; try congruence. intros ->. destruct (get _); reflexivity. }
  assert (Hp' : profile_builder df sf rs' = Value p).
  { assert (Hc : collect_rated df sf rs' [] [] = collect_rated df sf rs [] [])
      by apply (collect_rated_filter df sf (recognisable df) rs [] [] Hdrop).
    revert Hp. unfold profile_builder. destruct (is_nil rs); [discriminate|].
    rewrite <- Hc. destruct rs' as [|r' rest']; [discriminate|]. trivial. }
  rewrite Hp'. cbn [bind]. rewrite Hk. cbn [bind].
  rewrite rated_set_spec in Hs.
  destruct (forallb has_df_index rs) eqn:Hkeys; [|discriminate]. injection Hs as <-.
  assert (Hkeys' : forallb has_df_index rs' = true).
  { apply forallb_forall. intros r Hin. apply filter_In in Hin as [Hin _].
    rewrite forallb_forall in Hkeys. apply Hkeys, Hin. }
  rewrite rated_set_spec, Hkeys'. cbn [bind].
  rewrite (recommend_loop_ext df _ (map (fun r => get (r_df_index r)) rs)).
  - rewrite Hl. reflexivity.
  - intros i label Hi. apply is_rated_recognisable. eapply label_in_nth; eauto.
Qed.

Lemma unknown_ratings_do_not_matter_witness :
  exists recs c b,
    submit_ratings_and_recommend demo_globals
      (demo_request [rate 999 1; rate 100 5; mkRating Null (Val 2)] 2) = Ok200 recs c b
    /\ submit_ratings_and_recommend demo_globals (demo_request [rate 100 5] 2)
       = Ok200 recs c 1.
Proof.
  assert (E : exists recs c b,
             submit_ratings_and_recommend demo_globals
               (demo_request [rate 999 1; rate 100 5; mkRating Null (Val 2)] 2)
             = Ok200 recs c b) by (do 3 eexists; run_endpoint).
  destruct E as (recs & c & b & E). exists recs, c, b. split; [exact E|].
  destruct (unknown_ratings_do_not_matter _ _ _ _ _ E) as (df & Hdf & H).
  injection Hdf as <-. exact H.
Defined.

(** ** The answer to a batch of known songs *)

Lemma valid_known_has_df_index (df : DataFrame) (ratings : list RatingObj) :
  Forall (valid_known df) ratings -> forallb has_df_index ratings = true.
Proof.
  intro H. apply forallb_forall. intros r Hin. rewrite Forall_forall in H.
  destruct (H r Hin) as (l & s & Hl & _). unfold has_df_index. rewrite Hl. reflexivity.
Qed.

Lemma builder_of_known (df : DataFrame) (sf : list vec) (ratings : list RatingObj) :
  length sf = length (df_labels df) ->
  ratings <> [] ->
  Forall (valid_known df) ratings ->
  profile_builder df sf ratings
  = np_average (map fst (surviving df sf ratings)) (map snd (surviving df sf ratings)).
Proof.
  intros Hlen Hne Hall. rewrite profile_builder_spec.
  destruct (entry_pairs_surviving df sf ratings Hlen) as [-> ->].
  destruct ratings as [|r rest] eqn:Hrs; [congruence|]. cbn [is_nil]. cbv zeta.
  rewrite <- Hrs in *.
  assert (Hs : surviving df sf ratings <> []).
  { apply surviving_of_kept; trivial. exists r. split; [rewrite Hrs; left; reflexivity|].
    rewrite Hrs in Hall. apply (Forall_inv Hall). }
  destruct (surviving df sf ratings) as [|p items]; [congruence|]. reflexivity.
Qed.

(** X8. For a loaded, coherent service whose catalog has at least
    [2 * top_k] rows (the index then holds the neighbours asked for),
    [top_k] at least 1, and a non-empty batch of at most [2 ^ 50] rating
    objects that all name a song of the frame and carry a score from 1 to
    5 (the sum of the weights is then the same in floating point), the
    answer is decided by the sum of the weights [score - 3]: when the sum
    is not 0 the request is answered with status 200, the count being
    the number of recommendations and [based_on] the number of ratings;
    when the sum is 0, as for one song rated 5 and one rated 1, the
    request fails with the generic 500 answer. *)
Theorem answer_decided_by_net_weight (g : Globals) (knn : Knn) (df : DataFrame)
  (sf : list vec) (req : Request) :
  ready g knn df sf ->
  coherent knn df sf ->
  1 <= top_k_of req ->
  2 * top_k_of req <= Z.of_nat (length (df_labels df)) ->
  ratings_of req <> [] ->
  Z.of_nat (length (ratings_of req)) <= 2 ^ 50 ->
  Forall (fun r => valid_known df r /\ stars r) (ratings_of req) ->
  ((exists recs, submit_ratings_and_recommend g req
                 = Ok200 recs (length recs) (length (ratings_of req)))
   <-> total_weight (surviving df sf (ratings_of req)) <> 0)
  /\ (generic_internal_failure (submit_ratings_and_recommend g req)
      <-> total_weight (surviving df sf (ratings_of req)) = 0).
Proof.
  intros Hr Hc Hk _ Hne _ Hstars.
  assert (Hall : Forall (valid_known df) (ratings_of req)).
  { revert Hstars. apply Forall_impl. tauto. }
  pose proof (builder_of_known df sf (ratings_of req)
                (features_aligned _ _ _ (store_ok _ _ _ Hc)) Hne Hall) as Hb.
  unfold np_average in Hb. rewrite !length_map, Nat.eqb_refl, zsum_total in Hb.
  cbn [negb] in Hb.
  destruct (Z.eqb_spec (total_weight (surviving df sf (ratings_of req))) 0) as [Hz|Hnz].
  - assert (Hf : submit_ratings_and_recommend g req
                 = Error 500 "Failed to generate recommendations").
    { rewrite (submit_ready _ _ _ _ _ Hr). unfold recommend_body. rewrite Hb. reflexivity. }
    unfold generic_internal_failure. rewrite Hf. split; split; trivial.
    + intros (recs & H). discriminate.
    + congruence.
  - destruct (submit_ok_spec g knn df sf req _ Hr Hc Hk
                (valid_known_has_df_index df _ Hall) Hb) as (_ & _ & Hok).
    unfold generic_internal_failure. rewrite Hok. split; split; trivial.
    + intros _. eexists. reflexivity.
    + discriminate.
    + congruence.
Qed.

Lemma answer_decided_by_net_weight_witness :
  generic_internal_failure
    (submit_ratings_and_recommend demo_globals (demo_request [rate 100 5; rate 104 1] 2))
  /\ exists recs,
       submit_ratings_and_recommend demo_globals (demo_request [rate 100 5; rate 104 2] 2)
       = Ok200 recs (length recs) 2.
Proof.
  assert (Hv : forall s, 1 <= s <= 5 ->
               Forall (fun r => valid_known demo_frame r /\ stars r)
                      [rate 100 5; rate 104 s]).
  { intros s Hs.
    constructor; [split; [exists 100, 5; repeat split | cbn; lia]|].
    constructor; [split; [exists 104, s; repeat split | cbn; lia]|].
    constructor. }
  split.
  - apply (answer_decided_by_net_weight demo_globals demo_knn demo_frame demo_features
             (demo_request [rate 100 5; rate 104 1] 2) demo_ready demo_coherent);
      [cbn; lia | cbn; lia | discriminate | cbn; lia | apply Hv; lia | reflexivity].
  - apply (answer_decided_by_net_weight demo_globals demo_knn demo_frame demo_features
             (demo_request [rate 100 5; rate 104 2] 2) demo_ready demo_coherent);
      [cbn; lia | cbn; lia | discriminate | cbn; lia | apply Hv; lia | vm_compute; discriminate].
Defined.

(** ** The binary64 profile and the exact one *)

Lemma R_of_Qc_zero : R_of_Qc 0%Qc = 0%R.
Proof. unfold R_of_Qc, Q2R. simpl. lra. Qed.

Lemma R_of_Qc_weighted_sum (j : nat) (items : list (vec * Z)) :
  R_of_Qc (weighted_sum_at j items) = exact_sum_at j items.
Proof.
  unfold weighted_sum_at, exact_sum_at, rsum.
  induction items as [|p items IH]; cbn [fold_right map]; [apply R_of_Qc_zero|].
  rewrite R_of_Qc_plus, R_of_Qc_mult, R_of_Qc_of_Z, IH. reflexivity.
Qed.

Lemma weighted_mean_nth (d j : nat) (items : list (vec * Z)) (m : vec) :
  weighted_mean d items = Some m ->
  (j < d)%nat ->
  R_of_Qc (nth j m 0%Qc) = (exact_sum_at j items / IZR (total_weight items))%R.
Proof.
  unfold weighted_mean. destruct (Z.eqb_spec (total_weight items) 0) as [|HW]; [discriminate|].
  intros [= <-] Hj.
  rewrite (nth_indep _ 0%Qc
             (weighted_sum_at 0 items / Qc_of_Z (total_weight items))%Qc)
    by (rewrite length_map, length_seq; exact Hj).
  rewrite (map_nth (fun j => (weighted_sum_at j items / Qc_of_Z (total_weight items))%Qc)
                   (seq 0 d) 0%nat j).
  rewrite seq_nth by exact Hj. cbn [Nat.add].
  rewrite (R_of_Qc_div _ _ HW), R_of_Qc_weighted_sum. reflexivity.
Qed.



(** ** Enough candidates *)

Lemma filter_orb_length {A : Type} (p q : A -> bool) (l : list A) :
  (length (filter (fun a => p a || q a) l) <= length (filter p l) + length (filter q l))%nat.
Proof.
  induction l as [|a l IH]; simpl; [lia|].
  destruct (p a), (q a); simpl; lia.
Qed.

Lemma filter_negb_length {A : Type} (p : A -> bool) (l : list A) :
  (length (filter (fun a => negb (p a)) l) + length (filter p l) = length l)%nat.
Proof.
  induction l as [|a l IH]; simpl; [lia|].
  destruct (p a); simpl; lia.
Qed.

Lemma filter_at_most_one {A B : Type} (f : A -> B) (p : A -> bool) (l : list A) :
  NoDup (map f l) ->
  (forall a b, In a l -> In b l -> p a = true -> p b = true -> f a = f b) ->
  (length (filter p l) <= 1)%nat.
Proof.
  induction l as [|a l IH]; simpl; intros Hnd Hp; [lia|].
  inversion Hnd as [|? ? Hn Hd]; subst.
  destruct (p a) eqn:Ha.
  - assert (Hnil : filter p l = []).
    { destruct (filter p l) as [|b t] eqn:Hf; [reflexivity|]. exfalso.
      assert (Hb : In b (filter p l)) by (rewrite Hf; left; reflexivity).
      apply filter_In in Hb as [Hb Hpb]. apply Hn.
      rewrite (Hp a b); auto. apply in_map, Hb. }
    rewrite Hnil. simpl. lia.
  - apply IH; [exact Hd|]. intros x y Hx Hy. apply Hp; auto.
Qed.

Lemma rated_candidates_bound (labels : list Z) (rated : list (option Z))
  (l : list (nat * R)) :
  NoDup labels ->
  NoDup (map fst l) ->
  Forall (fun c : nat * R => (fst c < length labels)%nat) l ->
  (length (filter (fun c : nat * R => is_rated rated (nth (fst c) labels 0%Z)) l)
   <= length rated)%nat.
Proof.
  intros Hlab Hnd Hb. unfold is_rated.
  induction rated as [|r rated IH]; cbn [existsb length].
  - clear. induction l as [|a l IHl]; simpl; [lia | exact IHl].
  - pose proof (filter_orb_length
                  (fun c : nat * R => same_label (Some (nth (fst c) labels 0)) r)
                  (fun c : nat * R => existsb (same_label (Some (nth (fst c) labels 0))) rated)
                  l) as Ho.
    assert (H1 : (length (filter (fun c : nat * R =>
                                    same_label (Some (nth (fst c) labels 0%Z)) r) l) <= 1)%nat).
    { apply (filter_at_most_one fst); [exact Hnd|].
      intros a b Ha Hb' Hpa Hpb. rewrite Forall_forall in Hb.
      destruct r as [x|]; [|discriminate]. simpl in Hpa, Hpb.
      apply Z.eqb_eq in Hpa, Hpb.
      apply (proj1 (NoDup_nth labels 0) Hlab); auto. congruence. }
    lia.
Qed.

(** X10. Fetching twice [top_k] candidates is enough: when the service is
    coherent, the batch has at most [top_k] rating objects and the
    catalog has at least [2 * top_k] rows, an answered request carries
    exactly [top_k] recommendations. *)
Theorem overfetch_fills_the_answer (g : Globals) (knn : Knn) (df : DataFrame)
  (sf : list vec) (req : Request) (recs : list Recommendation) (c b : nat) :
  ready g knn df sf ->
  coherent knn df sf ->
  submit_ratings_and_recommend g req = Ok200 recs c b ->
  Z.of_nat (length (ratings_of req)) <= top_k_of req ->
  2 * top_k_of req <= Z.of_nat (length (df_labels df)) ->
  Z.of_nat c = top_k_of req /\ length recs = c.
Proof.
  intros Hr Hc Hok Hfew Hmany.
  destruct (submit_ok_inv _ _ _ _ _ Hok)
    as (knn' & df' & sf' & p & dists & idxs & rated & Hr' & Hp & Hk & Hs & _ & Hcl & _).
  assert (knn' = knn /\ df' = df /\ sf' = sf) as (-> & -> & ->).
  { destruct Hr as (H1 & _ & H2 & H3), Hr' as (H1' & _ & H2' & H3').
    repeat split; congruence. }
  assert (Hk1 : 1 <= top_k_of req).
  { unfold kneighbors in Hk. destruct (Z.ltb_spec (top_k_of req * 2) 1); [discriminate | lia]. }
  assert (Hkeys : forallb has_df_index (ratings_of req) = true).
  { rewrite rated_set_spec in Hs. destruct (forallb _ _); [reflexivity | discriminate]. }
  destruct (submit_ok_spec g knn df sf req p Hr Hc Hk1 Hkeys Hp) as (_ & _ & Hspec).
  rewrite Hok in Hspec. injection Hspec as Hrecs Hcount _.
  split; [|congruence]. rewrite Hcount, length_map, length_firstn.
  set (near := nearest knn p (top_k_of req * 2)).
  set (rated' := map (fun r => get (r_df_index r)) (ratings_of req)).
  unfold unrated_candidates.
  set (cands := combine (map fst near) _).
  pose proof (filter_negb_length
                (fun c : nat * R => is_rated rated' (nth (fst c) (df_labels df) 0)) cands) as Hsum.
  assert (Hfst : map fst cands = map fst near).
  { subst cands. rewrite combine_map_pairs, map_map. reflexivity. }
  assert (Hlen : length cands = Z.to_nat (top_k_of req * 2)).
  { rewrite <- (length_map fst cands), Hfst, length_map. subst near.
    rewrite nearest_length, (index_over_features _ _ _ Hc),
      (features_aligned _ _ _ (store_ok _ _ _ Hc)). lia. }
  assert (Hbound : (length (filter (fun c : nat * R =>
                                      is_rated rated' (nth (fst c) (df_labels df) 0%Z)) cands)
                    <= length rated')%nat).
  { apply rated_candidates_bound.
    - apply (labels_unique _ _ _ (store_ok _ _ _ Hc)).
    - rewrite Hfst. apply nearest_nodup.
    - apply Forall_forall. intros x Hx.
      pose proof (nearest_positions knn df sf p (top_k_of req * 2) Hc) as Hpos.
      rewrite Forall_forall in Hpos. apply Hpos. fold near. rewrite <- Hfst.
      apply in_map, Hx. }
  subst rated'. rewrite length_map in Hbound. lia.
Qed.

Lemma overfetch_fills_the_answer_witness :
  exists recs c b,
    submit_ratings_and_recommend demo_globals (demo_request [rate 103 5; rate 100 2] 2)
    = Ok200 recs c b
    /\ Z.of_nat c = 2 /\ length recs = c.
Proof.
  assert (E : exists recs c b,
             submit_ratings_and_recommend demo_globals
               (demo_request [rate 103 5; rate 100 2] 2)
             = Ok200 recs c b) by (do 3 eexists; run_endpoint).
  destruct E as (recs & c & b & E). exists recs, c, b. split; [exact E|].
  apply (overfetch_fills_the_answer demo_globals demo_knn demo_frame demo_features
           (demo_request [rate 103 5; rate 100 2] 2) recs c b demo_ready demo_coherent E);
    cbn; lia.
Defined.

(** ** The rating session *)

Lemma session_songs_spec (df : DataFrame) (duration_ms : list (option Z))
  (positions : list nat) (acc : list SessionSong) :
  length (df_rows df) = length (df_labels df) ->
  Forall (fun i => (i < length (df_labels df))%nat) positions ->
  exists songs,
    session_songs df duration_ms positions acc = inr (acc ++ songs)
    /\ map ss_df_index songs = map (fun i => nth i (df_labels df) 0) positions.
Proof.
  intros Hrows. revert acc. induction positions as [|i rest IH]; intros acc HF.
  - exists []. rewrite app_nil_r. split; reflexivity.
  - pose proof (Forall_inv HF) as Hi. pose proof (Forall_inv_tail HF) as HF'.
    cbv beta in Hi. cbn [session_songs]. unfold session_song.
    rewrite (nth_error_nth' (df_labels df) 0 Hi).
    assert (Hi' : (i < length (df_rows df))%nat) by lia.
    rewrite (nth_error_nth' (df_rows df) empty_song Hi').
    destruct (IH (acc ++ [mkSessionSong (nth i (df_labels df) 0)
       (get_default (song_track_name (nth i (df_rows df) empty_song)) "Unknown"%string)
       (get_default (song_artists (nth i (df_rows df) empty_song)) "Unknown"%string)
       (get_default (song_track_name (nth i (df_rows df) empty_song)) "Unknown"%string)
       (get_default (song_artists (nth i (df_rows df) empty_song)) "Unknown"%string)
       (get_default (song_popularity (nth i (df_rows df) empty_song)) 0)
       (get_default (nth i duration_ms None) 0)]) HF') as (songs & -> & Hm).
    eexists (_ :: songs). rewrite <- app_assoc. split; [reflexivity|].
    cbn [map ss_df_index]. rewrite Hm. reflexivity.
Qed.

Lemma session_songs_labels (df : DataFrame) (duration_ms : list (option Z))
  (positions : list nat) (acc songs : list SessionSong) :
  session_songs df duration_ms positions acc = inr songs ->
  Forall (fun s => label_in df (ss_df_index s) = true) acc ->
  Forall (fun s => label_in df (ss_df_index s) = true) songs.
Proof.
  revert acc. induction positions as [|i rest IH]; intros acc.
  - cbn. intros [= <-]. trivial.
  - cbn [session_songs]. unfold session_song.
    destruct (nth_error (df_labels df) i) as [idx|] eqn:Hl; [|discriminate].
    destruct (nth_error (df_rows df) i) as [row|]; [|discriminate].
    intros H Hacc. apply (IH _ H). apply Forall_app. split; [exact Hacc|].
    constructor; [|constructor]. cbn. eapply label_in_nth; eauto.
Qed.

Lemma shuffle_positions (df : DataFrame) (draw : list nat) (n : nat) :
  shuffle_of df draw ->
  Forall (fun i => (i < length (df_labels df))%nat) (sample n draw)
  /\ NoDup (sample n draw)
  /\ length (sample n draw) = Nat.min n (length (df_labels df)).
Proof.
  unfold shuffle_of, sample. intro HP. split; [|split].
  - apply Forall_forall. intros i Hi. apply firstn_In in Hi.
    apply (Permutation_in _ HP) in Hi. apply in_seq in Hi. lia.
  - assert (Hnd : NoDup draw).
    { eapply Permutation_NoDup; [symmetry; exact HP | apply seq_NoDup]. }
    revert Hnd. generalize draw. clear. induction n as [|n IH]; intros [|a l] H; simpl;
      try constructor.
    + inversion H; subst. intro Hin. apply firstn_In in Hin. contradiction.
    + inversion H; subst. apply IH. assumption.
  - rewrite length_firstn, (Permutation_length HP), length_seq. reflexivity.
Qed.

Lemma NoDup_map_nth (labels : list Z) (positions : list nat) :
  NoDup labels -> NoDup positions ->
  Forall (fun i => (i < length labels)%nat) positions ->
  NoDup (map (fun i => nth i labels 0) positions).
Proof.
  intros Hl Hp HF. induction Hp as [|i rest Hi Hp IH]; [constructor|].
  pose proof (Forall_inv HF) as Hlt. pose proof (Forall_inv_tail HF) as HF'.
  cbv beta in Hlt. cbn [map]. constructor; [|apply IH, HF'].
  intro Hin. apply in_map_iff in Hin as (j & Hj & Hjin).
  rewrite Forall_forall in HF'. pose proof (HF' _ Hjin) as Hjlt.
  apply (proj1 (NoDup_nth labels 0) Hl) in Hj; trivial. subst. contradiction.
Qed.

(** X11. With a frame loaded and one row per label, a rating session
    offers exactly [min 10 n] songs of the [n] in the catalog, each under
    the label of its row, and no song twice. *)
Theorem session_offers_distinct_songs (g : Globals) (df : DataFrame)
  (duration_ms : list (option Z)) (draw : list nat) :
  recommender_df g = Some df ->
  NoDup (df_labels df) ->
  length (df_rows df) = length (df_labels df) ->
  shuffle_of df draw ->
  exists songs,
    start_rating_session g duration_ms draw = SessionOk songs
    /\ length songs = Nat.min 10 (length (df_labels df))
    /\ NoDup (map ss_df_index songs)
    /\ Forall (fun s => label_in df (ss_df_index s) = true) songs.
Proof.
  intros Hdf Hnd Hrows Hsh. unfold start_rating_session. rewrite Hdf. cbv zeta.
  destruct (shuffle_positions df draw (Nat.min 10 (length (df_labels df))) Hsh)
    as (Hlt & Hnodup & Hlen).
  destruct (session_songs_spec df duration_ms _ [] Hrows Hlt) as (songs & Hs & Hm).
  rewrite Hs. cbn [app]. exists songs. split; [reflexivity|].
  split; [|split].
  - rewrite <- (length_map ss_df_index), Hm, length_map, Hlen. lia.
  - rewrite Hm. apply NoDup_map_nth; assumption.
  - eapply session_songs_labels; [exact Hs | constructor].
Qed.

Lemma session_offers_distinct_songs_witness :
  exists songs,
    start_rating_session demo_globals [] [3; 0; 4; 1; 2]%nat = SessionOk songs
    /\ length songs = 5%nat
    /\ NoDup (map ss_df_index songs)
    /\ Forall (fun s => label_in demo_frame (ss_df_index s) = true) songs.
Proof.
  apply (session_offers_distinct_songs demo_globals demo_frame [] [3; 0; 4; 1; 2]%nat).
  - reflexivity.
  - apply demo_store.
  - reflexivity.
  - unfold shuffle_of. cbn.
    apply (Permutation_trans (l' := [0; 3; 4; 1; 2]%nat)); [apply perm_swap|].
    apply perm_skip.
    apply (Permutation_trans (l' := [3; 1; 4; 2]%nat)); [apply perm_skip, perm_swap|].
    apply (Permutation_trans (l' := [1; 3; 4; 2]%nat)); [apply perm_swap|].
    apply perm_skip.
    apply (Permutation_trans (l' := [3; 2; 4]%nat)); [apply perm_skip, perm_swap|].
    apply (Permutation_trans (l' := [2; 3; 4]%nat)); [apply perm_swap|].
    reflexivity.
Defined.

(** X12. The session endpoint looks at the frame only.  In a state with
    the frame but without the feature matrix, as a load leaves it that
    broke on the ['scaled_features'] entry, songs are offered for rating
    while every submission of ratings is answered 503. *)
Theorem session_served_before_ratings_accepted (g : Globals) (df : DataFrame)
  (duration_ms : list (option Z)) (draw : list nat) (req : Request) :
  recommender_df g = Some df ->
  scaled_features g = None ->
  length (df_rows df) = length (df_labels df) ->
  shuffle_of df draw ->
  service_unavailable (submit_ratings_and_recommend g req)
  /\ exists songs,
       start_rating_session g duration_ms draw = SessionOk songs
       /\ length songs = Nat.min 10 (length (df_labels df)).
Proof.
  intros Hdf Hsf Hrows Hsh. split.
  - apply submit_not_initialized. unfold initialized. rewrite Hsf. cbn.
    rewrite !andb_false_r. reflexivity.
  - unfold start_rating_session. rewrite Hdf. cbv zeta.
    destruct (shuffle_positions df draw (Nat.min 10 (length (df_labels df))) Hsh)
      as (Hlt & _ & Hlen).
    destruct (session_songs_spec df duration_ms _ [] Hrows Hlt) as (songs & Hs & Hm).
    rewrite Hs. exists songs. split; [reflexivity|].
    rewrite <- (length_map ss_df_index), Hm, length_map, Hlen. lia.
Qed.

Lemma session_served_before_ratings_accepted_witness :
  service_unavailable
    (submit_ratings_and_recommend
       (fst (load_recommender_models
               (mkArtifacts (Some demo_knn) (Some demo_scaler)
                  (Some (mkDataDict (Some demo_frame) None None)))
               initial_globals))
       (demo_request [rate 100 5] 2))
  /\ exists songs,
       start_rating_session
         (fst (load_recommender_models
                 (mkArtifacts (Some demo_knn) (Some demo_scaler)
                    (Some (mkDataDict (Some demo_frame) None None)))
                 initial_globals))
         [] (seq 0 5) = SessionOk songs
       /\ length songs = 5%nat.
Proof.
  apply (session_served_before_ratings_accepted _ demo_frame [] (seq 0 5)).
  - reflexivity.
  - reflexivity.
  - reflexivity.
  - unfold shuffle_of. reflexivity.
Defined.

Lemma session_ratings_valid (df : DataFrame) (songs : list SessionSong) (scores : list Z) :
  Forall (fun s => label_in df (ss_df_index s) = true) songs ->
  Forall (valid_known df) (session_ratings songs scores).
Proof.
  intro HF. unfold session_ratings. apply Forall_map, Forall_forall.
  intros [s z] Hin. apply in_combine_l in Hin.
  rewrite Forall_forall in HF. exists (ss_df_index s), z. cbn. auto.
Qed.

Lemma session_songs_from_start (g : Globals) (df : DataFrame)
  (duration_ms : list (option Z)) (draw : list nat) (songs : list SessionSong) :
  recommender_df g = Some df ->
  start_rating_session g duration_ms draw = SessionOk songs ->
  Forall (fun s => label_in df (ss_df_index s) = true) songs.
Proof.
  intros Hdf. unfold start_rating_session. rewrite Hdf. cbv zeta.
  destruct (session_songs df duration_ms _ []) as [e|songs'] eqn:Hs; [discriminate|].
  intros [= <-]. eapply session_songs_labels; [exact Hs | constructor].
Qed.

(** X13. Round trip of a rating session.  When the ratings of a request
    are the songs of a session, each with a score, and there is at least
    one, the endpoint never rejects the request with status 400, and no
    record of a successful answer is made from a song that was offered
    in the session. *)
Theorem session_ratings_are_accepted (g : Globals) (knn : Knn) (df : DataFrame)
  (sf : list vec) (duration_ms : list (option Z)) (draw : list nat)
  (songs : list SessionSong) (scores : list Z) (req : Request) :
  ready g knn df sf ->
  start_rating_session g duration_ms draw = SessionOk songs ->
  length scores = length songs ->
  songs <> [] ->
  ratings_of req = session_ratings songs scores ->
  ~ request_level_rejection (submit_ratings_and_recommend g req)
  /\ forall recs c b,
       submit_ratings_and_recommend g req = Ok200 recs c b ->
       Forall (fun rec =>
         exists i label song dist,
           nth_error (df_labels df) i = Some label
           /\ nth_error (df_rows df) i = Some song
           /\ rec = format_recommendation song dist
           /\ forall s, In s songs -> ss_df_index s <> label) recs.
Proof.
  intros Hr Hstart Hlen Hne Hreq.
  assert (Hdf : recommender_df g = Some df) by apply Hr.
  pose proof (session_songs_from_start _ _ _ _ _ Hdf Hstart) as Hlabels.
  pose proof (session_ratings_valid df songs scores Hlabels) as Hvalid.
  split.
  - intros [m Hm]. rewrite (submit_ready _ _ _ _ _ Hr) in Hm.
    unfold recommend_body in Hm.
    destruct (profile_builder df sf (ratings_of req)) as [p|resp|e] eqn:Hp; cbn [bind handle] in Hm.
    + destruct (kneighbors knn p _) as [[dists idxs]|resp|e] eqn:Hk; cbn [bind handle] in Hm;
        [| exfalso; eapply kneighbors_no_return; eauto | discriminate].
      destruct (rated_set _) as [rated|resp|e] eqn:Hs; cbn [bind handle] in Hm;
        [| exfalso; eapply rated_set_no_return; eauto | discriminate].
      destruct (recommend_loop df rated _ idxs dists []) as [recs|resp|e] eqn:Hl;
        cbn [bind handle] in Hm;
        [discriminate | exfalso; eapply recommend_loop_no_return; eauto | discriminate].
    + eapply (builder_outcome_of_valid df sf); [|exact Hp].
      rewrite Hreq. destruct songs as [|s songs']; [congruence|].
      destruct scores as [|z scores']; [discriminate|].
      exists (mkRating (Val (ss_df_index s)) (Val z)). split; [left; reflexivity|].
      apply (Forall_inv Hvalid).
    + discriminate.
  - intros recs c b H. apply submit_ok_inv in H
      as (knn' & df' & sf' & p & dists & idxs & rated & Hr' & Hp & Hk & Hs & Hl & _ & _).
    assert (df' = df) by (destruct Hr' as (_ & _ & Hd' & _); congruence). subst df'.
    eapply recommend_loop_inv; [| constructor | exact Hl].
    intros i label song d Hlab Hsong Hnr _ _. exists i, label, song, d.
    repeat split; trivial. intros s Hin Heq.
    destruct (In_nth _ _ s Hin) as (n & Hn & Hnth).
    assert (Hin' : In (mkRating (Val (ss_df_index s)) (Val (nth n scores 0)))
                      (ratings_of req)).
    { rewrite Hreq. unfold session_ratings. apply in_map_iff.
      exists (s, nth n scores 0). split; [reflexivity|].
      rewrite <- Hnth. rewrite <- (combine_nth songs scores n s 0) by lia.
      apply nth_In. rewrite length_combine. lia. }
    eapply (is_rated_false _ _ _ Hs Hnr); [exact Hin'|]. cbn. congruence.
Qed.

Lemma library_ready : ready library_globals library_knn library_frame library_features.
Proof. repeat split. discriminate. Qed.

Lemma session_ratings_are_accepted_witness :
  exists songs recs,
    start_rating_session library_globals [] (rev (seq 0 22)) = SessionOk songs
    /\ length songs = 10%nat
    /\ submit_ratings_and_recommend library_globals
         (page_request songs [5; 4; 5; 3; 2; 5; 1; 4; 5; 4])
       = Ok200 recs 10 10
    /\ length recs = 10%nat
    /\ ~ request_level_rejection
         (submit_ratings_and_recommend library_globals
            (page_request songs [5; 4; 5; 3; 2; 5; 1; 4; 5; 4]))
    /\ Forall (fun rec =>
         exists i label song dist,
           nth_error (df_labels library_frame) i = Some label
           /\ nth_error (df_rows library_frame) i = Some song
           /\ rec = format_recommendation song dist
           /\ forall s, In s songs -> ss_df_index s <> label) recs.
Proof.
  assert (E : exists songs,
             start_rating_session library_globals [] (rev (seq 0 22)) = SessionOk songs
             /\ length songs = 10%nat) by (eexists; split; reflexivity).
  destruct E as (songs & Hs & Hn). 
  assert (E : exists recs,
             submit_ratings_and_recommend library_globals
               (page_request songs [5; 4; 5; 3; 2; 5; 1; 4; 5; 4])
             = Ok200 recs 10 10 /\ length recs = 10%nat).
  { injection Hs as <-. eexists. split; [run_endpoint | reflexivity]. }
  destruct E as (recs & Hok & Hl).
  exists songs, recs. split; [exact Hs|]. split; [exact Hn|].
  split; [exact Hok|]. split; [exact Hl|].
  destruct (session_ratings_are_accepted library_globals library_knn library_frame
              library_features [] (rev (seq 0 22)) songs [5; 4; 5; 3; 2; 5; 1; 4; 5; 4]
              (page_request songs [5; 4; 5; 3; 2; 5; 1; 4; 5; 4]) library_ready Hs)
    as [H1 H2].
  - rewrite Hn. reflexivity.
  - intros ->. discriminate.
  - reflexivity.
  - split; [exact H1 | exact (H2 recs 10%nat 10%nat Hok)].
Defined.

(** ** Counting *)

Lemma NoDup_firstn {A : Type} (n : nat) (l : list A) : NoDup l -> NoDup (firstn n l).
Proof.
  revert l. induction n as [|n IH]; intros [|a l] H; simpl; try constructor.
  - inversion H; subst. intro Hin. apply firstn_In in Hin. contradiction.
  - inversion H; subst. apply IH. assumption.
Qed.

Lemma count_up_keys (key k : string) (counts : list (string * nat)) :
  In k (map fst (count_up key counts)) <-> k = key \/ In k (map fst counts).
Proof.
  induction counts as [|[k0 n0] rest IH]; simpl.
  - intuition.
  - destruct (String.eqb_spec k0 key) as [->|Hne]; simpl.
    + intuition.
    + rewrite IH. intuition.
Qed.

Lemma count_up_nodup (key : string) (counts : list (string * nat)) :
  NoDup (map fst counts) -> NoDup (map fst (count_up key counts)).
Proof.
  induction counts as [|[k0 n0] rest IH]; simpl; intro H.
  - repeat constructor. intros [].
  - inversion H as [|? ? Hn Hd]; subst.
    destruct (String.eqb_spec k0 key) as [->|Hne]; simpl.
    + constructor; assumption.
    + constructor; [|apply IH, Hd]. rewrite count_up_keys. intros [->|Hin]; congruence.
Qed.

Lemma count_up_count (key k : string) (counts : list (string * nat)) :
  count_of k (count_up key counts)
  = if String.eqb key k then S (count_of k counts) else count_of k counts.
Proof.
  induction counts as [|[k0 n0] rest IH]; simpl.
  - destruct (key =? k)%string; reflexivity.
  - destruct (String.eqb_spec k0 key) as [->|Hne]; simpl.
    + destruct (key =? k)%string; reflexivity.
    + destruct (String.eqb_spec k0 k) as [->|Hne'].
      * destruct (String.eqb_spec key k); [congruence | reflexivity].
      * exact IH.
Qed.

Lemma count_up_positive (key : string) (counts : list (string * nat)) :
  Forall (fun kn : string * nat => (1 <= snd kn)%nat) counts ->
  Forall (fun kn : string * nat => (1 <= snd kn)%nat) (count_up key counts).
Proof.
  induction 1 as [|[k0 n0] rest H0 Hr IH]; simpl.
  - repeat constructor.
  - destruct (k0 =? key)%string; simpl; constructor; simpl in *; trivial; lia.
Qed.

Lemma Counter_from (items : list string) (acc : list (string * nat)) :
  NoDup (map fst acc) ->
  Forall (fun kn : string * nat => (1 <= snd kn)%nat) acc ->
  let counts := fold_left (fun counts item => count_up item counts) items acc in
  NoDup (map fst counts)
  /\ Forall (fun kn : string * nat => (1 <= snd kn)%nat) counts
  /\ (forall k, count_of k counts = (count_of k acc + count_occ string_dec items k)%nat)
  /\ (forall k, In k (map fst counts) <-> In k (map fst acc) \/ In k items).
Proof.
  revert acc. induction items as [|x items IH]; intros acc Hnd Hpos; cbn [fold_left].
  - cbv zeta. split; [exact Hnd|]. split; [exact Hpos|]. split.
    + intro k. cbn. lia.
    + intro k. cbn. tauto.
  - specialize (IH (count_up x acc) (count_up_nodup x acc Hnd) (count_up_positive x acc Hpos)).
    cbv zeta in *. destruct IH as (H1 & H2 & H3 & H4).
    split; [exact H1|]. split; [exact H2|]. split.
    + intro k. rewrite H3, count_up_count. cbn [count_occ].
      destruct (string_dec x k) as [->|Hne].
      * rewrite String.eqb_refl. lia.
      * destruct (String.eqb_spec x k); [congruence | reflexivity].
    + intro k. rewrite H4, count_up_keys. simpl. intuition.
Qed.

Lemma count_of_in (k : string) (n : nat) (counts : list (string * nat)) :
  NoDup (map fst counts) -> In (k, n) counts -> count_of k counts = n.
Proof.
  induction counts as [|[k0 n0] rest IH]; simpl; [tauto|].
  intros Hnd [[= -> ->]|Hin].
  - rewrite String.eqb_refl. reflexivity.
  - inversion Hnd as [|? ? Hn Hd]; subst.
    destruct (String.eqb_spec k0 k) as [->|Hne].
    + exfalso. apply Hn. apply in_map_iff. exists (k, n). auto.
    + apply IH; assumption.
Qed.

Lemma count_of_perm (k : string) (l l' : list (string * nat)) :
  NoDup (map fst l) -> Permutation l l' -> count_of k l = count_of k l'.
Proof.
  intros Hnd HP.
  assert (Hnd' : NoDup (map fst l')).
  { eapply Permutation_NoDup; [apply Permutation_map; exact HP | exact Hnd]. }
  destruct (in_dec string_dec k (map fst l)) as [Hin|Hout].
  - apply in_map_iff in Hin as ([k0 n] & Hk & Hin). simpl in Hk. subst k0.
    rewrite (count_of_in k n l Hnd Hin).
    symmetry. apply count_of_in; [exact Hnd'|]. eapply Permutation_in; eauto.
  - assert (Hz : forall m, ~ In k (map fst m) -> count_of k m = O).
    { induction m as [|[k0 n0] m IHm]; simpl; [reflexivity|]. intro H.
      destruct (String.eqb_spec k0 k) as [->|]; [tauto|]. apply IHm. tauto. }
    rewrite (Hz l Hout). symmetry. apply Hz. intro Hin. apply Hout.
    eapply Permutation_in; [apply Permutation_map, Permutation_sym; exact HP | exact Hin].
Qed.

(** ** Sorting by descending count *)

Lemma insert_desc_perm (p : string * nat) (l : list (string * nat)) :
  Permutation (insert_desc p l) (p :: l).
Proof.
  induction l as [|h t IH]; simpl; [reflexivity|].
  destruct (snd h <=? snd p)%nat; [reflexivity|].
  rewrite IH. apply perm_swap.
Qed.

Lemma sorted_desc_perm (l : list (string * nat)) : Permutation (sorted_desc l) l.
Proof.
  induction l as [|p l IH]; simpl; [reflexivity|].
  rewrite insert_desc_perm. constructor. exact IH.
Qed.

Lemma insert_desc_sorted (p : string * nat) (l : list (string * nat)) :
  descending l -> descending (insert_desc p l).
Proof.
  unfold descending. induction 1 as [|h t Hs IH Hh]; simpl.
  - repeat constructor.
  - destruct (Nat.leb_spec (snd h) (snd p)) as [Hle|Hgt].
    + constructor; [constructor; assumption|]. constructor; [exact Hle|].
      revert Hh. apply Forall_impl. intros a Ha. lia.
    + constructor; [exact IH|].
      eapply Permutation_Forall; [symmetry; apply insert_desc_perm|].
      constructor; [lia | exact Hh].
Qed.

Lemma sorted_desc_sorted (l : list (string * nat)) : descending (sorted_desc l).
Proof.
  induction l as [|p l IH]; simpl; [constructor | apply insert_desc_sorted, IH].
Qed.

(** X14. With a ['Genres'] column the endpoint answers with at most 15
    genres under distinct names, which the dictionary it builds holds in
    descending order of count; each
    count is the number of times the genre occurs among all the genres
    of the column and is at least 1; no genre that is left out occurs
    more often than one that is listed; and the second dictionary has the
    same names and counts. *)
Theorem genre_distribution_top_15 {F : Type} (percentage : nat -> nat -> F)
  (h : History) (column : list (option string)) :
  h_genres h = Some column ->
  exists genres shares,
    genre_distribution_endpoint percentage (Some h) = GenreOk genres shares
    /\ (length genres <= 15)%nat
    /\ NoDup (map fst genres)
    /\ descending genres
    /\ Forall (fun gc : string * nat =>
                 snd gc = count_occ string_dec (all_genres_of column) (fst gc)
                 /\ (1 <= snd gc)%nat) genres
    /\ (forall g, In g (all_genres_of column) -> ~ In g (map fst genres) ->
        Forall (fun gc : string * nat =>
                  (count_occ string_dec (all_genres_of column) g <= snd gc)%nat) genres)
    /\ map (fun gs : string * Share F => (fst gs, share_count (snd gs))) shares = genres.
Proof.
  intro Hcol. unfold genre_distribution_endpoint. rewrite Hcol. cbv zeta.
  set (all := all_genres_of column).
  destruct (is_nil all) eqn:Hnil.
  - exists [], []. split; [reflexivity|]. split; [cbn; lia|].
    split; [constructor|]. split; [constructor|]. split; [constructor|].
    split; [intros; constructor | reflexivity].
  - destruct (Counter_from all [] (NoDup_nil _) (Forall_nil _)) as (Hnd & Hpos & Hcount & Hkeys).
    fold (Counter all) in Hnd, Hpos, Hcount, Hkeys.
    set (sorted := sorted_desc (Counter all)).
    assert (HP : Permutation sorted (Counter all)) by apply sorted_desc_perm.
    assert (Hnd' : NoDup (map fst sorted)).
    { eapply Permutation_NoDup; [apply Permutation_map, Permutation_sym; exact HP | exact Hnd]. }
    do 2 eexists. split; [reflexivity|].
    split; [rewrite length_firstn; lia|].
    split; [rewrite <- firstn_map; apply NoDup_firstn, Hnd'|].
    split; [apply StronglySorted_firstn, sorted_desc_sorted|].
    split; [|split].
    + apply Forall_forall. intros [g c] Hin. apply firstn_In in Hin.
      apply (Permutation_in _ HP) in Hin. cbn [fst snd]. split.
      * rewrite <- (count_of_in g c _ Hnd Hin), Hcount. reflexivity.
      * rewrite Forall_forall in Hpos. apply (Hpos _ Hin).
    + intros g Hg Hout. apply Forall_forall. intros [g' c'] Hin'. cbn [snd].
      assert (Hgin : In g (map fst sorted)).
      { eapply Permutation_in; [apply Permutation_map, Permutation_sym; exact HP|].
        apply Hkeys. right. exact Hg. }
      apply in_map_iff in Hgin as ([g0 c] & Hg0 & Hgc). cbn in Hg0. subst g0.
      assert (Hc : c = count_occ string_dec all g).
      { apply (Permutation_in _ HP) in Hgc.
        rewrite <- (count_of_in g c _ Hnd Hgc), Hcount. reflexivity. }
      rewrite <- (firstn_skipn 15 sorted) in Hgc. apply in_app_or in Hgc as [Hgc|Hgc].
      * exfalso. apply Hout. apply in_map_iff. exists (g, c). auto.
      * rewrite <- Hc.
        apply (StronglySorted_split _ 15 sorted (sorted_desc_sorted _) (g', c') (g, c));
          assumption.
    + rewrite map_map. cbn [fst snd share_count]. rewrite <- (map_id (firstn 15 sorted)) at 2.
      apply map_ext. intros [g c]. reflexivity.
Qed.

Lemma genre_distribution_top_15_witness :
  exists genres shares,
    genre_distribution_endpoint (fun c n => (c * 100 / n)%nat) (Some demo_history)
    = GenreOk genres shares
    /\ (length genres <= 15)%nat
    /\ NoDup (map fst genres)
    /\ descending genres
    /\ Forall (fun gc : string * nat =>
                 snd gc = count_occ string_dec (all_genres_of demo_genres) (fst gc)
                 /\ (1 <= snd gc)%nat) genres
    /\ (forall g, In g (all_genres_of demo_genres) -> ~ In g (map fst genres) ->
        Forall (fun gc : string * nat =>
                  (count_occ string_dec (all_genres_of demo_genres) g <= snd gc)%nat) genres)
    /\ map (fun gs : string * Share nat => (fst gs, share_count (snd gs))) shares = genres.
Proof.
  apply (genre_distribution_top_15 (fun c n => (c * 100 / n)%nat) demo_history demo_genres).
  reflexivity.
Defined.

(** ** Text *)

Lemma all_space_rstrip (s : string) : all_space s = false -> all_space (rstrip s) = false.
Proof.
  induction s as [|c s IH]; [discriminate|]. intro H.
  cbn [rstrip]. rewrite H. cbn [all_space] in *.
  destruct (isspace c); [|reflexivity]. simpl in *. apply IH, H.
Qed.

Lemma rstrip_idem (s : string) : rstrip (rstrip s) = rstrip s.
Proof.
  induction s as [|c s IH]; [reflexivity|].
  cbn [rstrip]. destruct (all_space (String c s)) eqn:H; [reflexivity|].
  pose proof (all_space_rstrip _ H) as H'. cbn [rstrip] in H'. rewrite H in H'.
  cbn [rstrip]. rewrite H', IH. reflexivity.
Qed.

Lemma lstrip_head (s : string) :
  lstrip s = EmptyString \/ exists c t, lstrip s = String c t /\ isspace c = false.
Proof.
  induction s as [|c s IH]; [left; reflexivity|].
  cbn [lstrip]. destruct (isspace c) eqn:H; [exact IH|]. right. eauto.
Qed.

Lemma strip_idem (s : string) : strip (strip s) = strip s.
Proof.
  unfold strip. destruct (lstrip_head s) as [->|(c & t & -> & Hc)]; [reflexivity|].
  assert (Hs : all_space (String c t) = false) by (cbn [all_space]; rewrite Hc; reflexivity).
  replace (lstrip (rstrip (String c t))) with (rstrip (String c t)).
  - apply rstrip_idem.
  - cbn [rstrip]. rewrite Hs. cbn [lstrip]. rewrite Hc. reflexivity.
Qed.

Lemma has_char_lstrip (c : ascii) (s : string) : has_char c (lstrip s) -> has_char c s.
Proof.
  unfold has_char. induction s as [|a s IH]; [trivial|].
  cbn [lstrip]. destruct (isspace a); [|trivial].
  intro H. right. apply IH, H.
Qed.

Lemma has_char_rstrip (c : ascii) (s : string) : has_char c (rstrip s) -> has_char c s.
Proof.
  unfold has_char. induction s as [|a s IH]; [trivial|].
  cbn [rstrip]. destruct (all_space (String a s)); [intros []|].
  intros [H|H]; [left; exact H | right; apply IH, H].
Qed.

Lemma has_char_strip (c : ascii) (s : string) : has_char c (strip s) -> has_char c s.
Proof. intro H. apply has_char_lstrip, has_char_rstrip, H. Qed.

Lemma split_on_pieces (sep : ascii) (s : string) :
  Forall (fun piece => ~ has_char sep piece) (split_on sep s).
Proof.
  unfold has_char. induction s as [|c s IH]; cbn [split_on].
  - repeat constructor. intros [].
  - destruct (Ascii.eqb_spec c sep) as [->|Hne].
    + constructor; [intros [] | exact IH].
    + destruct (split_on sep s) as [|piece rest].
      * repeat constructor. intros [H|[]]. congruence.
      * constructor; [|apply (Forall_inv_tail IH)].
        intros [H|H]; [congruence | apply (Forall_inv IH), H].
Qed.

Lemma cell_genres_trimmed (cell : option string) (g : string) :
  In g (cell_genres cell) ->
  nonempty g = true /\ strip g = g /\ ~ has_char ","%char g.
Proof.
  destruct cell as [s|]; [|intros []]. cbn [cell_genres].
  destruct (_ && _); [|intros []].
  intro H. apply in_map_iff in H as (piece & <- & Hin).
  apply filter_In in Hin as [Hin Hne].
  split; [exact Hne|]. split; [apply strip_idem|].
  intro Hc. apply has_char_strip in Hc.
  pose proof (split_on_pieces ","%char s) as HF. rewrite Forall_forall in HF.
  exact (HF _ Hin Hc).
Qed.

Lemma Counter_keys (items : list string) (k : string) :
  In k (map fst (Counter items)) <-> In k items.
Proof.
  destruct (Counter_from items [] (NoDup_nil _) (Forall_nil _)) as (_ & _ & _ & H).
  unfold Counter. rewrite H. simpl. tauto.
Qed.

(** X15. Every genre name in an answer of the endpoint is a trimmed,
    non-empty piece of a cell: it is not the empty string, stripping it
    changes nothing, and it holds no comma. *)
Theorem genre_names_are_trimmed {F : Type} (percentage : nat -> nat -> F)
  (df : option History) (genres : list (string * nat))
  (shares : list (string * Share F)) :
  genre_distribution_endpoint percentage df = GenreOk genres shares ->
  Forall (fun g => nonempty g = true /\ strip g = g /\ ~ has_char ","%char g)
         (map fst genres ++ map fst shares).
Proof.
  unfold genre_distribution_endpoint.
  destruct df as [h|]; [|discriminate].
  destruct (h_genres h) as [column|]; [|intros [= <- <-]; constructor].
  cbv zeta. destruct (is_nil _); [intros [= <- <-]; constructor|].
  intros [= <- <-]. rewrite map_map. cbn [fst]. apply Forall_app.
  assert (H : Forall (fun g => nonempty g = true /\ strip g = g /\ ~ has_char ","%char g)
                (map fst (firstn 15 (sorted_desc (Counter (all_genres_of column)))))).
  { apply Forall_forall. intros g Hg. rewrite <- firstn_map in Hg. apply firstn_In in Hg.
    apply (Permutation_in _ (Permutation_map fst (sorted_desc_perm _))) in Hg.
    apply (proj1 (Counter_keys _ _)) in Hg. unfold all_genres_of in Hg.
    apply in_flat_map in Hg as (cell & _ & Hg). eapply cell_genres_trimmed, Hg. }
  split; exact H.
Qed.

Lemma genre_names_are_trimmed_witness :
  exists genres shares,
    genre_distribution_endpoint (fun c n => (c * 100 / n)%nat) (Some demo_history)
    = GenreOk genres shares
    /\ Forall (fun g => nonempty g = true /\ strip g = g /\ ~ has_char ","%char g)
              (map fst genres ++ map fst shares).
Proof.
  do 2 eexists. split; [reflexivity|].
  eapply (genre_names_are_trimmed (fun c n => (c * 100 / n)%nat) (Some demo_history)).
  reflexivity.
Defined.

(** ** Popularity classes *)

Lemma class_counts_total (classes : list PopularityClass) :
  (class_count Low classes + class_count Medium classes + class_count High classes
   = length classes)%nat.
Proof.
  unfold class_count. induction classes as [|[] classes IH]; simpl in *; lia.
Qed.

Lemma threshold_order (p : Qc) :
  Qcle_bool (Qc_of_Z 70) p = true -> Qcle_bool (Qc_of_Z 40) p = true.
Proof.
  intro H. apply Qcle_bool_true in H.
  destruct (Qcle_bool (Qc_of_Z 40) p) eqn:H'; [reflexivity|].
  apply Qcle_bool_false in H'. exfalso.
  pose proof (Qcle_trans _ _ _ H H') as Hc.
  unfold Qcle, Qle in Hc. cbn in Hc. lia.
Qed.

Lemma class_count_ranges (column : list (option Qc)) :
  class_count Low (map classify column) = tracks_where (in_range None (Some 40)) column
  /\ class_count Medium (map classify column)
     = tracks_where (in_range (Some 40) (Some 70)) column
  /\ class_count High (map classify column)
     = (tracks_where (in_range (Some 70%Z) None) column + tracks_where is_nan column)%nat.
Proof.
  unfold class_count, tracks_where.
  induction column as [|[p|] column (IH1 & IH2 & IH3)]; [repeat split| |].
  - cbn [map filter classify in_range is_nan]. unfold Qclt_bool.
    pose proof (threshold_order p) as Ht.
    destruct (Qcle_bool (Qc_of_Z 40) p), (Qcle_bool (Qc_of_Z 70) p);
      cbn [negb andb class_eqb length]; try (specialize (Ht eq_refl); discriminate);
      rewrite ?IH1, ?IH2, ?IH3; repeat split; lia.
  - cbn [map filter classify in_range is_nan class_eqb length].
    rewrite IH1, IH2, IH3. repeat split; lia.
Qed.

(** X16. With a numeric ['Popularity'] column the endpoint answers with a
    distribution in which ['Low'] counts the tracks whose popularity is
    below 40, ['Medium'] those from 40 up to but not 70, and ['High']
    those from 70 on together with the tracks whose popularity is NaN;
    the counts add up to the number of tracks, a class without a track is
    left out of the dictionary, and each percentage is taken from the
    count and the number of tracks. *)
Theorem popularity_counts_cover_tracks {F : Type} (percentage : nat -> nat -> F)
  (h : History) (column : list (option Qc)) :
  h_popularity h = Some column ->
  exists dist,
    popularity_distribution percentage (Some h) = PopularityOk dist
    /\ listed_count dist Low = tracks_where (in_range None (Some 40)) column
    /\ listed_count dist Medium = tracks_where (in_range (Some 40) (Some 70)) column
    /\ listed_count dist High
       = (tracks_where (in_range (Some 70%Z) None) column + tracks_where is_nan column)%nat
    /\ (listed_count dist Low + listed_count dist Medium + listed_count dist High
        = length column)%nat
    /\ (forall k, dist k = None <-> listed_count dist k = O)
    /\ (forall k s, dist k = Some s ->
                    share_percentage s = percentage (share_count s) (length column)).
Proof.
  intro Hcol. unfold popularity_distribution. rewrite Hcol. cbv zeta.
  eexists. split; [reflexivity|].
  assert (Hl : forall k,
             listed_count (fun k => if (class_count k (map classify column) =? 0)%nat
                                    then None
                                    else Some (mkShare (class_count k (map classify column))
                                                 (percentage (class_count k (map classify column))
                                                             (length column)))) k
             = class_count k (map classify column)).
  { intro k. unfold listed_count. destruct (Nat.eqb_spec (class_count k (map classify column)) 0);
      [congruence | reflexivity]. }
  destruct (class_count_ranges column) as (H1 & H2 & H3).
  split; [rewrite Hl; exact H1|]. split; [rewrite Hl; exact H2|].
  split; [rewrite Hl; exact H3|].
  split; [rewrite !Hl, class_counts_total; apply length_map|].
  split.
  - intro k. rewrite Hl.
    destruct (Nat.eqb_spec (class_count k (map classify column)) 0); split; congruence.
  - intros k s. destruct (_ =? _)%nat; [discriminate|]. intros [= <-]. reflexivity.
Qed.

Lemma popularity_counts_cover_tracks_witness :
  exists dist,
    popularity_distribution (fun c n => (c * 100 / n)%nat) (Some demo_history)
    = PopularityOk dist
    /\ listed_count dist Low = 1%nat
    /\ listed_count dist Medium = 1%nat
    /\ listed_count dist High = 2%nat
    /\ (listed_count dist Low + listed_count dist Medium + listed_count dist High = 4)%nat
    /\ (forall k, dist k = None <-> listed_count dist k = O)
    /\ (forall k s, dist k = Some s ->
                    share_percentage s = (share_count s * 100 / 4)%nat).
Proof.
  apply (popularity_counts_cover_tracks (fun c n => (c * 100 / n)%nat) demo_history
           [Some (Qc_of_Z 39); Some (Qc_of_Z 40); None; Some (Qc_of_Z 70)]).
  reflexivity.
Defined.
